(** * route-recognizer: the automaton, the recognizer and the generator

    A shallow embedding of [lib/route-recognizer.js] (the second unit of
    [src/lib/router.js]) and, in the module [Router], of the older [Router]
    (the first unit).

    Conventions of the embedding.
    - A JS string is a [string]: a sequence of code units, here restricted to
      the range 0..255.  [charAt], [substr], [slice], [indexOf] and [split]
      are written out on that type.
    - A JS exception is a value of [exn]; a call that may throw returns a
      [result].  A method that mutates the engine before it throws returns
      the engine it leaves behind next to the [result].
    - The automaton is an arena: [State]s live in a list and refer to each
      other by index, so the self reference of a repeating state is an index
      like any other.  Index 0 is [rootState].
    - Arrays whose identity matters (the [handlers] array shared by an
      accepting state and the names registry) live in a store of arrays and
      are referred to by location.
    - Objects created by the engine with [{}] inherit from
      [Object.prototype]; reads of a key that may be absent go through
      [proto_get], writes through [proto_set]. *)

From Stdlib Require Import ZArith Ascii String Lia Bool.
From stdpp Require Import base option list gmap strings sorting.

Local Open Scope Z_scope.

(* ===================================================================== *)
(** ** Exceptions *)
(* ===================================================================== *)

Inductive exn : Type :=
  | Error (msg : string)
  | TypeError
  | URIError
  | SyntaxError.

Inductive result (A : Type) : Type :=
  | Ok (a : A)
  | Throw (e : exn).
Arguments Ok {A} a.
Arguments Throw {A} e.

Global Instance result_ret : MRet result := λ A a, Ok a.
Global Instance result_bind : MBind result := λ A B f m,
  match m with
  | Ok a => f a
  | Throw e => Throw e
  end.
Global Instance result_fmap : FMap result := λ A B f m,
  match m with
  | Ok a => Ok (f a)
  | Throw e => Throw e
  end.

(** [mapM] for [result], left to right, stopping at the first throw. *)
Fixpoint result_mapM {A B} (f : A → result B) (l : list A) : result (list B) :=
  match l with
  | [] => Ok []
  | x :: l' => y ← f x; ys ← result_mapM f l'; Ok (y :: ys)
  end.

(* ===================================================================== *)
(** ** Strings *)
(* ===================================================================== *)

Definition chr (c : ascii) : string := String c "".

(** [s.charAt(0) === c] *)
Definition starts_with_char (c : ascii) (s : string) : bool :=
  match s with
  | String a _ => Ascii.eqb a c
  | "" => false
  end.

(** [s.substr(1)] *)
Definition substr1 (s : string) : string :=
  match s with
  | String _ r => r
  | "" => ""
  end.

(** [s.substr(0, n)]: the first [n] code units, all of [s] when it is
    shorter. *)
Fixpoint substr0 (n : nat) (s : string) : string :=
  match n, s with
  | S n', String a r => String a (substr0 n' r)
  | _, _ => ""
  end.

(** [s.substr(n)] and [s.slice(n)] for [0 <= n]. *)
Fixpoint drop_str (n : nat) (s : string) : string :=
  match n, s with
  | S n', String _ r => drop_str n' r
  | _, _ => s
  end.

(** [s.slice(-n)]: the last [n] code units, all of [s] when it is shorter. *)
Definition slice_last (n : nat) (s : string) : string :=
  drop_str (String.length s - n) s.

(** [s.charAt(s.length - 1) === c] *)
Fixpoint ends_with_char (c : ascii) (s : string) : bool :=
  match s with
  | "" => false
  | String a "" => Ascii.eqb a c
  | String _ r => ends_with_char c r
  end.

(** [s.indexOf(c)] for a one-character [c]; [None] is [-1]. *)
Fixpoint indexOf (c : ascii) (s : string) : option nat :=
  match s with
  | "" => None
  | String a r => if Ascii.eqb a c then Some 0%nat else S <$> indexOf c r
  end.

(** [s.split(c)] for a one-character separator: never the empty list. *)
Fixpoint split (c : ascii) (s : string) : list string :=
  match s with
  | "" => [""]
  | String a r =>
      if Ascii.eqb a c then "" :: split c r
      else match split c r with
           | w :: ws => String a w :: ws
           | [] => [chr a]
           end
  end.

(** [l.join(sep)] *)
Fixpoint join (sep : string) (l : list string) : string :=
  match l with
  | [] => ""
  | [w] => w
  | w :: ws => w +:+ sep +:+ join sep ws
  end.

Definition concat_str (l : list string) : string := foldr String.app "" l.

(** [s.replace(/c/g, f)] for a one-character pattern. *)
Fixpoint replace_char (p : ascii → bool) (f : ascii → string) (s : string) : string :=
  match s with
  | "" => ""
  | String a r => (if p a then f a else chr a) +:+ replace_char p f r
  end.

(* ===================================================================== *)
(** ** Numbers

    [specificity.val] is a string of decimal digits turned into a Number by
    the unary [+].  A Number is an IEEE 754 binary64; the values that occur
    are integers, the infinities and NaN.  [round_binary64] is rounding to
    the nearest value with a 53 bit significand, ties to even. *)
(* ===================================================================== *)

Inductive Number : Type :=
  | NaN
  | Num (z : Z)
  | PosInf
  | NegInf.

Definition round_pos (n : Z) : Number :=
  let k := Z.log2 n in
  if k <=? 52 then Num n
  else
    let sh := k - 52 in
    let q := Z.shiftr n sh in
    let r := n - Z.shiftl q sh in
    let half := Z.shiftl 1 (sh - 1) in
    let q' := if (half <? r) || ((r =? half) && Z.odd q) then q + 1 else q in
    let v := Z.shiftl q' sh in
    if 2 ^ 1024 <=? v then PosInf else Num v.

Definition num_neg (x : Number) : Number :=
  match x with
  | NaN => NaN
  | Num z => Num (- z)
  | PosInf => NegInf
  | NegInf => PosInf
  end.

Definition round_binary64 (z : Z) : Number :=
  if z =? 0 then Num 0
  else if 0 <? z then round_pos z
  else num_neg (round_pos (- z)).

Definition digit_val (c : ascii) : option Z :=
  let n := Z.of_N (N_of_ascii c) in
  if (48 <=? n) && (n <=? 57) then Some (n - 48) else None.

(** The mathematical value of a string of decimal digits, read left to
    right; [None] when a character is not a digit. *)
Fixpoint decimal_value (acc : Z) (s : string) : option Z :=
  match s with
  | "" => Some acc
  | String c r =>
      match digit_val c with
      | Some d => decimal_value (10 * acc + d) r
      | None => None
      end
  end.

(** [+s] for a string of decimal digits ([+'' ] is 0). *)
Definition to_number (s : string) : Number :=
  match decimal_value 0 s with
  | Some z => round_binary64 z
  | None => NaN
  end.

(** [x - y] *)
Definition num_sub (x y : Number) : Number :=
  match x, y with
  | NaN, _ | _, NaN => NaN
  | Num a, Num b => round_binary64 (a - b)
  | PosInf, PosInf | NegInf, NegInf => NaN
  | PosInf, _ | _, NegInf => PosInf
  | NegInf, _ | _, PosInf => NegInf
  end.

(** What [Array.prototype.sort] makes of the comparator's result: NaN
    counts as +0, otherwise only the sign matters. *)
Definition sort_sign (v : Number) : Z :=
  match v with
  | NaN => 0
  | Num z => Z.sgn z
  | PosInf => 1
  | NegInf => -1
  end.

(** [a.sort(cmp)] for a comparator given by the sign it returns.  The sort
    is stable (ECMAScript 2019); for a consistent comparator every
    conforming sort returns the elements ordered by [cmp]. *)
Section sort.
Context {A : Type} (cmp : A → A → Z).

Fixpoint sort_insert (x : A) (l : list A) : list A :=
  match l with
  | [] => [x]
  | y :: l' => if cmp x y <=? 0 then x :: y :: l' else y :: sort_insert x l'
  end.

Definition js_sort (l : list A) : list A := foldr sort_insert [] l.

End sort.

Local Close Scope Z_scope.

(* ===================================================================== *)
(** ** The host: built-in functions and the injected normalizer *)
(* ===================================================================== *)

(** The three URI functions of the language.  [encodeURIComponent] throws
    only on a lone surrogate, which a string of the model cannot hold. *)
Class Builtins : Type := {
  encodeURIComponent : string → string;
  decodeURIComponent : string → result string;
  decodeURI : string → result string
}.

(** [import Normalizer from './route-recognizer/normalizer']: the module is
    not among the sources, so its two functions are parameters. *)
Class Normalizer : Type := {
  normalizePath : string → result string;
  normalizeSegment : string → result string
}.

(** *** A concrete host

    The URI functions as ECMAScript defines them, on the code units of the
    model.  A code unit above 127 is encoded as its two UTF-8 bytes; an
    escape sequence for a code point above 255 has no string in the model
    and is answered with [URIError] like a malformed one. *)

Definition code (c : ascii) : N := N_of_ascii c.

Definition in_range (lo hi : N) (c : ascii) : bool :=
  ((lo <=? code c) && (code c <=? hi))%N.

Definition mem_char (c : ascii) (s : string) : bool :=
  match indexOf c s with Some _ => true | None => false end.

Definition uri_unescaped (c : ascii) : bool :=
  in_range 48 57 c || in_range 65 90 c || in_range 97 122 c
  || mem_char c "-_.!~*'()".

Definition uri_reserved_plus_hash (c : ascii) : bool :=
  mem_char c ";/?:@&=+$,#".

Definition hex_digit (n : N) : ascii :=
  ascii_of_N (if (n <? 10)%N then 48 + n else 55 + n)%N.

Definition hex_val (c : ascii) : option N :=
  if in_range 48 57 c then Some (code c - 48)%N
  else if in_range 65 70 c then Some (code c - 55)%N
  else if in_range 97 102 c then Some (code c - 87)%N
  else None.

Definition pct (b : N) : string :=
  String "%" (String (hex_digit (b / 16)) (String (hex_digit (b mod 16)) "")).

Definition encode_char (c : ascii) : string :=
  if uri_unescaped c then chr c
  else if (code c <? 128)%N then pct (code c)
  else pct (192 + code c / 64) +:+ pct (128 + code c mod 64).

Definition js_encodeURIComponent (s : string) : string :=
  replace_char (λ _, true) encode_char s.

(** The value of an escape [%h1h2]. *)
Definition escape_val (h1 h2 : ascii) : option N :=
  match hex_val h1, hex_val h2 with
  | Some a, Some b => Some (16 * a + b)%N
  | _, _ => None
  end.

(** [Decode(s, reservedSet)] *)
Fixpoint uri_decode (reserved : ascii → bool) (s : string) : result string :=
  match s with
  | "" => Ok ""
  | String c r =>
      if negb (Ascii.eqb c "%") then String c <$> uri_decode reserved r
      else
        match r with
        | String h1 (String h2 r2) =>
            match escape_val h1 h2 with
            | None => Throw URIError
            | Some b =>
                if (b <? 128)%N then
                  let d := ascii_of_N b in
                  t ← uri_decode reserved r2;
                  Ok ((if reserved d then String "%" (String h1 (chr h2)) else chr d) +:+ t)
                else if ((194 <=? b) && (b <=? 195))%N then
                  match r2 with
                  | String p (String h3 (String h4 r4)) =>
                      if negb (Ascii.eqb p "%") then Throw URIError
                      else
                        match escape_val h3 h4 with
                        | Some b2 =>
                            if ((128 <=? b2) && (b2 <=? 191))%N then
                              String (ascii_of_N ((b - 192) * 64 + (b2 - 128))%N)
                                <$> uri_decode reserved r4
                            else Throw URIError
                        | None => Throw URIError
                        end
                  | _ => Throw URIError
                  end
                else Throw URIError
            end
        | _ => Throw URIError
        end
  end.

Definition js_decodeURIComponent : string → result string :=
  uri_decode (λ _, false).

Definition js_decodeURI : string → result string :=
  uri_decode uri_reserved_plus_hash.

#[global] Instance js_builtins : Builtins := {|
  encodeURIComponent := js_encodeURIComponent;
  decodeURIComponent := js_decodeURIComponent;
  decodeURI := js_decodeURI
|}.

(** Modelled from the spec: the path-normalization policy, "percent-decoding
    and casing rules" applied to a static segment at registration and to
    the working path at recognition.  The module that implements it is
    missing; this policy decodes each segment and keeps [%] and [/] in
    their upper-case escaped form. *)
Definition policy_normalizeSegment (segment : string) : result string :=
  d ← js_decodeURIComponent segment;
  Ok (replace_char (λ c, Ascii.eqb c "%" || Ascii.eqb c "/") encode_char d).

Definition policy_normalizePath (path : string) : result string :=
  join "/" <$> result_mapM policy_normalizeSegment (split "/" path).

#[global] Instance policy_normalizer : Normalizer := {|
  normalizePath := policy_normalizePath;
  normalizeSegment := policy_normalizeSegment
|}.

(* ===================================================================== *)
(** ** Objects created with [{}]

    Such an object has its own properties and, behind them, the members of
    [Object.prototype].  Reading a key it does not own gives the inherited
    member when there is one.  Assigning to [__proto__] runs the inherited
    setter: no own property is created; an object value replaces the
    prototype and any other value is ignored. *)
(* ===================================================================== *)

Definition Object_prototype_keys : list string :=
  [ "constructor"; "hasOwnProperty"; "isPrototypeOf"; "propertyIsEnumerable";
    "toLocaleString"; "toString"; "valueOf"; "__proto__";
    "__defineGetter__"; "__defineSetter__"; "__lookupGetter__";
    "__lookupSetter__" ].

Definition is_inherited (k : string) : bool :=
  bool_decide (k ∈ Object_prototype_keys).

Inductive property (V : Type) : Type :=
  | Own (v : V)
  | Inherited
  | Absent.
Arguments Own {V} v.
Arguments Inherited {V}.
Arguments Absent {V}.

(** [o[k]] *)
Definition proto_get {V} (o : gmap string V) (k : string) : property V :=
  match o !! k with
  | Some v => Own v
  | None => if is_inherited k then Inherited else Absent
  end.

(** [o[k] = v] for a [v] that is not an object *)
Definition proto_set {V} (o : gmap string V) (k : string) (v : V) : gmap string V :=
  if bool_decide (k = "__proto__") then o else <[k := v]> o.

(* ===================================================================== *)
(** ** Regular expressions

    [add] builds the source of a state's [regex] from [^], [$], [/], the
    escaped text of static segments and the two capture groups [([^/]+)]
    and [(.+)].  [RegExp_new] reads a source of that shape; [regex_match]
    is [String.prototype.match] for a regular expression without flags: a
    backtracking search for the first match, quantifiers greedy. *)
(* ===================================================================== *)

Definition specials : list ascii :=
  [ "/"; "."; "*"; "+"; "?"; "|"; "("; ")"; "["; "]"; "{"; "}"; "\" ]%char.

Definition is_special (c : ascii) : bool := bool_decide (c ∈ specials).

(** [s.replace(escapeRegex, '\\$1')] *)
Definition escape (s : string) : string :=
  replace_char is_special (λ c, String "\" (chr c)) s.

Inductive CharClass : Type :=
  | NotSlash   (* [^/] *)
  | AnyChar.   (* .    *)

Inductive RItem : Type :=
  | RChar (c : ascii)
  | RStart                  (* ^ *)
  | REnd                    (* $ *)
  | RGroup (cls : CharClass). (* (cls+) *)

Record RegExp : Type := {
  source : string;
  program : list RItem
}.

Definition is_line_terminator (c : ascii) : bool :=
  Ascii.eqb c "010" || Ascii.eqb c "013".

Definition class_matches (cls : CharClass) (c : ascii) : bool :=
  match cls with
  | NotSlash => negb (Ascii.eqb c "/")
  | AnyChar => negb (is_line_terminator c)
  end.

(** The pattern of a source, [None] where the source is not of the shape
    described above. *)
Fixpoint parse_pattern (s : string) : option (list RItem) :=
  match s with
  | "" => Some []
  | String c r =>
      if Ascii.eqb c "^" then cons RStart <$> parse_pattern r
      else if Ascii.eqb c "$" then cons REnd <$> parse_pattern r
      else if Ascii.eqb c "\" then
        match r with
        | String d r1 =>
            if is_special d then cons (RChar d) <$> parse_pattern r1 else None
        | "" => None
        end
      else if Ascii.eqb c "(" then
        match r with
        | String a1 (String a2 (String a3 r3)) =>
            if String.eqb (String a1 (String a2 (chr a3))) ".+)"
            then cons (RGroup AnyChar) <$> parse_pattern r3
            else
              match r3 with
              | String a4 (String a5 (String a6 r6)) =>
                  if String.eqb
                       (String a1 (String a2 (String a3
                          (String a4 (String a5 (chr a6)))))) "[^/]+)"
                  then cons (RGroup NotSlash) <$> parse_pattern r6
                  else None
              | _ => None
              end
        | _ => None
        end
      else if Ascii.eqb c "/" then cons (RChar c) <$> parse_pattern r
      else if is_special c then None
      else cons (RChar c) <$> parse_pattern r
  end.

(** [new RegExp(src)] *)
Definition RegExp_new (src : string) : result RegExp :=
  match parse_pattern src with
  | Some p => Ok {| source := src; program := p |}
  | None => Throw SyntaxError
  end.

(** The number of leading characters of [s] that are in the class. *)
Fixpoint span (cls : CharClass) (s : string) : nat :=
  match s with
  | String c r => if class_matches cls c then S (span cls r) else 0%nat
  | "" => 0%nat
  end.

(** [k n], [k (n-1)], ..., [k 1]: the first that succeeds. *)
Fixpoint longest_first {A} (n : nat) (k : nat → option A) : option A :=
  match n with
  | O => None
  | S n' =>
      match k n with
      | Some r => Some r
      | None => longest_first n' k
      end
  end.

(** Match the pattern at the head of [input]; [at_start] tells whether
    that is the start of the whole string.  The result lists the
    captures. *)
Fixpoint match_here (p : list RItem) (at_start : bool) (input : string)
  : option (list string) :=
  match p with
  | [] => Some []
  | RChar c :: p' =>
      match input with
      | String a r => if Ascii.eqb a c then match_here p' false r else None
      | "" => None
      end
  | RStart :: p' => if at_start then match_here p' at_start input else None
  | REnd :: p' =>
      match input with
      | "" => match_here p' at_start input
      | _ => None
      end
  | RGroup cls :: p' =>
      longest_first (span cls input)
        (λ n, cons (substr0 n input) <$> match_here p' false (drop_str n input))
  end.

(** Try every start position, left to right. *)
Fixpoint search (p : list RItem) (at_start : bool) (input : string)
  : option (list string) :=
  match match_here p at_start input with
  | Some caps => Some caps
  | None =>
      match input with
      | "" => None
      | String _ r => search p false r
      end
  end.

(** [s.match(re)]: [None] is [null], otherwise the captures 1, 2, ... *)
Definition regex_match (re : RegExp) (s : string) : option (list string) :=
  search (program re) true s.

(* ===================================================================== *)
(** ** Values *)
(* ===================================================================== *)

(** What a parameter of a recognized route can hold. *)
Inductive value : Type :=
  | undefined
  | str (s : string).

(** [String(v)] *)
Definition to_string (v : value) : string :=
  match v with
  | undefined => "undefined"
  | str s => s
  end.

(** What a query parameter can hold. *)
Inductive qvalue : Type :=
  | QNull
  | QUndefined
  | QStr (s : string)
  | QArr (l : list string).

(* ===================================================================== *)
(** ** The engine *)
(* ===================================================================== *)

Section engine.
Context {HV : Type} {BI : Builtins} {NO : Normalizer}.

(** [RouteRecognizer.ENCODE_AND_DECODE_PATH_SEGMENTS], read by [generate]
    and [recognize] when they run. *)
Variable ENCODE_AND_DECODE_PATH_SEGMENTS : bool.

(** *** Segments *)

Inductive Segment : Type :=
  | StaticSegment (string : string)
  | DynamicSegment (name : string)
  | StarSegment (name : string)
  | EpsilonSegment.

(** [new StaticSegment(string)] *)
Definition StaticSegment_new (string : string) : result Segment :=
  StaticSegment <$> normalizeSegment string.

(** [new DynamicSegment(name)] *)
Definition DynamicSegment_new (name : string) : result Segment :=
  DynamicSegment <$> normalizeSegment name.

Definition is_Epsilon (s : Segment) : bool :=
  match s with EpsilonSegment => true | _ => false end.

(** [segment.regex()] *)
Definition Segment_regex (s : Segment) : string :=
  match s with
  | StaticSegment string => escape string
  | DynamicSegment _ => "([^/]+)"
  | StarSegment _ => "(.+)"
  | EpsilonSegment => ""
  end.

(** [segment.match(/^c([^\/]+)$/)], giving [match[1]] *)
Definition capture_after (c : ascii) (segment : string) : option string :=
  match segment with
  | String a r =>
      if Ascii.eqb a c && negb (String.eqb r "") && negb (mem_char "/" r)
      then Some r else None
  | "" => None
  end.

(** The loop of [parse]: the segments, the names and decode flags pushed,
    and the digits appended to [specificity.val]. *)
Fixpoint parse_segments (segments : list string)
  : result (list Segment * list string * list bool * string) :=
  match segments with
  | [] => Ok ([], [], [], "")
  | segment :: rest =>
      match capture_after ":" segment with
      | Some name =>
          seg ← DynamicSegment_new name;
          '(rs, ns, ds, v) ← parse_segments rest;
          Ok (seg :: rs, name :: ns, true :: ds, String "3" v)
      | None =>
          match capture_after "*" segment with
          | Some name =>
              '(rs, ns, ds, v) ← parse_segments rest;
              Ok (StarSegment name :: rs, name :: ns, false :: ds, String "1" v)
          | None =>
              if String.eqb segment "" then
                '(rs, ns, ds, v) ← parse_segments rest;
                Ok (EpsilonSegment :: rs, ns, ds, String "2" v)
              else
                seg ← StaticSegment_new segment;
                '(rs, ns, ds, v) ← parse_segments rest;
                Ok (seg :: rs, ns, ds, String "4" v)
          end
      end
  end.

Record Parsed : Type := {
  results : list Segment;
  parsed_names : list string;
  parsed_shouldDecodes : list bool;
  parsed_val : Number
}.

(** [parse(route, names, specificity, shouldDecodes)] for empty [names] and
    [shouldDecodes], as [add] calls it. *)
Definition parse (route : string) : result Parsed :=
  let route := if starts_with_char "/" route then substr1 route else route in
  '(rs, ns, ds, v) ← parse_segments (split "/" route);
  Ok {| results := rs; parsed_names := ns; parsed_shouldDecodes := ds;
        parsed_val := to_number v |}.

(** *** States *)

Record CharSpec : Type := {
  validChars : option string;
  invalidChars : option string;
  repeat : bool
}.

Record Handler : Type := {
  handler : HV;
  names : list string;
  shouldDecodes : list bool
}.

(** [regex], [handlers] and [specificity] are [undefined] in a new state
    and are assigned together at the end of [add]: the model keeps them in
    one optional record.  [handlers] is the location of the array;
    [specificity] is [specificity.val], [None] for [undefined]. *)
Record Accepting : Type := {
  regex : RegExp;
  handlers : nat;
  specificity : option Number
}.

Record State : Type := {
  charSpec : option CharSpec;
  nextStates : list nat;
  accepting : option Accepting
}.

(** [new State(charSpec)] *)
Definition State_new (spec : option CharSpec) : State :=
  {| charSpec := spec; nextStates := []; accepting := None |}.

Definition isEqualCharSpec (specA specB : CharSpec) : bool :=
  bool_decide (validChars specA = validChars specB)
  && bool_decide (invalidChars specA = invalidChars specB).

(** Whether the state at index [c] has a [charSpec] equal to [spec]. *)
Definition has_spec (sts : list State) (spec : CharSpec) (c : nat) : bool :=
  match sts !! c ≫= charSpec with
  | Some cs => isEqualCharSpec cs spec
  | None => false
  end.

(** [state.get(charSpec)] for the state at index [cur] *)
Definition State_get (sts : list State) (cur : nat) (spec : CharSpec) : option nat :=
  s ← sts !! cur; List.find (has_spec sts spec) (nextStates s).

Definition push_child (n : nat) (s : State) : State :=
  {| charSpec := charSpec s; nextStates := nextStates s ++ [n];
     accepting := accepting s |}.

(** [state.put(charSpec)]: the states after the call and the index
    returned. *)
Definition State_put (sts : list State) (cur : nat) (spec : CharSpec)
  : list State * nat :=
  match State_get sts cur spec with
  | Some c => (sts, c)
  | None =>
      let n := length sts in
      let state := State_new (Some spec) in
      let sts := alter (push_child n) cur sts ++ [state] in
      let sts := if repeat spec then alter (push_child n) n sts else sts in
      (sts, n)
  end.

(** Whether the state at index [c] takes the character [ch]. *)
Definition takes (sts : list State) (ch : ascii) (c : nat) : bool :=
  match sts !! c ≫= charSpec with
  | Some cs =>
      match validChars cs with
      | Some chars => mem_char ch chars
      | None =>
          match invalidChars cs with
          | Some chars => negb (mem_char ch chars)
          | None => false
          end
      end
  | None => false
  end.

(** [state.match(ch)] *)
Definition State_match (sts : list State) (cur : nat) (ch : ascii) : list nat :=
  match sts !! cur with
  | Some s => filter (λ c, takes sts ch c = true) (nextStates s)
  | None => []
  end.

Definition recognizeChar (sts : list State) (states : list nat) (ch : ascii)
  : list nat :=
  foldl (λ nextStates state, nextStates ++ State_match sts state ch) [] states.

(** [segment.eachChar(currentState)] *)
Definition eachChar (s : Segment) (sts : list State) (currentState : nat)
  : list State * nat :=
  match s with
  | StaticSegment string =>
      foldl (λ '(sts, cur) ch,
               State_put sts cur
                 {| invalidChars := None; repeat := false;
                    validChars := Some (chr ch) |})
        (sts, currentState) (list_ascii_of_string string)
  | DynamicSegment _ =>
      State_put sts currentState
        {| invalidChars := Some "/"; repeat := true; validChars := None |}
  | StarSegment _ =>
      State_put sts currentState
        {| invalidChars := Some ""; repeat := true; validChars := None |}
  | EpsilonSegment => (sts, currentState)
  end.

(** *** The engine and its registry *)

Record NamedRoute : Type := {
  segments : list Segment;
  route_handlers : nat
}.

(** [this.names]: the own properties, and the route object that an
    assignment to [__proto__] has put in place of [Object.prototype]. *)
Record Registry : Type := {
  own : gmap string NamedRoute;
  proto : option NamedRoute
}.

Inductive NamesEntry : Type :=
  | IsRoute (r : NamedRoute)
  | IsForeign     (* a truthy value that is no route object *)
  | IsUndefined.

(** [this.names[name]] *)
Definition names_get (reg : Registry) (name : string) : NamesEntry :=
  match own reg !! name with
  | Some r => IsRoute r
  | None =>
      if bool_decide (name = "__proto__") then
        match proto reg with Some r => IsRoute r | None => IsForeign end
      else if bool_decide (is_Some (proto reg) ∧ name ∈ ["segments"; "handlers"])
      then IsForeign
      else if is_inherited name then IsForeign
      else IsUndefined
  end.

(** [this.names[name] = route] *)
Definition names_set (reg : Registry) (name : string) (r : NamedRoute) : Registry :=
  if bool_decide (name = "__proto__")
  then {| own := own reg; proto := Some r |}
  else {| own := <[name := r]> (own reg); proto := proto reg |}.

Record Engine : Type := {
  states : list State;                (* the arena; [rootState] is index 0 *)
  registry : Registry;                (* [this.names] *)
  arrays : list (list Handler)        (* the store of [handlers] arrays *)
}.

Definition rootState : nat := 0%nat.

(** [new RouteRecognizer()] *)
Definition RouteRecognizer_new : Engine :=
  {| states := [State_new None];
     registry := {| own := ∅; proto := None |};
     arrays := [] |}.

Record Route : Type := {
  path : string;
  route_handler : HV
}.

Definition slash_spec : CharSpec :=
  {| invalidChars := None; repeat := false; validChars := Some "/" |}.

(** The locals of [add] that its loops update. *)
Record AddLoop : Type := {
  loop_states : list State;
  currentState : nat;
  loop_regex : string;
  loop_val : option Number;
  loop_handlers : list Handler;
  allSegments : list Segment;
  isEmpty : bool
}.

(** The body of the inner loop of [add]. *)
Definition add_segment (a : AddLoop) (segment : Segment) : AddLoop :=
  if is_Epsilon segment then a
  else
    let '(sts, cur) := State_put (loop_states a) (currentState a) slash_spec in
    let regex := loop_regex a +:+ "/" in
    let '(sts, cur) := eachChar segment sts cur in
    let regex := regex +:+ Segment_regex segment in
    {| loop_states := sts; currentState := cur; loop_regex := regex;
       loop_val := loop_val a; loop_handlers := loop_handlers a;
       allSegments := allSegments a; isEmpty := false |}.

(** The outer loop of [add]; a throw of [parse] leaves the loop with the
    locals as they are. *)
Fixpoint add_routes (routes : list Route) (a : AddLoop) : AddLoop * result unit :=
  match routes with
  | [] => (a, Ok ())
  | route :: rest =>
      match parse (path route) with
      | Throw e => (a, Throw e)
      | Ok p =>
          let a := {| loop_states := loop_states a; currentState := currentState a;
                      loop_regex := loop_regex a;
                      loop_val := Some (parsed_val p);
                      loop_handlers := loop_handlers a;
                      allSegments := allSegments a ++ results p;
                      isEmpty := isEmpty a |} in
          let a := foldl add_segment a (results p) in
          let h := {| handler := route_handler route; names := parsed_names p;
                      shouldDecodes := parsed_shouldDecodes p |} in
          add_routes rest
            {| loop_states := loop_states a; currentState := currentState a;
               loop_regex := loop_regex a; loop_val := loop_val a;
               loop_handlers := loop_handlers a ++ [h];
               allSegments := allSegments a; isEmpty := isEmpty a |}
      end
  end.

Definition set_accepting (acc : Accepting) (s : State) : State :=
  {| charSpec := charSpec s; nextStates := nextStates s; accepting := Some acc |}.

(** The locals of [add] when its loop starts. *)
Definition add_init (e : Engine) : AddLoop :=
  {| loop_states := states e; currentState := rootState; loop_regex := "^";
     loop_val := None; loop_handlers := []; allSegments := [];
     isEmpty := true |}.

(** The step after the loop: a batch without a segment other than
    [EpsilonSegment] still moves over one [/]. *)
Definition add_finish (a : AddLoop) : list State * nat * string :=
  if isEmpty a then
    let '(sts, cur) := State_put (loop_states a) (currentState a) slash_spec in
    (sts, cur, loop_regex a +:+ "/")
  else (loop_states a, currentState a, loop_regex a).

(** [if (name = options && options.as) { this.names[name] = route }] *)
Definition register (reg : Registry) (as_name : option string) (route : NamedRoute)
  : Registry :=
  match as_name with
  | Some name => if String.eqb name "" then reg else names_set reg name route
  | None => reg
  end.

(** [add(routes, options)]; [as_name] is [options && options.as].  The
    result carries the engine after the call and the index of the state
    that was made accepting. *)
Definition add (e : Engine) (routes : list Route) (as_name : option string)
  : Engine * result nat :=
  let '(a, r) := add_routes routes (add_init e) in
  match r with
  | Throw ex =>
      ({| states := loop_states a; registry := registry e; arrays := arrays e |},
       Throw ex)
  | Ok _ =>
      let '(sts, cur, regex) := add_finish a in
      let loc := length (arrays e) in
      match RegExp_new (regex +:+ "$") with
      | Throw ex =>
          ({| states := sts; registry := registry e; arrays := arrays e |}, Throw ex)
      | Ok re =>
          let acc := {| regex := re; handlers := loc; specificity := loop_val a |} in
          ({| states := alter (set_accepting acc) cur sts;
              registry :=
                register (registry e) as_name
                  {| segments := allSegments a; route_handlers := loc |};
              arrays := arrays e ++ [loop_handlers a] |}, Ok cur)
      end
  end.

(** [handlersFor(name)]: a new array is allocated for the result and
    filled from [route.handlers]; the call returns its location. *)
Definition handlersFor (e : Engine) (name : string) : Engine * result nat :=
  match names_get (registry e) name with
  | IsUndefined => (e, Throw (Error ("There is no route named " +:+ name)))
  | IsForeign => (e, Throw TypeError)
  | IsRoute route =>
      match arrays e !! route_handlers route with
      | None => (e, Throw TypeError)
      | Some hs =>
          ({| states := states e; registry := registry e;
              arrays := arrays e ++ [hs] |},
           Ok (length (arrays e)))
      end
  end.

(** [hasRoute(name)] *)
Definition hasRoute (e : Engine) (name : string) : bool :=
  match names_get (registry e) name with
  | IsUndefined => false
  | _ => true
  end.

(** *** Query strings *)

Definition string_cmp (x y : string) : Z :=
  match String.compare x y with
  | Lt => (-1)%Z
  | Eq => 0%Z
  | Gt => 1%Z
  end.

(** The pairs that one key of [params] contributes. *)
Definition pairs_of (params : gmap string qvalue) (key : string) : list string :=
  match params !! key with
  | None | Some QNull | Some QUndefined => []
  | Some (QArr value) =>
      (λ v, ((key +:+ "[]") +:+ "=") +:+ encodeURIComponent v) <$> value
  | Some (QStr value) =>
      [(encodeURIComponent key +:+ "=") +:+ encodeURIComponent value]
  end.

(** [generateQueryString(params, handlers)]; [handlers] is not used. *)
Definition generateQueryString (params : gmap string qvalue) : string :=
  let keys := js_sort string_cmp (map_to_list params).*1 in
  let pairs := concat (pairs_of params <$> keys) in
  match pairs with
  | [] => ""
  | _ => "?" +:+ join "&" pairs
  end.

Definition decodeQueryParamPart (part : string) : string :=
  let part := replace_char (λ c, Ascii.eqb c "+") (λ _, "%20") part in
  match decodeURIComponent part with
  | Ok r => r
  | Throw _ => ""
  end.

(** [!!queryParams[key]] *)
Definition query_truthy (p : property qvalue) : bool :=
  match p with
  | Own (QStr s) => negb (String.eqb s "")
  | Own (QArr _) => true
  | Own QNull | Own QUndefined => false
  | Inherited => true
  | Absent => false
  end.

(** The body of the loop of [parseQueryString]. *)
Definition parse_pair (queryParams : gmap string qvalue) (p : string)
  : result (gmap string qvalue) :=
  let pair := split "=" p in
  let key := decodeQueryParamPart (default "" (head pair)) in
  let keyLength := String.length key in
  if (length pair =? 1)%nat then Ok (proto_set queryParams key (QStr "true"))
  else
    let value :=
      match pair !! 1%nat with
      | Some v => if String.eqb v "" then "" else decodeQueryParamPart v
      | None => ""
      end in
    if (2 <? keyLength)%nat && String.eqb (drop_str (keyLength - 2) key) "[]" then
      let key := substr0 (keyLength - 2) key in
      let queryParams :=
        if query_truthy (proto_get queryParams key) then queryParams
        else <[key := QArr []]> queryParams in
      match proto_get queryParams key with
      | Own (QArr l) => Ok (<[key := QArr (l ++ [value])]> queryParams)
      | _ => Throw TypeError
      end
    else Ok (proto_set queryParams key (QStr value)).

Fixpoint parse_pairs (queryParams : gmap string qvalue) (pairs : list string)
  : result (gmap string qvalue) :=
  match pairs with
  | [] => Ok queryParams
  | p :: rest => q ← parse_pair queryParams p; parse_pairs q rest
  end.

(** [parseQueryString(queryString)] *)
Definition parseQueryString (queryString : string) : result (gmap string qvalue) :=
  parse_pairs ∅ (split "&" queryString).

(** *** generate *)

(** The [params] argument of [generate]: the values of the path parameters
    and the [queryParams] mapping. *)
Record Params : Type := {
  values : gmap string string;
  queryParams : option (gmap string qvalue)
}.

(** [String(params[name])] *)
Definition param_string (p : Params) (name : string) : string :=
  if String.eqb name "queryParams" && bool_decide (is_Some (queryParams p))
  then "[object Object]"
  else match values p !! name with
       | Some s => s
       | None => "undefined"
       end.

(** [segment.generate(params)], as the string that [output +=] appends *)
Definition Segment_generate (s : Segment) (params : option Params) : result string :=
  match s with
  | StaticSegment string => Ok string
  | DynamicSegment name =>
      match params with
      | None => Throw TypeError
      | Some p =>
          Ok (if ENCODE_AND_DECODE_PATH_SEGMENTS
              then encodeURIComponent (param_string p name)
              else param_string p name)
      end
  | StarSegment name =>
      match params with
      | None => Throw TypeError
      | Some p => Ok (param_string p name)
      end
  | EpsilonSegment => Ok ""
  end.

Fixpoint generate_segments (output : string) (segs : list Segment)
  (params : option Params) : result string :=
  match segs with
  | [] => Ok output
  | segment :: rest =>
      if is_Epsilon segment then generate_segments output rest params
      else
        g ← Segment_generate segment params;
        generate_segments ((output +:+ "/") +:+ g) rest params
  end.

(** [generate(name, params)] *)
Definition generate (e : Engine) (name : string) (params : option Params)
  : result string :=
  match names_get (registry e) name with
  | IsUndefined => Throw (Error ("There is no route named " +:+ name))
  | IsForeign => Throw TypeError
  | IsRoute route =>
      output ← generate_segments "" (segments route) params;
      let output :=
        if starts_with_char "/" output then output else "/" +:+ output in
      match params ≫= queryParams with
      | Some q => Ok (output +:+ generateQueryString q)
      | None => Ok output
      end
  end.

(** *** recognize *)

Record ResultEntry : Type := {
  entry_handler : HV;
  params : gmap string value;
  isDynamic : bool
}.

Record RecognizeResults : Type := {
  entries : list ResultEntry;
  result_queryParams : gmap string qvalue
}.

(** [a.specificity.val] as a Number *)
Definition val (sts : list State) (a : nat) : Number :=
  match (sts !! a ≫= accepting) ≫= specificity with
  | Some n => n
  | None => NaN
  end.

(** [sortSolutions(states)] *)
Definition sortSolutions (sts : list State) (states : list nat) : list nat :=
  js_sort (λ a b, sort_sign (num_sub (val sts b) (val sts a))) states.

(** The loop over the characters of the path. *)
Fixpoint walk (sts : list State) (states : list nat) (path : string) : list nat :=
  match path with
  | "" => states
  | String ch r =>
      match recognizeChar sts states ch with
      | [] => []
      | next => walk sts next r
      end
  end.

Definition is_accepting (sts : list State) (i : nat) : bool :=
  match sts !! i ≫= accepting with Some _ => true | None => false end.

(** The inner loop of [findHandler]: capture [k] is at index [k - 1]. *)
Fixpoint read_params (captures : option (list string)) (names : list string)
  (shouldDecodes : list bool) (currentCapture : nat) (params : gmap string value)
  : result (gmap string value * nat) :=
  match names with
  | [] => Ok (params, currentCapture)
  | name :: names' =>
      match captures with
      | None => Throw TypeError
      | Some caps =>
          let capture :=
            match caps !! (currentCapture - 1)%nat with
            | Some s => str s
            | None => undefined
            end in
          let shouldDecode := default false (head shouldDecodes) in
          v ← (if ENCODE_AND_DECODE_PATH_SEGMENTS && shouldDecode
               then str <$> decodeURIComponent (to_string capture)
               else Ok capture);
          read_params captures names' (tail shouldDecodes) (S currentCapture)
            (proto_set params name v)
      end
  end.

Fixpoint read_handlers (captures : option (list string)) (hs : list Handler)
  (currentCapture : nat) : result (list ResultEntry) :=
  match hs with
  | [] => Ok []
  | h :: rest =>
      '(params, next) ← read_params captures (names h) (shouldDecodes h)
                          currentCapture ∅;
      let entry := {| entry_handler := handler h; params := params;
                      isDynamic := negb (length (names h) =? 0)%nat |} in
      cons entry <$> read_handlers captures rest next
  end.

(** [findHandler(state, originalPath, queryParams)] *)
Definition findHandler (e : Engine) (acc : Accepting) (originalPath : string)
  (queryParams : gmap string qvalue) : result RecognizeResults :=
  match arrays e !! handlers acc with
  | None => Throw TypeError
  | Some hs =>
      let captures := regex_match (regex acc) originalPath in
      es ← read_handlers captures hs 1;
      Ok {| entries := es; result_queryParams := queryParams |}
  end.

(** What [recognize] has in hand when the walk starts. *)
Record Prepared : Type := {
  work_path : string;        (* [path] *)
  original_path : string;    (* [originalPath] *)
  isSlashDropped : bool;
  query : gmap string qvalue
}.

(** [recognize] up to the statement [var originalPath = path]. *)
Definition split_off (path : string) : result (string * gmap string qvalue) :=
  let path :=
    match indexOf "#" path with
    | Some hashStart => substr0 hashStart path
    | None => path
    end in
  '(path, queryParams) ←
    match indexOf "?" path with
    | Some queryStart =>
        q ← parseQueryString (drop_str (S queryStart) path);
        Ok (substr0 queryStart path, q)
    | None => Ok (path, ∅)
    end;
  Ok (if starts_with_char "/" path then path else "/" +:+ path, queryParams).

(** The decoding step: [path] and [originalPath] after it. *)
Definition decode_paths (path : string) : result (string * string) :=
  if ENCODE_AND_DECODE_PATH_SEGMENTS
  then p ← normalizePath path; Ok (p, path)
  else p ← decodeURI path; o ← decodeURI path; Ok (p, o).

(** The step that drops a trailing [/]. *)
Definition drop_slash (path originalPath : string) : string * string * bool :=
  let pathLen := String.length path in
  if (1 <? pathLen)%nat && ends_with_char "/" path
  then (substr0 (pathLen - 1) path, substr0 (pathLen - 1) originalPath, true)
  else (path, originalPath, false).

Definition prepare (path : string) : result Prepared :=
  '(path, queryParams) ← split_off path;
  '(path, originalPath) ← decode_paths path;
  let '(path, originalPath, dropped) := drop_slash path originalPath in
  Ok {| work_path := path; original_path := originalPath;
        isSlashDropped := dropped; query := queryParams |}.

(** The accepting states reached, sorted. *)
Definition solutions (e : Engine) (path : string) : list nat :=
  sortSolutions (states e)
    (filter (λ i, is_accepting (states e) i = true)
       (walk (states e) [rootState] path)).

(** The path handed to [findHandler]. *)
Definition extraction_path (p : Prepared) (acc : Accepting) : string :=
  if isSlashDropped p && String.eqb (slice_last 5 (source (regex acc))) "(.+)$"
  then original_path p +:+ "/"
  else original_path p.

(** [recognize(path)]; [None] is the [undefined] of a path that no route
    takes. *)
Definition recognize (e : Engine) (path : string) : result (option RecognizeResults) :=
  p ← prepare path;
  match head (solutions e (work_path p)) ≫= λ i, states e !! i ≫= accepting with
  | Some acc => Some <$> findHandler e acc (extraction_path p acc) (query p)
  | None => Ok None
  end.

End engine.

(* ===================================================================== *)
(** ** Engines that the interface can produce *)
(* ===================================================================== *)

Section reachable.
Context {HV : Type} {BI : Builtins} {NO : Normalizer}.

(** The engines obtained from [new RouteRecognizer()] by calls of [add]
    (whether they return or throw) and of [handlersFor]. *)
Inductive built : Engine (HV:=HV) → Prop :=
  | built_new : built RouteRecognizer_new
  | built_add e routes as_name :
      built e → built (add e routes as_name).1
  | built_handlersFor e name :
      built e → built (handlersFor e name).1.

(** [name] is registered in [e] with the handler entries [hs]. *)
Definition registered (e : Engine (HV:=HV)) (name : string) (hs : list Handler) : Prop :=
  ∃ route, names_get (registry e) name = IsRoute route
           ∧ arrays e !! route_handlers route = Some hs.

(** The caller stores [xs] in the array at location [l]. *)
Definition store (e : Engine (HV:=HV)) (l : nat) (xs : list Handler) : Engine :=
  {| states := states e; registry := registry e;
     arrays := <[l := xs]> (arrays e) |}.

End reachable.

(* ===================================================================== *)
(** ** Invariants of the engines that the interface can produce *)
(* ===================================================================== *)

(** A score that [parse] can compute: a non-negative integer or
    [Infinity]. *)
Definition is_score (n : Number) : Prop :=
  match n with
  | Num z => (0 <= z)%Z
  | PosInf => True
  | _ => False
  end.

(** [x < y] *)
Definition num_lt (x y : Number) : Prop :=
  match x, y with
  | Num a, Num b => (a < b)%Z
  | Num _, PosInf => True
  | NegInf, Num _ => True
  | NegInf, PosInf => True
  | _, _ => False
  end.

Section invariants.
Context {HV : Type}.
Implicit Types (sts : list State) (e : Engine (HV:=HV)).

Definition is_slash (spec : CharSpec) : Prop :=
  validChars spec = Some "/" ∧ invalidChars spec = None ∧ repeat spec = false.

(** The specs that [add] puts: a set of valid characters that does not
    repeat, or a set of invalid characters that repeats. *)
Definition proper (spec : CharSpec) : Prop :=
  (is_Some (validChars spec) ∧ invalidChars spec = None ∧ repeat spec = false)
  ∨ (validChars spec = None ∧ is_Some (invalidChars spec) ∧ repeat spec = true).

(** The shape of the arena: the root has no [charSpec] and is not
    accepting; its only child is state 1, reached by [/]; every other
    state has a [charSpec] and children among the states from 2 on; a state
    whose [charSpec] repeats is its own child; only state 1 can be
    accepting without a score (after [add([])]). *)
Record wf_states sts : Prop := {
  wf_root : ∃ r, sts !! 0 = Some r ∧ accepting r = None ∧ charSpec r = None;
  wf_root_leaf : ∀ r, sts !! 0 = Some r → nextStates r = [] → length sts = 1;
  wf_first : ∀ r, sts !! 0 = Some r → nextStates r ≠ [] →
             ∃ s cs, sts !! 1 = Some s ∧ charSpec s = Some cs ∧ is_slash cs;
  wf_children : ∀ i s c, sts !! i = Some s → c ∈ nextStates s →
                c < length sts ∧ (if decide (i = 0) then c = 1 else 2 ≤ c);
  wf_spec : ∀ i s, sts !! i = Some s → 1 ≤ i → is_Some (charSpec s);
  wf_loop : ∀ i s cs, sts !! i = Some s → charSpec s = Some cs →
            proper cs ∧ (repeat cs = true → i ∈ nextStates s);
  wf_score : ∀ i s acc, sts !! i = Some s → accepting s = Some acc →
             match specificity acc with
             | Some n => is_score n
             | None => i = 1
             end
}.

Record wf e : Prop := {
  wf_arena : wf_states (states e);
  wf_handlers : ∀ i s acc, states e !! i = Some s → accepting s = Some acc →
                handlers acc < length (arrays e);
  wf_own : own (registry e) !! "__proto__" = None;
  wf_routes : ∀ name route, names_get (registry e) name = IsRoute route →
              route_handlers route < length (arrays e)
}.

End invariants.

(** The states after a [put] that makes a new state. *)
Definition put_new sts cur spec : list State :=
  let n := length sts in
  let sts' := alter (push_child n) cur sts ++ [State_new (Some spec)] in
  if repeat spec then alter (push_child n) n sts' else sts'.

(* ===================================================================== *)
(** ** The specificity of the spec *)
(* ===================================================================== *)

(** The digit of a segment by its kind. *)
Definition kind_digit (s : Segment) : Z :=
  match s with
  | StarSegment _ => 1
  | EpsilonSegment => 2
  | DynamicSegment _ => 3
  | StaticSegment _ => 4
  end.

(** The integer whose decimal digits are the digits of the segments, left
    to right. *)
Definition digits_value (segs : list Segment) : Z :=
  foldl (λ acc s, 10 * acc + kind_digit s)%Z 0%Z segs.

Section add_loop.
Context {HV : Type}.

(** What the loops of [add] maintain. *)
Record loop_inv (a : AddLoop (HV:=HV)) : Prop := {
  inv_wf : wf_states (loop_states a);
  inv_cur : currentState a < length (loop_states a);
  inv_moved : isEmpty a = false → 1 ≤ currentState a;
  inv_root : isEmpty a = true → currentState a = 0;
  inv_val : ∀ n, loop_val a = Some n → is_score n
}.

(** The accepting states of [sts'] are accepting states of [sts]. *)
Definition acc_preserved (sts sts' : list State) : Prop :=
  ∀ i s' acc, sts' !! i = Some s' → accepting s' = Some acc →
              ∃ s, sts !! i = Some s ∧ accepting s = Some acc.

(** The entry of [handlers] that [add] makes for a route. *)
Definition handler_of (route : Route (HV:=HV)) (p : Parsed) : Handler :=
  {| handler := route_handler route; names := parsed_names p;
     shouldDecodes := parsed_shouldDecodes p |}.

End add_loop.

(** The fields that the inner loop leaves alone. *)
Definition same_batch {HV : Type} (a a' : AddLoop (HV:=HV)) : Prop :=
  loop_val a' = loop_val a ∧ loop_handlers a' = loop_handlers a
  ∧ allSegments a' = allSegments a.

(* ===================================================================== *)
(** ** Concrete routes and engines, for the examples *)
(* ===================================================================== *)

(** A route whose handler is a name. *)
Definition route (p h : string) : Route (HV:=string) :=
  {| path := p; route_handler := h |}.

(** A batch of a static route (score 4) and a dynamic route (score 3). *)
Definition two_class_batch : list (Route (HV:=string)) :=
  [ route "/posts" "posts"; route "/:id" "post" ].

(** A pattern of seventeen Star segments. *)
Definition seventeen_stars : string :=
  "/*a/*b/*c/*d/*e/*f/*g/*h/*i/*j/*k/*l/*m/*n/*o/*p/*q".

(** [/posts/:id] named [post], [/posts/new], and [/files/*path] named
    [files], registered one after the other. *)
Definition posts_engine : Engine (HV:=string) :=
  let e := (add RouteRecognizer_new [route "/posts/:id" "showPost"] (Some "post")).1 in
  let e := (add e [route "/posts/new" "newPost"] None).1 in
  (add e [route "/files/*path" "files"] (Some "files")).1.

(* ===================================================================== *)
(** ** The pairs of a query string, as the spec describes them *)
(* ===================================================================== *)

Section query_pairs.
Context {BI : Builtins}.









End query_pairs.

(** [/files/*path] alone. *)
Definition files_engine : Engine (HV:=string) :=
  (add RouteRecognizer_new [route "/files/*path" "files"] (Some "files")).1.

(** [/a$b] alone: a static segment that holds a [$]. *)
Definition dollar_engine : Engine (HV:=string) :=
  (add RouteRecognizer_new [route "/a$b" "h"] None).1.

(** [/*path] alone. *)
Definition star_engine : Engine (HV:=string) :=
  (add RouteRecognizer_new [route "/*path" "h"] None).1.

(** The path [/a], a line feed, [b]. *)
Definition newline_path : string := "/a" +:+ String "010" "b".

(* ===================================================================== *)
(** ** Runs of the automaton *)
(* ===================================================================== *)

(** Whether an edge with this [charSpec] takes the character. *)
Definition spec_takes (spec : CharSpec) (ch : ascii) : bool :=
  match validChars spec with
  | Some chars => mem_char ch chars
  | None =>
      match invalidChars spec with
      | Some chars => negb (mem_char ch chars)
      | None => false
      end
  end.

(** [reaches sts i w j]: the automaton can go from state [i] to state [j]
    along the characters of [w]. *)
Inductive reaches (sts : list State) : nat → string → nat → Prop :=
  | reaches_nil i : reaches sts i "" i
  | reaches_step i ch x r j :
      x ∈ State_match sts i ch → reaches sts x r j →
      reaches sts i (String ch r) j.

(** [sts'] has the states of [sts], with the same [charSpec] and at least
    the same children. *)
Definition extends (sts sts' : list State) : Prop :=
  ∀ i s, sts !! i = Some s →
         ∃ s', sts' !! i = Some s' ∧ charSpec s' = charSpec s
               ∧ nextStates s ⊆ nextStates s'.

(** The segments that are not [EpsilonSegment]. *)
Definition solid (segs : list Segment) : list Segment :=
  filter (λ s, is_Epsilon s = false) segs.

(** The path that spells the pieces [us], each after a [/]. *)
Definition spell (us : list string) : string :=
  concat_str ((λ u, "/" +:+ u) <$> us).


(** The source that [add] builds for the segments of a batch, between
    [^] and [$]. *)
Definition pattern (segs : list Segment) : string :=
  concat_str ((λ s, "/" +:+ Segment_regex s) <$> solid segs).


(** What [RegExp_new] reads in the escaped text of a static segment. *)
Definition char_item (c : ascii) : RItem :=
  if Ascii.eqb c "^" then RStart
  else if Ascii.eqb c "$" then REnd
  else RChar c.

(** What [RegExp_new] reads in [/] followed by the fragment of a
    segment. *)
Definition seg_items (s : Segment) : list RItem :=
  RChar "/" ::
  match s with
  | StaticSegment string => char_item <$> list_ascii_of_string string
  | DynamicSegment _ => [RGroup NotSlash]
  | StarSegment _ => [RGroup AnyChar]
  | EpsilonSegment => []
  end.

(** Star segments stand only in the last place. *)
Fixpoint stars_last (segs : list Segment) : Prop :=
  match segs with
  | [] => True
  | StarSegment _ :: rest => rest = []
  | _ :: rest => stars_last rest
  end.

(** The strings that the fragment of a segment matches without
    ambiguity. *)
Definition matches_seg (seg : Segment) (w : string) : Prop :=
  match seg with
  | StaticSegment s =>
      w = s ∧ mem_char "^" s = false ∧ mem_char "$" s = false
  | DynamicSegment _ => w ≠ "" ∧ mem_char "/" w = false
  | StarSegment _ =>
      w ≠ "" ∧ mem_char "010" w = false ∧ mem_char "013" w = false
  | EpsilonSegment => False
  end.

(** The captures of a match: the strings of the Dynamic and Star
    segments. *)
Fixpoint captures_of (segs : list Segment) (ws : list string) : list string :=
  match segs, ws with
  | StaticSegment _ :: segs', _ :: ws' => captures_of segs' ws'
  | (DynamicSegment _ | StarSegment _) :: segs', w :: ws' =>
      w :: captures_of segs' ws'
  | _, _ => []
  end.

(** The names of the Dynamic and Star segments, in order. *)
Definition segment_names (segs : list Segment) : list string :=
  omap (λ s, match s with
             | DynamicSegment n | StarSegment n => Some n
             | _ => None
             end) segs.


(** The path that [generate] returns when it has written the pieces
    [ws]: a lone [/] when there is none. *)
Definition route_path (ws : list string) : string :=
  match ws with [] => "/" | _ => spell ws end.



(** A result of [recognize] with [queryParams] replaced. *)
Definition with_query {HV : Type} (q : gmap string qvalue)
  (res : RecognizeResults (HV:=HV)) : RecognizeResults (HV:=HV) :=
  {| entries := entries res; result_queryParams := q |}.

(** The texts of the Static segments, in order. *)
Definition static_texts (segs : list Segment) : list string :=
  omap (λ s, match s with StaticSegment t => Some t | _ => None end) segs.

(** The engines that the interface produces without a call of [add] whose
    [as] option is [name] or [__proto__]. *)
Inductive never_named {HV : Type} {BI : Builtins} {NO : Normalizer}
  (name : string) : Engine (HV:=HV) → Prop :=
  | never_new : never_named name RouteRecognizer_new
  | never_add e routes as_name :
      never_named name e → as_name ≠ Some name → as_name ≠ Some "__proto__" →
      never_named name (add e routes as_name).1
  | never_handlersFor e n :
      never_named name e → never_named name (handlersFor e n).1.

(** [sts'] has the states of [sts], accepting as they were. *)
Definition keeps (sts sts' : list State) : Prop :=
  ∀ i s, sts !! i = Some s →
         ∃ s', sts' !! i = Some s' ∧ accepting s' = accepting s.


(* ===================================================================== *)
(** * The older [Router]

    The first unit of [src/lib/router.js]: three kinds of segment, no
    normalization of the route, a score [types] made of three counters,
    and the interface [add] and [recognize].  The automaton is an arena
    as above; a [Router] is its list of states, [rootState] at index 0. *)
(* ===================================================================== *)

(** [a.sort(cmp)] for a comparator that can throw: the comparator is
    called on the pairs that the insertion of each element from the right
    compares, so that every element of an array of two or more is
    compared at least once, and the first exception ends the sort. *)
Section sort_throwing.
Context {A : Type} (cmp : A → A → result Z).

Fixpoint sort_insert_r (x : A) (l : list A) : result (list A) :=
  match l with
  | [] => Ok [x]
  | y :: l' =>
      c ← cmp x y;
      if (c <=? 0)%Z then Ok (x :: y :: l') else cons y <$> sort_insert_r x l'
  end.

Fixpoint js_sort_r (l : list A) : result (list A) :=
  match l with
  | [] => Ok []
  | x :: l' => s ← js_sort_r l'; sort_insert_r x s
  end.

End sort_throwing.

Module Router.
Section router.
Context {EP : Type}.

Inductive Segment : Type :=
  | StaticSegment (string : string)
  | DynamicSegment (name : string)
  | StarSegment (name : string).

(** The [charSpec]s that [segment.eachChar(callback)] hands to the
    callback, in order; a [repeat] that is not given is falsy. *)
Definition eachChar (s : Segment) : list CharSpec :=
  match s with
  | StaticSegment string =>
      (λ char, {| validChars := Some (chr char); invalidChars := None;
                  repeat := false |}) <$> list_ascii_of_string string
  | DynamicSegment _ =>
      [ {| validChars := None; invalidChars := Some "/"; repeat := true |} ]
  | StarSegment _ =>
      [ {| validChars := None; invalidChars := Some ""; repeat := true |} ]
  end.

(** [segment.regex()] *)
Definition Segment_regex (s : Segment) : string :=
  match s with
  | StaticSegment string => escape string
  | DynamicSegment _ => "([^/]+)"
  | StarSegment _ => "(.+)"
  end.

(** [types]: how many static, dynamic and star segments. *)
Record Types : Type := {
  statics : nat;
  dynamics : nat;
  stars : nat
}.

(** The loop of [parse]: the segments, the names pushed on [handler] and
    [types] after the increments. *)
Fixpoint parse_segments (segments : list string) (types : Types)
  : list Segment * list string * Types :=
  match segments with
  | [] => ([], [], types)
  | segment :: rest =>
      match capture_after ":" segment with
      | Some name =>
          let '(rs, ns, t) :=
            parse_segments rest
              {| statics := statics types; dynamics := S (dynamics types);
                 stars := stars types |} in
          (DynamicSegment name :: rs, name :: ns, t)
      | None =>
          match capture_after "*" segment with
          | Some name =>
              let '(rs, ns, t) :=
                parse_segments rest
                  {| statics := statics types; dynamics := dynamics types;
                     stars := S (stars types) |} in
              (StarSegment name :: rs, name :: ns, t)
          | None =>
              let '(rs, ns, t) :=
                parse_segments rest
                  {| statics := S (statics types); dynamics := dynamics types;
                     stars := stars types |} in
              (StaticSegment segment :: rs, ns, t)
          end
      end
  end.

(** [parse(route, handler, types)] for an empty [handler] *)
Definition parse (route : string) (types : Types)
  : list Segment * list string * Types :=
  let route := if starts_with_char "/" route then substr1 route else route in
  parse_segments (split "/" route) types.

Record Endpoint : Type := {
  endpoint : EP;
  names : list string
}.

(** [endpoints], [regex] and [types] are assigned together at the end of
    [add]: the model keeps them in one optional record. *)
Record Accepting : Type := {
  endpoints : list Endpoint;
  regex : RegExp;
  types : Types
}.

Record State : Type := {
  charSpec : option CharSpec;
  nextStates : list nat;
  accepting : option Accepting
}.

(** [new State(charSpec)] *)
Definition State_new (spec : option CharSpec) : State :=
  {| charSpec := spec; nextStates := []; accepting := None |}.

(** Whether the state at index [c] has a [charSpec] with the same
    [validChars] and [invalidChars] as [spec]. *)
Definition has_spec (sts : list State) (spec : CharSpec) (c : nat) : bool :=
  match sts !! c ≫= charSpec with
  | Some cs => isEqualCharSpec cs spec
  | None => false
  end.

(** [state.get(charSpec)] for the state at index [cur] *)
Definition State_get (sts : list State) (cur : nat) (spec : CharSpec) : option nat :=
  s ← sts !! cur; List.find (has_spec sts spec) (nextStates s).

Definition push_child (n : nat) (s : State) : State :=
  {| charSpec := charSpec s; nextStates := nextStates s ++ [n];
     accepting := accepting s |}.

(** [state.put(charSpec)]: the states after the call and the index
    returned. *)
Definition State_put (sts : list State) (cur : nat) (spec : CharSpec)
  : list State * nat :=
  match State_get sts cur spec with
  | Some c => (sts, c)
  | None =>
      let n := length sts in
      let state := State_new (Some spec) in
      let sts := alter (push_child n) cur sts ++ [state] in
      let sts := if repeat spec then alter (push_child n) n sts else sts in
      (sts, n)
  end.

(** The value of [chars = ...] as a condition: a string that is not empty. *)
Definition truthy (chars : option string) : option string :=
  match chars with
  | Some "" | None => None
  | Some s => Some s
  end.

(** Whether [match] pushes the state at index [c] for the character. *)
Definition takes (sts : list State) (char : ascii) (c : nat) : bool :=
  match sts !! c ≫= charSpec with
  | Some cs =>
      match truthy (validChars cs) with
      | Some chars => mem_char char chars
      | None =>
          match truthy (invalidChars cs) with
          | Some chars => negb (mem_char char chars)
          | None => false
          end
      end
  | None => false
  end.

(** [state.match(char)] *)
Definition State_match (sts : list State) (cur : nat) (char : ascii) : list nat :=
  match sts !! cur with
  | Some s => filter (λ c, takes sts char c = true) (nextStates s)
  | None => []
  end.

(** The comparator of [sortSolutions] on two [types]. *)
Definition compare_types (a b : Types) : Z :=
  if negb (stars a =? stars b)%nat then Z.of_nat (stars a) - Z.of_nat (stars b)
  else if negb (dynamics a =? dynamics b)%nat
       then Z.of_nat (dynamics a) - Z.of_nat (dynamics b)
  else if negb (statics a =? statics b)%nat
       then Z.of_nat (statics a) - Z.of_nat (statics b)
  else 0.

(** [a.types]: reading a member of it throws when the state has none. *)
Definition types_of (sts : list State) (a : nat) : result Types :=
  match sts !! a ≫= accepting with
  | Some acc => Ok (types acc)
  | None => Throw TypeError
  end.

(** [sortSolutions(states)] *)
Definition sortSolutions (sts : list State) (states : list nat) : result (list nat) :=
  js_sort_r (λ a b, ta ← types_of sts a; tb ← types_of sts b;
                    Ok (compare_types ta tb)) states.

(** [recognizeChar(states, char)] *)
Definition recognizeChar (sts : list State) (states : list nat) (char : ascii)
  : list nat :=
  foldl (λ nextStates state, nextStates ++ State_match sts state char) [] states.

Record ResultEntry : Type := {
  entry_endpoint : EP;
  params : gmap string value
}.

(** The inner loop of [endpoint]: capture [k] is at index [k - 1]. *)
Fixpoint read_names (captures : option (list string)) (names : list string)
  (currentCapture : nat) (params : gmap string value)
  : result (gmap string value * nat) :=
  match names with
  | [] => Ok (params, currentCapture)
  | name :: names' =>
      match captures with
      | None => Throw TypeError
      | Some caps =>
          let capture :=
            match caps !! (currentCapture - 1)%nat with
            | Some s => str s
            | None => undefined
            end in
          read_names captures names' (S currentCapture)
            (proto_set params name capture)
      end
  end.

Fixpoint read_endpoints (captures : option (list string)) (es : list Endpoint)
  (currentCapture : nat) : result (list ResultEntry) :=
  match es with
  | [] => Ok []
  | e :: rest =>
      '(params, next) ← read_names captures (names e) currentCapture ∅;
      cons {| entry_endpoint := endpoint e; params := params |}
        <$> read_endpoints captures rest next
  end.

(** [endpoint(state, path)] *)
Definition endpoint_of (acc : Accepting) (path : string) : result (list ResultEntry) :=
  read_endpoints (regex_match (regex acc) path) (endpoints acc) 1.

(** [addSegment(currentState, segment)] *)
Definition addSegment (sts : list State) (currentState : nat) (segment : Segment)
  : list State * nat :=
  foldl (λ '(sts, cur) char, State_put sts cur char) (sts, currentState)
    (eachChar segment).

Record Route : Type := {
  path : string;
  route_endpoint : EP
}.

Definition rootState : nat := 0.

(** [new Router()] *)
Definition new : list State := [State_new None].

(** The locals of [add] that its loops update. *)
Record AddLoop : Type := {
  loop_states : list State;
  currentState : nat;
  loop_regex : string;
  loop_types : Types;
  loop_endpoints : list Endpoint
}.

(** The body of the inner loop of [add]. *)
Definition add_segment (a : AddLoop) (segment : Segment) : AddLoop :=
  let '(sts, cur) :=
    State_put (loop_states a) (currentState a)
      {| validChars := Some "/"; invalidChars := None; repeat := false |} in
  let regex := loop_regex a +:+ "/" in
  let '(sts, cur) := addSegment sts cur segment in
  let regex := regex +:+ Segment_regex segment in
  {| loop_states := sts; currentState := cur; loop_regex := regex;
     loop_types := loop_types a; loop_endpoints := loop_endpoints a |}.

(** The body of the outer loop of [add]. *)
Definition add_route (a : AddLoop) (route : Route) : AddLoop :=
  let '(segments, names, types) := parse (path route) (loop_types a) in
  let a := foldl add_segment
             {| loop_states := loop_states a; currentState := currentState a;
                loop_regex := loop_regex a; loop_types := types;
                loop_endpoints := loop_endpoints a |} segments in
  {| loop_states := loop_states a; currentState := currentState a;
     loop_regex := loop_regex a; loop_types := loop_types a;
     loop_endpoints :=
       loop_endpoints a ++ [{| endpoint := route_endpoint route; names := names |}] |}.

Definition set_accepting (acc : Accepting) (s : State) : State :=
  {| charSpec := charSpec s; nextStates := nextStates s; accepting := Some acc |}.

(** [add(routes)]: the states after the call and the index of the state
    that was made accepting.  Were [new RegExp] to throw, the call would
    end there. *)
Definition add (sts : list State) (routes : list Route) : list State * result nat :=
  let a := foldl add_route
             {| loop_states := sts; currentState := rootState; loop_regex := "^";
                loop_types := {| statics := 0; dynamics := 0; stars := 0 |};
                loop_endpoints := [] |} routes in
  match RegExp_new (loop_regex a +:+ "$") with
  | Throw ex => (loop_states a, Throw ex)
  | Ok re =>
      (alter (set_accepting {| endpoints := loop_endpoints a; regex := re;
                               types := loop_types a |})
         (currentState a) (loop_states a),
       Ok (currentState a))
  end.

(** The loop of [recognize] over the characters of the path. *)
Fixpoint walk (sts : list State) (states : list nat) (path : string) : list nat :=
  match path with
  | "" => states
  | String char r =>
      match recognizeChar sts states char with
      | [] => []
      | next => walk sts next r
      end
  end.

(** The states that [recognize] hands to [sortSolutions]. *)
Definition frontier (sts : list State) (path : string) : list nat :=
  walk sts [rootState]
    (if starts_with_char "/" path then path else "/" +:+ path).

(** [recognize(path)]; [None] is [undefined]. *)
Definition recognize (sts : list State) (path : string)
  : result (option (list ResultEntry)) :=
  let path := if starts_with_char "/" path then path else "/" +:+ path in
  states ← sortSolutions sts (walk sts [rootState] path);
  match head states ≫= λ i, sts !! i ≫= accepting with
  | Some acc => Some <$> endpoint_of acc path
  | None => Ok None
  end.

End router.
End Router.

(** The state at index [c] has the [charSpec] of a Star segment. *)
Definition star_spec {EP : Type} (sts : list (Router.State (EP:=EP))) (c : nat) : Prop :=
  ∃ cs, sts !! c ≫= Router.charSpec = Some cs
        ∧ validChars cs = None ∧ invalidChars cs = Some "".

(** [a] comes before [b], or with it, in the order of [Router.sortSolutions]:
    fewer stars, then fewer dynamics, then fewer statics. *)
Definition types_le (a b : Router.Types) : Prop :=
  Router.stars a < Router.stars b
  ∨ (Router.stars a = Router.stars b
     ∧ (Router.dynamics a < Router.dynamics b
        ∨ (Router.dynamics a = Router.dynamics b
           ∧ Router.statics a ≤ Router.statics b))).

(** A route of the older [Router] whose endpoint is a name. *)
Definition old_route (p h : string) : Router.Route (EP:=string) :=
  {| Router.path := p; Router.route_endpoint := h |}.

(** [/ab], then [/:x]. *)
Definition ab_router : list (Router.State (EP:=string)) :=
  (Router.add (Router.add Router.new [old_route "/ab" "ab"]).1
     [old_route "/:x" "x"]).1.

(** [/posts/:id], then [/posts/new]. *)
Definition posts_router : list (Router.State (EP:=string)) :=
  (Router.add (Router.add Router.new [old_route "/posts/:id" "showPost"]).1
     [old_route "/posts/new" "newPost"]).1.

(** A piece of source after which [RegExp_new] reads on. *)
Definition reads_on (x : string) : Prop :=
  ∀ rest, is_Some (parse_pattern rest) → is_Some (parse_pattern (x +:+ rest)).

(** [w] is the piece that [generate] writes for [seg] from the values [V]
    when [ENCODE_AND_DECODE_PATH_SEGMENTS] is off: nothing is encoded. *)
Definition renders_raw (V : gmap string string) (seg : Segment) (w : string) : Prop :=
  match seg with
  | StaticSegment s => w = s
  | DynamicSegment n | StarSegment n => V !! n = Some w
  | EpsilonSegment => False
  end.


(** *** The automaton of a new [Router] after one [add]

    Every [put] of the first [add] on a new [Router] makes a state: the
    automaton is a chain, state [i + 1] being the only child of state [i]
    besides [i] itself where its [charSpec] repeats. *)

(** The [charSpec] of [/]. *)
Definition old_slash : CharSpec :=
  {| validChars := Some "/"; invalidChars := None; repeat := false |}.

(** The [charSpec]s that [Router.add] puts for the segments, in order. *)
Definition Router_specs (segs : list Router.Segment) : list CharSpec :=
  segs ≫= λ seg, old_slash :: Router.eachChar seg.

Definition chain_state {EP : Type} (specs : list CharSpec) (i : nat)
  : Router.State (EP:=EP) :=
  {| Router.charSpec := match i with 0 => None | S k => specs !! k end;
     Router.nextStates :=
       match i with
       | S k => if default false (repeat <$> specs !! k) then [i] else []
       | 0 => []
       end ++ (if decide (i < length specs) then [S i] else []);
     Router.accepting := None |}.

Definition chain {EP : Type} (specs : list CharSpec) : list (Router.State (EP:=EP)) :=
  chain_state specs <$> seq 0 (S (length specs)).

(** No [charSpec] that repeats is followed by one with the same
    [validChars] and [invalidChars]. *)
Fixpoint no_stutter (l : list CharSpec) : Prop :=
  match l with
  | a :: (b :: _) as r =>
      (repeat a = true → isEqualCharSpec a b = false) ∧ no_stutter r
  | _ => True
  end.

(** Whether [Router.State.match] pushes a state with this [charSpec]. *)
Definition old_spec_takes (spec : CharSpec) (char : ascii) : bool :=
  match Router.truthy (validChars spec) with
  | Some chars => mem_char char chars
  | None =>
      match Router.truthy (invalidChars spec) with
      | Some chars => negb (mem_char char chars)
      | None => false
      end
  end.

(** The segment of the recognizer above with the same [regex]. *)
Definition as_segment (seg : Router.Segment) : Segment :=
  match seg with
  | Router.StaticSegment s => StaticSegment s
  | Router.DynamicSegment n => DynamicSegment n
  | Router.StarSegment n => StarSegment n
  end.

(** The segments that the older [Router] recognizes: not the Star ones. *)
Definition old_matches (seg : Router.Segment) (w : string) : Prop :=
  match seg with
  | Router.StarSegment _ => False
  | _ => matches_seg (as_segment seg) w
  end.

(* ===================================================================== *)
(** * Properties *)
(* ===================================================================== *)

(** ** The sort *)

Section sort_facts.
Context {A : Type} (cmp : A → A → Z).

Lemma sort_insert_perm x l : sort_insert cmp x l ≡ₚ x :: l.
Proof.
  induction l as [|y l IH]; simpl; [done|].
  destruct (cmp x y <=? 0)%Z; [done|].
  rewrite IH. apply Permutation_swap.
Qed.

Lemma js_sort_perm l : js_sort cmp l ≡ₚ l.
Proof.
  induction l as [|x l IH]; simpl; [done|].
  rewrite sort_insert_perm. by f_equiv.
Qed.

Lemma js_sort_elem x l : x ∈ js_sort cmp l ↔ x ∈ l.
Proof. by rewrite js_sort_perm. Qed.

(** A comparator that, on the elements that satisfy [P], decides a total
    preorder [R]: the head of the sorted list is a least element. *)
Context (P : A → Prop) (R : A → A → Prop).
Hypothesis R_trans : ∀ a b c, P a → P b → P c → R a b → R b c → R a c.
Hypothesis R_total : ∀ a b, P a → P b → R a b ∨ R b a.
Hypothesis cmp_R : ∀ a b, P a → P b → ((cmp a b <= 0)%Z ↔ R a b).

Lemma R_refl a : P a → R a a.
Proof. intros Pa. by destruct (R_total a a). Qed.

Lemma sort_insert_head x l h :
  P x → Forall P l →
  head (sort_insert cmp x l) = Some h →
  (∀ m, head l = Some m → ∀ y, y ∈ l → R m y) →
  ∀ y, y ∈ x :: l → R h y.
Proof.
  intros Px Pl. destruct l as [|z l]; simpl.
  - intros [= <-] _ y ->%list_elem_of_singleton. by apply R_refl.
  - intros Hh Hm y Hy. specialize (Hm z eq_refl).
    apply Forall_cons in Pl as [Pz Pl].
    assert (Py : P y).
    { apply elem_of_cons in Hy as [->|Hy]; [done|].
      apply elem_of_cons in Hy as [->|Hy]; [done|].
      by eapply Forall_forall in Pl. }
    destruct (Z.leb_spec (cmp x z) 0) as [Hc|Hc]; simpl in Hh;
      injection Hh as <-.
    + apply cmp_R in Hc; [|done..].
      apply elem_of_cons in Hy as [->|Hy]; [by apply R_refl|].
      apply (R_trans x z y); auto.
    + assert (R z x).
      { destruct (R_total x z) as [Hle|?]; [done..| |done].
        apply cmp_R in Hle; [lia|done..]. }
      apply elem_of_cons in Hy as [->|Hy]; [done|]. by apply Hm.
Qed.

Lemma js_sort_head l h :
  Forall P l →
  head (js_sort cmp l) = Some h → ∀ y, y ∈ l → R h y.
Proof.
  revert h. induction l as [|x l IH]; intros h Pl; simpl; [done|].
  apply Forall_cons in Pl as [Px Pl].
  intros Hh y Hy.
  assert (Ps : Forall P (js_sort cmp l)).
  { rewrite Forall_forall in Pl. rewrite Forall_forall.
    intros z Hz. apply Pl. by apply (proj1 (js_sort_elem z l)). }
  apply (sort_insert_head x (js_sort cmp l) h Px Ps Hh).
  - intros m Hm y' Hy'. apply IH; [done..|]. by apply js_sort_elem.
  - apply elem_of_cons in Hy as [->|Hy]; [left|right]. by apply js_sort_elem.
Qed.

End sort_facts.

(** ** Query strings: generation *)

Section query_generation.
Context {BI : Builtins}.





End query_generation.


(** C6: the code at the failing input.  The key of a sequence entry goes
    into its pairs as it is, while the key of a scalar entry is
    percent-encoded. *)
Theorem C6_array_key_not_encoded :
  generateQueryString {[ "a b" := QArr ["1"; "x y"] ]} = "?a b[]=1&a b[]=x%20y"
  ∧ generateQueryString {[ "a b" := QStr "x y" ]} = "?a%20b=x%20y".
Proof. split; vm_compute; reflexivity. Qed.

(** ** The names registry *)

Section names.
Context {HV : Type} {BI : Builtins} {NO : Normalizer}.
Implicit Types (e : Engine (HV:=HV)) (hs : list (Handler (HV:=HV))).

Lemma handlersFor_registered e name hs :
  registered e name hs →
  handlersFor e name =
    ({| states := states e; registry := registry e; arrays := arrays e ++ [hs] |},
     Ok (length (arrays e))).
Proof. intros (route & Hget & Harr). unfold handlersFor. by rewrite Hget, Harr. Qed.

Lemma registered_store e name hs ys xs :
  registered e name hs →
  registered
    (store {| states := states e; registry := registry e;
              arrays := arrays e ++ [ys] |} (length (arrays e)) xs) name hs.
Proof.
  intros (route & Hget & Harr). exists route. split; [done|]. simpl.
  pose proof (lookup_lt_Some _ _ _ Harr).
  rewrite list_lookup_insert_ne by lia. by apply lookup_app_l_Some.
Qed.

(** C10: for a registered name, [handlersFor] returns an array at a
    location that the engine did not use before, holding the registered
    handler entries, and leaves the states and the registry as they are.
    Whatever the caller then stores in the returned array, the name is still
    registered with the same entries, and a second [handlersFor] returns
    these entries in the same order. *)
Theorem C10_handlersFor_fresh_array e name hs :
  registered e name hs →
  let l := length (arrays e) in
  ∃ e1,
    handlersFor e name = (e1, Ok l)
    ∧ arrays e !! l = None
    ∧ arrays e1 !! l = Some hs
    ∧ states e1 = states e
    ∧ registry e1 = registry e
    ∧ ∀ xs,
        registered (store e1 l xs) name hs
        ∧ ∃ e2 l2, handlersFor (store e1 l xs) name = (e2, Ok l2)
                   ∧ arrays e2 !! l2 = Some hs.
Proof.
  intros Hreg l. eexists. split; [by apply handlersFor_registered|].
  split; [by apply lookup_ge_None_2|].
  split; [simpl; by rewrite lookup_app_r, Nat.sub_diag by done|].
  do 2 (split; [done|]).
  intros xs.
  assert (Hreg' : registered
            (store {| states := states e; registry := registry e;
                      arrays := arrays e ++ [hs] |} l xs) name hs).
  { by apply registered_store. }
  split; [done|].
  do 2 eexists. split; [by apply handlersFor_registered|].
  simpl. by rewrite lookup_app_r, Nat.sub_diag by done.
Qed.

End names.

(** ** The automaton *)

Section automaton.
Implicit Types (sts : list State) (spec : CharSpec).

Lemma State_get_Some sts cur spec c :
  State_get sts cur spec = Some c →
  ∃ s, sts !! cur = Some s ∧ c ∈ nextStates s ∧ has_spec sts spec c = true.
Proof.
  unfold State_get. destruct (sts !! cur) as [s|]; simpl; [|done].
  intros [Hin Hs]%find_some. exists s. by rewrite list_elem_of_In.
Qed.

Lemma State_get_None sts cur spec s c :
  State_get sts cur spec = None → sts !! cur = Some s → c ∈ nextStates s →
  has_spec sts spec c = false.
Proof.
  unfold State_get. intros Hg Hs Hc. rewrite Hs in Hg. simpl in Hg.
  apply list_elem_of_In in Hc.
  by apply (find_none _ _ Hg).
Qed.

Lemma State_put_unfold sts cur spec :
  State_put sts cur spec =
    match State_get sts cur spec with
    | Some c => (sts, c)
    | None => (put_new sts cur spec, length sts)
    end.
Proof. unfold State_put, put_new. by destruct (State_get sts cur spec). Qed.

Lemma put_new_length sts cur spec : length (put_new sts cur spec) = S (length sts).
Proof.
  unfold put_new. destruct (repeat spec);
    rewrite ?length_alter, length_app, length_alter; simpl; lia.
Qed.

Lemma put_new_lookup_new sts cur spec :
  put_new sts cur spec !! length sts =
    Some {| charSpec := Some spec;
            nextStates := if repeat spec then [length sts] else [];
            accepting := None |}.
Proof.
  unfold put_new.
  assert (Hl : (alter (push_child (length sts)) cur sts ++ [State_new (Some spec)])
                 !! length sts = Some (State_new (Some spec))).
  { rewrite lookup_app_r by (rewrite length_alter; lia).
    by rewrite length_alter, Nat.sub_diag. }
  destruct (repeat spec); [|done].
  by rewrite list_lookup_alter_eq, Hl.
Qed.

Lemma put_new_lookup_cur sts cur spec s :
  sts !! cur = Some s →
  put_new sts cur spec !! cur = Some (push_child (length sts) s).
Proof.
  intros Hs. pose proof (lookup_lt_Some _ _ _ Hs).
  unfold put_new.
  assert ((alter (push_child (length sts)) cur sts ++ [State_new (Some spec)])
            !! cur = Some (push_child (length sts) s)) as Hl.
  { rewrite lookup_app_l by (rewrite length_alter; lia).
    by rewrite list_lookup_alter_eq, Hs. }
  destruct (repeat spec); [|done].
  by rewrite list_lookup_alter_ne by lia.
Qed.

Lemma put_new_lookup_other sts cur spec i :
  i ≠ cur → i < length sts → put_new sts cur spec !! i = sts !! i.
Proof.
  intros Hne Hlt. unfold put_new.
  assert ((alter (push_child (length sts)) cur sts ++ [State_new (Some spec)])
            !! i = sts !! i) as Hl.
  { rewrite lookup_app_l by (rewrite length_alter; lia).
    by rewrite list_lookup_alter_ne. }
  destruct (repeat spec); [|done].
  by rewrite list_lookup_alter_ne by lia.
Qed.

(** Every state of [put_new] is an old state, maybe with one more child,
    or the new state. *)
Lemma put_new_lookup sts cur spec i s' :
  cur < length sts →
  put_new sts cur spec !! i = Some s' →
  (i < length sts ∧ ∃ s, sts !! i = Some s ∧ charSpec s' = charSpec s
     ∧ accepting s' = accepting s
     ∧ nextStates s' = if decide (i = cur) then nextStates s ++ [length sts]
                       else nextStates s)
  ∨ (i = length sts ∧ charSpec s' = Some spec ∧ accepting s' = None
     ∧ nextStates s' = if repeat spec then [length sts] else []).
Proof.
  intros Hcur Hi.
  pose proof (lookup_lt_Some _ _ _ Hi) as Hlt. rewrite put_new_length in Hlt.
  destruct (decide (i = length sts)) as [->|Hne].
  - right. rewrite put_new_lookup_new in Hi. by injection Hi as <-.
  - left. split; [lia|]. destruct (decide (i = cur)) as [->|Hne'].
    + destruct (lookup_lt_is_Some_2 sts cur Hcur) as [s Hs].
      rewrite (put_new_lookup_cur _ _ _ _ Hs) in Hi. injection Hi as <-.
      by exists s.
    + rewrite put_new_lookup_other in Hi by lia. by exists s'.
Qed.

End automaton.
Section arena_invariant.
Implicit Types (sts : list State) (spec : CharSpec).

Lemma has_spec_slash sts s cs spec c :
  sts !! c = Some s → charSpec s = Some cs → is_slash cs → is_slash spec →
  has_spec sts spec c = true.
Proof.
  intros Hs Hcs (Hv & Hi & _) (Hv' & Hi' & _).
  unfold has_spec, isEqualCharSpec. rewrite Hs. simpl. rewrite Hcs.
  rewrite Hv, Hi, Hv', Hi'. by rewrite !bool_decide_eq_true_2.
Qed.

(** A [put] on the root of a well-formed arena with the [/] spec finds
    state 1 when the root has a child. *)
Lemma root_get_None sts spec r :
  wf_states sts → sts !! 0 = Some r → is_slash spec →
  State_get sts 0 spec = None → nextStates r = [].
Proof.
  intros Hwf Hr Hsl Hg.
  destruct (nextStates r) as [|c ns] eqn:Hns; [done|]. exfalso.
  destruct (wf_first _ Hwf r Hr) as (s & cs & Hs & Hcs & Hcsl); [by rewrite Hns|].
  assert (Hc : c ∈ nextStates r) by (rewrite Hns; left).
  destruct (wf_children _ Hwf 0 r c Hr Hc) as [_ Hc1]. simpl in Hc1. subst c.
  pose proof (State_get_None _ _ _ _ _ Hg Hr Hc) as Hn.
  by rewrite (has_spec_slash _ _ _ _ _ Hs Hcs Hcsl Hsl) in Hn.
Qed.

Lemma put_new_wf sts cur spec :
  wf_states sts → cur < length sts → State_get sts cur spec = None →
  (cur = 0 → is_slash spec) → proper spec →
  wf_states (put_new sts cur spec).
Proof.
  intros Hwf Hcur Hg Hroot Hproper.
  destruct (wf_root _ Hwf) as (r & Hr & Hracc & Hrspec).
  assert (Hlen : 1 ≤ length sts) by (apply lookup_lt_Some in Hr; lia).
  assert (Hone : cur = 0 → length sts = 1).
  { intros ->. apply (wf_root_leaf _ Hwf r Hr).
    by apply (root_get_None sts spec r Hwf Hr (Hroot eq_refl)). }
  split.
  - destruct (lookup_lt_is_Some_2 (put_new sts cur spec) 0) as [r' Hr'];
      [rewrite put_new_length; lia|].
    exists r'. split; [done|].
    destruct (put_new_lookup _ _ _ _ _ Hcur Hr')
      as [(_ & s & Hs & Hc & Ha & _)|(? & _)]; [|lia].
    rewrite Hr in Hs. injection Hs as <-. by rewrite Ha, Hc.
  - intros r' Hr' Hnil.
    destruct (put_new_lookup _ _ _ _ _ Hcur Hr')
      as [(_ & s & Hs & _ & _ & Hn)|(? & _)]; [|lia].
    rewrite Hnil in Hn. destruct (decide (0 = cur)) as [<-|Hne].
    + symmetry in Hn. by apply app_eq_nil in Hn as [_ ?].
    + rewrite Hr in Hs. injection Hs as <-.
      pose proof (wf_root_leaf _ Hwf r Hr (eq_sym Hn)). lia.
  - intros r' Hr' Hnn.
    destruct (put_new_lookup _ _ _ _ _ Hcur Hr')
      as [(_ & s & Hs & _ & _ & Hn)|(? & _)]; [|lia].
    rewrite Hr in Hs. injection Hs as <-.
    destruct (nextStates r) as [|c ns] eqn:Hns.
    + destruct (decide (0 = cur)) as [<-|Hne]; [|by rewrite Hn in Hnn].
      rewrite <- (Hone eq_refl), put_new_lookup_new.
      eexists _, spec. split; [done|]. split; [done|]. by apply Hroot.
    + destruct (wf_first _ Hwf r Hr) as (s & cs & Hs & Hcs & Hcsl); [by rewrite Hns|].
      destruct (lookup_lt_is_Some_2 (put_new sts cur spec) 1) as [s' Hs'].
      { rewrite put_new_length. apply lookup_lt_Some in Hs. lia. }
      destruct (put_new_lookup _ _ _ _ _ Hcur Hs')
        as [(_ & s0 & Hs0 & Hc & _)|(Heq & _)].
      * rewrite Hs in Hs0. injection Hs0 as <-.
        exists s', cs. by rewrite Hc.
      * apply lookup_lt_Some in Hs. lia.
  - intros i s' c Hs' Hc. rewrite put_new_length.
    destruct (put_new_lookup _ _ _ _ _ Hcur Hs')
      as [(Hi & s & Hs & _ & _ & Hn)|(-> & _ & _ & Hn)].
    + rewrite Hn in Hc.
      assert (Hold : c ∈ nextStates s →
                c < S (length sts) ∧ (if decide (i = 0) then c = 1 else 2 ≤ c)).
      { intros Hin. destruct (wf_children _ Hwf i s c Hs Hin). split; [lia|done]. }
      destruct (decide (i = cur)) as [->|Hne]; [|by apply Hold].
      apply elem_of_app in Hc as [Hc|Hc%list_elem_of_singleton]; [by apply Hold|].
      subst c. split; [lia|]. destruct (decide (cur = 0)) as [->|]; [by apply Hone|lia].
    + rewrite Hn in Hc. destruct (repeat spec) eqn:Hrep; [|by apply elem_of_nil in Hc].
      apply list_elem_of_singleton in Hc as ->. split; [lia|].
      destruct (decide (length sts = 0)); [lia|].
      destruct (decide (cur = 0)) as [->|]; [|lia].
      destruct (Hroot eq_refl) as (_ & _ & Hf). congruence.
  - intros i s' Hs' Hi.
    destruct (put_new_lookup _ _ _ _ _ Hcur Hs')
      as [(_ & s & Hs & Hc & _)|(_ & Hc & _)]; rewrite Hc; [|done].
    by apply (wf_spec _ Hwf i s).
  - intros i s' cs Hs' Hcs.
    destruct (put_new_lookup _ _ _ _ _ Hcur Hs')
      as [(_ & s & Hs & Hc & _ & Hn)|(-> & Hc & _ & Hn)].
    + rewrite Hc in Hcs. destruct (wf_loop _ Hwf i s cs Hs Hcs) as [Hp Hself].
      split; [done|]. intros Hrep. rewrite Hn.
      destruct (decide (i = cur)); [apply elem_of_app; left|]; by apply Hself.
    + rewrite Hc in Hcs. injection Hcs as <-. split; [done|].
      intros Hrep. rewrite Hn, Hrep. left.
  - intros i s' acc Hs' Hacc.
    destruct (put_new_lookup _ _ _ _ _ Hcur Hs')
      as [(_ & s & Hs & _ & Ha & _)|(_ & _ & Ha & _)]; [|congruence].
    rewrite Ha in Hacc. by apply (wf_score _ Hwf i s acc).
Qed.

(** [put] keeps the arena well formed and returns a state that is not the
    root. *)
Lemma State_put_wf sts cur spec sts' c :
  wf_states sts → cur < length sts → (cur = 0 → is_slash spec) → proper spec →
  State_put sts cur spec = (sts', c) →
  wf_states sts' ∧ 1 ≤ c < length sts' ∧ length sts ≤ length sts'.
Proof.
  intros Hwf Hcur Hroot Hproper. rewrite State_put_unfold.
  destruct (State_get sts cur spec) as [c'|] eqn:Hg; intros [= <- <-].
  - split; [done|]. split; [|done].
    apply State_get_Some in Hg as (s & Hs & Hin & _).
    destruct (wf_children _ Hwf cur s c' Hs Hin) as [? Hc].
    split; [|done]. destruct (decide (cur = 0)); lia.
  - split; [by apply put_new_wf|]. rewrite put_new_length. lia.
Qed.

End arena_invariant.

(** ** Numbers *)

Section numbers.
Local Open Scope Z_scope.

Lemma round_pos_exact n : 0 < n → n < 2 ^ 53 → round_pos n = Num n.
Proof.
  intros Hpos Hlt. unfold round_pos.
  assert (Z.log2 n < 53) by (apply Z.log2_lt_pow2; lia).
  destruct (Z.leb_spec (Z.log2 n) 52); [done|lia].
Qed.

Lemma round_binary64_exact z : 0 <= z → z < 2 ^ 53 → round_binary64 z = Num z.
Proof.
  intros Hz Hlt. unfold round_binary64.
  destruct (Z.eqb_spec z 0) as [->|]; [done|].
  destruct (Z.ltb_spec 0 z); [|lia]. by apply round_pos_exact.
Qed.

(** The significand that [round_pos] rounds to is positive. *)
Lemma round_pos_positive n :
  0 < n → match round_pos n with Num v => 0 < v | PosInf => True | _ => False end.
Proof.
  intros Hpos. unfold round_pos.
  destruct (Z.leb_spec (Z.log2 n) 52) as [|Hk]; [done|].
  set (sh := Z.log2 n - 52).
  set (q := Z.shiftr n sh).
  assert (Hsh : 0 < sh) by (unfold sh; lia).
  assert (Hq : 0 < q).
  { unfold q. rewrite Z.shiftr_div_pow2 by lia.
    apply Z.div_str_pos. split; [lia|].
    destruct (Z.log2_spec n Hpos) as [Hle _].
    eapply Z.le_trans; [|exact Hle].
    apply Z.pow_le_mono_r; unfold sh; lia. }
  match goal with |- context [if ?b then q + 1 else q] =>
    set (q' := if b then q + 1 else q); assert (Hq' : 0 < q') by (unfold q'; destruct b; lia)
  end.
  destruct (Z.leb_spec (2 ^ 1024) (Z.shiftl q' sh)); [done|].
  rewrite Z.shiftl_mul_pow2 by lia.
  apply Z.mul_pos_pos; [done|]. apply Z.pow_pos_nonneg; lia.
Qed.

Lemma round_binary64_score z : 0 <= z → is_score (round_binary64 z).
Proof.
  intros Hz. unfold round_binary64.
  destruct (Z.eqb_spec z 0) as [->|]; [simpl; lia|].
  destruct (Z.ltb_spec 0 z); [|lia].
  pose proof (round_pos_positive z ltac:(lia)) as Hp.
  destruct (round_pos z); simpl in *; try done. lia.
Qed.

(** The sign of [round_binary64 z] is the sign of [z]. *)
Lemma sort_sign_round z : sort_sign (round_binary64 z) = Z.sgn z.
Proof.
  unfold round_binary64.
  destruct (Z.eqb_spec z 0) as [->|]; [done|].
  destruct (Z.ltb_spec 0 z).
  - pose proof (round_pos_positive z ltac:(lia)) as Hp.
    destruct (round_pos z); simpl in *; try done; lia.
  - pose proof (round_pos_positive (- z) ltac:(lia)) as Hp.
    destruct (round_pos (- z)); simpl in *; try done; lia.
Qed.

(** On scores, the comparator of [sortSolutions] says "not less". *)
Lemma sort_sign_sub x y :
  is_score x → is_score y → sort_sign (num_sub y x) <= 0 ↔ ¬ num_lt x y.
Proof.
  destruct x as [| a | |], y as [| b | |]; simpl; try done.
  - intros _ _. rewrite sort_sign_round. lia.
  - intros _ _. split; [intros _ []|lia].
  - intros _ _. split; [intros _ []|lia].
Qed.

End numbers.

(** ** parse *)

Section parse_facts.
Context {NO : Normalizer}.
Local Open Scope Z_scope.

Lemma bind_Ok {A B} (m : result A) (f : A → result B) b :
  m ≫= f = Ok b → ∃ a, m = Ok a ∧ f a = Ok b.
Proof. destruct m as [a|]; [|done]. intros. by exists a. Qed.

Lemma fmap_Ok {A B} (m : result A) (f : A → B) b :
  f <$> m = Ok b → ∃ a, m = Ok a ∧ b = f a.
Proof. destruct m as [a|]; [|done]. intros [= <-]. by exists a. Qed.

(** One step of the loop of [parse], by the kind of segment made. *)
Lemma parse_segments_cons segment rest rs ns ds v :
  parse_segments (segment :: rest) = Ok (rs, ns, ds, v) →
  ∃ seg rs' ns' ds' v',
    parse_segments rest = Ok (rs', ns', ds', v')
    ∧ rs = seg :: rs'
    ∧ v = String (ascii_of_N (48 + Z.to_N (kind_digit seg))) v'
    ∧ match seg with
      | DynamicSegment n =>
          ∃ name, capture_after ":" segment = Some name
                  ∧ normalizeSegment name = Ok n
                  ∧ ns = name :: ns' ∧ ds = true :: ds'
      | StarSegment name =>
          capture_after ":" segment = None
          ∧ capture_after "*" segment = Some name
          ∧ ns = name :: ns' ∧ ds = false :: ds'
      | EpsilonSegment =>
          segment = "" ∧ ns = ns' ∧ ds = ds'
      | StaticSegment s =>
          capture_after ":" segment = None ∧ capture_after "*" segment = None
          ∧ segment ≠ "" ∧ normalizeSegment segment = Ok s
          ∧ ns = ns' ∧ ds = ds'
      end.
Proof.
  simpl. destruct (capture_after ":" segment) as [name|] eqn:Hd.
  { intros (seg & Hseg & H)%bind_Ok.
    apply bind_Ok in H as ([[[rs' ns'] ds'] v'] & Hrest & [= <- <- <- <-]).
    apply fmap_Ok in Hseg as (n & Hn & ->).
    exists (DynamicSegment n), rs', ns', ds', v'. repeat split; eauto. }
  destruct (capture_after "*" segment) as [name|] eqn:Hs.
  { intros ([[[rs' ns'] ds'] v'] & Hrest & [= <- <- <- <-])%bind_Ok.
    exists (StarSegment name), rs', ns', ds', v'. repeat split; eauto. }
  destruct (String.eqb_spec segment "") as [->|Hne].
  { intros ([[[rs' ns'] ds'] v'] & Hrest & [= <- <- <- <-])%bind_Ok.
    exists EpsilonSegment, rs', ns', ds', v'. repeat split; eauto. }
  intros (seg & Hseg & H)%bind_Ok.
  apply bind_Ok in H as ([[[rs' ns'] ds'] v'] & Hrest & [= <- <- <- <-]).
  apply fmap_Ok in Hseg as (n & Hn & ->).
  exists (StaticSegment n), rs', ns', ds', v'. repeat split; eauto.
Qed.

Lemma kind_digit_range seg : 1 <= kind_digit seg <= 4.
Proof. destruct seg; simpl; lia. Qed.

Lemma digit_val_kind seg :
  digit_val (ascii_of_N (48 + Z.to_N (kind_digit seg))) = Some (kind_digit seg).
Proof. by destruct seg. Qed.

(** The digits that [parse] appends spell the digits of the kinds. *)
Lemma parse_segments_val segments rs ns ds v acc :
  parse_segments segments = Ok (rs, ns, ds, v) →
  decimal_value acc v = Some (foldl (λ acc s, 10 * acc + kind_digit s) acc rs).
Proof.
  revert rs ns ds v acc.
  induction segments as [|segment rest IH]; intros rs ns ds v acc.
  - by intros [= <- <- <- <-].
  - intros (seg & rs' & ns' & ds' & v' & Hrest & -> & -> & _)%parse_segments_cons.
    simpl. rewrite digit_val_kind. by eapply IH.
Qed.

Lemma parse_val route p :
  parse route = Ok p → parsed_val p = round_binary64 (digits_value (results p)).
Proof.
  unfold parse.
  intros ([[[rs ns] ds] v] & Hseg & [= <-])%bind_Ok. simpl.
  unfold to_number, digits_value.
  by rewrite (parse_segments_val _ _ _ _ _ 0 Hseg).
Qed.

Lemma digits_fold_bound rs acc :
  0 <= acc →
  0 <= foldl (λ acc s, 10 * acc + kind_digit s) acc rs
  ∧ 9 * foldl (λ acc s, 10 * acc + kind_digit s) acc rs + 4
    <= (9 * acc + 4) * 10 ^ Z.of_nat (length rs).
Proof.
  revert acc. induction rs as [|s rs IH]; intros acc Hacc; simpl foldl.
  - simpl. lia.
  - pose proof (kind_digit_range s).
    destruct (IH (10 * acc + kind_digit s) ltac:(lia)) as [H0 H1].
    split; [done|].
    replace (Z.of_nat (length (s :: rs))) with (Z.succ (Z.of_nat (length rs)))
      by (simpl; lia).
    rewrite Z.pow_succ_r by lia.
    assert (0 < 10 ^ Z.of_nat (length rs)) by (apply Z.pow_pos_nonneg; lia).
    nia.
Qed.

Lemma digits_value_nonneg rs : 0 <= digits_value rs.
Proof. by apply digits_fold_bound. Qed.

Lemma digits_value_small rs :
  (length rs ≤ 16)%nat → digits_value rs < 2 ^ 53.
Proof.
  intros Hlen. destruct (digits_fold_bound rs 0 ltac:(lia)) as [_ H].
  fold (digits_value rs) in H.
  assert (10 ^ Z.of_nat (length rs) <= 10 ^ 16)
    by (apply Z.pow_le_mono_r; lia).
  change (2 ^ 53) with 9007199254740992.
  change (10 ^ 16) with 10000000000000000 in *. lia.
Qed.

Lemma parse_score route p : parse route = Ok p → is_score (parsed_val p).
Proof.
  intros ->%parse_val. apply round_binary64_score, digits_value_nonneg.
Qed.

End parse_facts.

(** ** The loops of add *)

Section add_facts.
Context {HV : Type} {BI : Builtins} {NO : Normalizer}.
Implicit Types (sts : list State) (a : AddLoop (HV:=HV)) (e : Engine (HV:=HV)).

Lemma acc_preserved_refl sts : acc_preserved sts sts.
Proof. intros i s acc ? ?. by exists s. Qed.

Lemma acc_preserved_trans sts1 sts2 sts3 :
  acc_preserved sts1 sts2 → acc_preserved sts2 sts3 → acc_preserved sts1 sts3.
Proof.
  intros H12 H23 i s3 acc Hs3 Hacc.
  destruct (H23 i s3 acc Hs3 Hacc) as (s2 & Hs2 & Hacc2). eauto.
Qed.

Lemma State_put_acc sts cur spec sts' c :
  cur < length sts → State_put sts cur spec = (sts', c) → acc_preserved sts sts'.
Proof.
  intros Hcur. rewrite State_put_unfold.
  destruct (State_get sts cur spec); intros [= <- <-];
    [apply acc_preserved_refl|].
  intros i s' acc Hs' Hacc.
  destruct (put_new_lookup _ _ _ _ _ Hcur Hs')
    as [(_ & s & Hs & _ & Ha & _)|(_ & _ & Ha & _)]; [|congruence].
  exists s. split; [done|congruence].
Qed.

Lemma State_put_root sts spec sts' c :
  wf_states sts → is_slash spec → State_put sts 0 spec = (sts', c) → c = 1.
Proof.
  intros Hwf Hsl. rewrite State_put_unfold.
  destruct (wf_root _ Hwf) as (r & Hr & _).
  destruct (State_get sts 0 spec) as [c'|] eqn:Hg; intros [= <- <-].
  - apply State_get_Some in Hg as (s & Hs & Hin & _).
    by destruct (wf_children _ Hwf 0 s c' Hs Hin) as [_ ?].
  - apply (wf_root_leaf _ Hwf r Hr). by apply (root_get_None sts spec).
Qed.

Lemma slash_spec_is_slash : is_slash slash_spec.
Proof. done. Qed.

Lemma slash_spec_proper : proper slash_spec.
Proof. left. split_and!; by eauto. Qed.

(** The loop of [StaticSegment.eachChar]. *)
Lemma put_chars_wf chars sts cur sts' c :
  wf_states sts → 1 ≤ cur < length sts →
  foldl (λ '(sts, cur) ch,
           State_put sts cur
             {| invalidChars := None; repeat := false; validChars := Some (chr ch) |})
    (sts, cur) chars = (sts', c) →
  wf_states sts' ∧ 1 ≤ c < length sts' ∧ length sts ≤ length sts'
  ∧ acc_preserved sts sts'.
Proof.
  revert sts cur. induction chars as [|ch chars IH]; intros sts cur Hwf Hcur; simpl.
  - intros [= <- <-]. split_and!; [done|lia..|apply acc_preserved_refl].
  - destruct (State_put sts cur _) as [sts1 c1] eqn:Hput.
    pose proof (State_put_acc _ _ _ _ _ (proj2 Hcur) Hput) as Hacc.
    apply State_put_wf in Hput as (Hwf1 & Hc1 & Hlen);
      [|done|lia|lia|left; split_and!; by eauto].
    intros (Hwf' & Hc & Hlen' & Hacc')%IH; [|done..].
    split_and!; [done|lia..|by eapply acc_preserved_trans].
Qed.

Lemma eachChar_wf seg sts cur sts' c :
  wf_states sts → 1 ≤ cur < length sts →
  eachChar seg sts cur = (sts', c) →
  wf_states sts' ∧ 1 ≤ c < length sts' ∧ length sts ≤ length sts'
  ∧ acc_preserved sts sts'.
Proof.
  intros Hwf Hcur. destruct seg as [s|n|n|]; simpl.
  - by apply put_chars_wf.
  - intros Hput. pose proof (State_put_acc _ _ _ _ _ (proj2 Hcur) Hput).
    apply State_put_wf in Hput as (? & ? & ?);
      [done..|lia|lia|right; split_and!; by eauto].
  - intros Hput. pose proof (State_put_acc _ _ _ _ _ (proj2 Hcur) Hput).
    apply State_put_wf in Hput as (? & ? & ?);
      [done..|lia|lia|right; split_and!; by eauto].
  - intros [= <- <-]. split_and!; [done|lia..|apply acc_preserved_refl].
Qed.

Lemma add_segment_batch a seg : same_batch a (add_segment a seg).
Proof.
  unfold add_segment. destruct (is_Epsilon seg); [done|].
  destruct (State_put _ _ slash_spec) as [sts1 c1].
  by destruct (eachChar seg sts1 c1).
Qed.

Lemma add_segments_batch segs a : same_batch a (foldl add_segment a segs).
Proof.
  revert a. induction segs as [|seg segs IH]; intros a; simpl; [done|].
  destruct (add_segment_batch a seg) as (? & ? & ?).
  destruct (IH (add_segment a seg)) as (? & ? & ?).
  split_and!; congruence.
Qed.

Lemma add_segment_inv a seg :
  loop_inv a →
  loop_inv (add_segment a seg)
  ∧ acc_preserved (loop_states a) (loop_states (add_segment a seg))
  ∧ length (loop_states a) ≤ length (loop_states (add_segment a seg)).
Proof.
  intros [Hwf Hcur Hmoved Hroot Hval]. unfold add_segment.
  destruct (is_Epsilon seg) eqn:Heps.
  { split_and!; try done. apply acc_preserved_refl. }
  destruct (State_put _ _ slash_spec) as [sts1 c1] eqn:Hput.
  pose proof (State_put_acc _ _ _ _ _ Hcur Hput) as Hacc1.
  apply State_put_wf in Hput as (Hwf1 & Hc1 & Hlen1);
    [|done..|intros _; apply slash_spec_is_slash|apply slash_spec_proper].
  destruct (eachChar seg sts1 c1) as [sts2 c2] eqn:Heach.
  apply eachChar_wf in Heach as (Hwf2 & Hc2 & Hlen2 & Hacc2); [|done..].
  split_and!; simpl; try lia.
  - split; simpl; try done; lia.
  - by eapply acc_preserved_trans.
Qed.

Lemma add_segments_inv segs a :
  loop_inv a →
  loop_inv (foldl add_segment a segs)
  ∧ acc_preserved (loop_states a) (loop_states (foldl add_segment a segs))
  ∧ length (loop_states a) ≤ length (loop_states (foldl add_segment a segs)).
Proof.
  revert a. induction segs as [|seg segs IH]; intros a Hinv; simpl.
  - split_and!; try done. apply acc_preserved_refl.
  - destruct (add_segment_inv a seg Hinv) as (Hinv1 & Hacc1 & Hlen1).
    destruct (IH _ Hinv1) as (Hinv2 & Hacc2 & Hlen2).
    split_and!; [done| |lia].
    by eapply acc_preserved_trans.
Qed.

(** What [add_routes] does to the locals of [add]. *)
Lemma add_routes_inv routes a a' r :
  loop_inv a → add_routes routes a = (a', r) →
  loop_inv a'
  ∧ acc_preserved (loop_states a) (loop_states a')
  ∧ length (loop_states a) ≤ length (loop_states a').
Proof.
  revert a. induction routes as [|route routes IH]; intros a Hinv; simpl.
  - intros [= <- <-]. split_and!; try done. apply acc_preserved_refl.
  - destruct (parse (path route)) as [p|ex] eqn:Hp.
    2:{ intros [= <- <-]. split_and!; try done. apply acc_preserved_refl. }
    set (a1 := {| loop_states := loop_states a; currentState := currentState a;
                  loop_regex := loop_regex a; loop_val := Some (parsed_val p);
                  loop_handlers := loop_handlers a;
                  allSegments := allSegments a ++ results p;
                  isEmpty := isEmpty a |}).
    assert (Hinv1 : loop_inv a1).
    { destruct Hinv. split; simpl; try done.
      intros n [= <-]. by eapply parse_score. }
    destruct (add_segments_inv (results p) a1 Hinv1) as (Hinv2 & Hacc2 & Hlen2).
    set (a2 := foldl add_segment a1 (results p)) in *.
    intros Hrest. apply IH in Hrest as (Hinv3 & Hacc3 & Hlen3).
    + split_and!; [done| |simpl in *; lia].
      by eapply acc_preserved_trans.
    + destruct Hinv2. by split.
Qed.

(** The score and the handlers that the outer loop ends with. *)
Lemma add_routes_batch routes a a' :
  add_routes routes a = (a', Ok ()) →
  ∃ ps, Forall2 (λ route p, parse (path route) = Ok p) routes ps
        ∧ loop_val a' = match last ps with
                        | Some p => Some (parsed_val p)
                        | None => loop_val a
                        end
        ∧ loop_handlers a' = loop_handlers a ++ zip_with handler_of routes ps
        ∧ allSegments a' = allSegments a ++ concat (results <$> ps)
        ∧ (routes = [] → a' = a).
Proof.
  revert a. induction routes as [|route routes IH]; intros a; simpl.
  - intros [= <-]. exists []. simpl. rewrite !app_nil_r. by split_and!.
  - destruct (parse (path route)) as [p|ex] eqn:Hp; [|done].
    intros (ps & Hps & Hval & Hh & Hs & _)%IH.
    destruct (add_segments_batch (results p)
      {| loop_states := loop_states a; currentState := currentState a;
         loop_regex := loop_regex a; loop_val := Some (parsed_val p);
         loop_handlers := loop_handlers a;
         allSegments := allSegments a ++ results p;
         isEmpty := isEmpty a |}) as (Hv2 & Hh2 & Hs2).
    simpl in *.
    exists (p :: ps). split; [by constructor|].
    split; [|split; [|split; [|done]]].
    + rewrite Hval, Hv2, last_cons. simpl. by destruct (last ps).
    + rewrite Hh, Hh2. simpl. by rewrite <- app_assoc.
    + rewrite Hs, Hs2. simpl. by rewrite <- !app_assoc.
Qed.

End add_facts.

(** ** add *)

Section add_engine.
Context {HV : Type} {BI : Builtins} {NO : Normalizer}.
Implicit Types (sts : list State) (a : AddLoop (HV:=HV)) (e : Engine (HV:=HV)).

(** What a call of [add] that returns has done. *)
Lemma add_Ok e routes as_name e' cur :
  add e routes as_name = (e', Ok cur) →
  ∃ a sts regex re,
    add_routes routes (add_init e) = (a, Ok ())
    ∧ add_finish a = (sts, cur, regex)
    ∧ RegExp_new (regex +:+ "$") = Ok re
    ∧ e' = {| states :=
                alter (set_accepting
                         {| regex := re; handlers := length (arrays e);
                            specificity := loop_val a |}) cur sts;
              registry :=
                register (registry e) as_name
                  {| segments := allSegments a;
                     route_handlers := length (arrays e) |};
              arrays := arrays e ++ [loop_handlers a] |}.
Proof.
  unfold add. destruct (add_routes routes (add_init e)) as [a [[]|ex]] eqn:Hl; [|done].
  destruct (add_finish a) as [[sts c] regex] eqn:Hf.
  destruct (RegExp_new (regex +:+ "$")) as [re|ex] eqn:Hre; [|done].
  intros [= <- <-]. by exists a, sts, regex, re.
Qed.

Lemma add_init_inv e : wf_states (states e) → loop_inv (add_init e).
Proof.
  intros Hwf. split; simpl; try done.
  destruct (wf_root _ Hwf) as (r & Hr & _). by apply lookup_lt_Some in Hr.
Qed.

Lemma add_finish_wf a sts cur regex :
  loop_inv a → add_finish a = (sts, cur, regex) →
  wf_states sts ∧ 1 ≤ cur < length sts
  ∧ acc_preserved (loop_states a) sts
  ∧ (isEmpty a = true → cur = 1).
Proof.
  intros [Hwf Hcur Hmoved Hroot Hval]. unfold add_finish.
  destruct (isEmpty a) eqn:He.
  - destruct (State_put _ _ slash_spec) as [sts1 c1] eqn:Hput.
    intros [= <- <- <-].
    pose proof (State_put_acc _ _ _ _ _ Hcur Hput) as Hacc.
    pose proof Hput as Hput'.
    apply State_put_wf in Hput as (Hwf1 & Hc1 & Hlen1);
      [|done..|intros _; apply slash_spec_is_slash|apply slash_spec_proper].
    split_and!; [done|lia..|done|].
    intros _. rewrite (Hroot eq_refl) in Hput'.
    by eapply State_put_root, Hput'.
  - intros [= <- <- <-]. specialize (Hmoved eq_refl).
    split_and!; [done|lia..|apply acc_preserved_refl|done].
Qed.

Lemma set_accepting_wf sts cur acc :
  wf_states sts → 1 ≤ cur →
  match specificity acc with Some n => is_score n | None => cur = 1 end →
  wf_states (alter (set_accepting acc) cur sts).
Proof.
  intros Hwf Hcur Hsc.
  assert (Hlook : ∀ i s', alter (set_accepting acc) cur sts !! i = Some s' →
            ∃ s, sts !! i = Some s ∧ charSpec s' = charSpec s
                 ∧ nextStates s' = nextStates s
                 ∧ (i ≠ cur → accepting s' = accepting s)
                 ∧ (i = cur → accepting s' = Some acc)).
  { intros i s'. destruct (decide (i = cur)) as [->|Hne].
    - rewrite list_lookup_alter_eq. destruct (sts !! cur) as [s|]; [|done].
      intros [= <-]. by exists s.
    - rewrite list_lookup_alter_ne by done. intros Hs. by exists s'. }
  split.
  - destruct (wf_root _ Hwf) as (r & Hr & Hracc & Hrspec).
    exists r. rewrite list_lookup_alter_ne by lia. done.
  - intros r' (r & Hr & _ & Hn & _)%Hlook Hnil. rewrite length_alter.
    apply (wf_root_leaf _ Hwf r Hr). congruence.
  - intros r' (r & Hr & _ & Hn & _)%Hlook Hnn.
    destruct (wf_first _ Hwf r Hr) as (s & cs & Hs & Hcs & Hsl); [congruence|].
    destruct (lookup_lt_is_Some_2 (alter (set_accepting acc) cur sts) 1) as [s' Hs'].
    { rewrite length_alter. by apply lookup_lt_Some in Hs. }
    destruct (Hlook _ _ Hs') as (s0 & Hs0 & Hc & _).
    exists s', cs. split_and!; [done| |done]. congruence.
  - intros i s' c (s & Hs & _ & Hn & _)%Hlook Hc. rewrite length_alter.
    apply (wf_children _ Hwf i s c Hs). congruence.
  - intros i s' (s & Hs & Hc & _)%Hlook Hi. rewrite Hc.
    by apply (wf_spec _ Hwf i s).
  - intros i s' cs (s & Hs & Hc & Hn & _)%Hlook Hcs. rewrite Hn.
    apply (wf_loop _ Hwf i s cs Hs). congruence.
  - intros i s' acc' (s & Hs & _ & _ & Hne & Heq)%Hlook Hacc'.
    destruct (decide (i = cur)) as [->|Hn].
    + rewrite (Heq eq_refl) in Hacc'. injection Hacc' as <-. done.
    + rewrite (Hne Hn) in Hacc'. by apply (wf_score _ Hwf i s).
Qed.

Lemma names_get_set reg name r name' route :
  own reg !! "__proto__" = None →
  names_get (names_set reg name r) name' = IsRoute route →
  route = r ∨ names_get reg name' = IsRoute route.
Proof.
  intros Hown. unfold names_set, names_get.
  destruct (decide (name = "__proto__")) as [->|Hne].
  - rewrite bool_decide_eq_true_2 by done. simpl.
    destruct (own reg !! name') as [r'|] eqn:Hl; [by right|].
    destruct (decide (name' = "__proto__")) as [->|Hne'].
    + rewrite bool_decide_eq_true_2 by done. intros [= <-]. by left.
    + rewrite (bool_decide_eq_false_2 (name' = "__proto__")) by done.
      repeat case_bool_decide; destruct (is_inherited name'); done.
  - rewrite bool_decide_eq_false_2 by done. simpl.
    destruct (decide (name = name')) as [->|Hne'].
    + rewrite lookup_insert_eq. intros [= <-]. by left.
    + rewrite lookup_insert_ne by done. by right.
Qed.

Lemma names_set_own reg name r :
  own reg !! "__proto__" = None → own (names_set reg name r) !! "__proto__" = None.
Proof.
  intros Hown. unfold names_set. case_bool_decide; simpl; [done|].
  by rewrite lookup_insert_ne.
Qed.

(** The registry entry of a name just registered. *)
Lemma names_get_set_eq reg name r :
  own reg !! "__proto__" = None →
  names_get (names_set reg name r) name = IsRoute r.
Proof.
  intros Hown. unfold names_set, names_get.
  destruct (decide (name = "__proto__")) as [->|Hne].
  - rewrite bool_decide_eq_true_2 by done. simpl. by rewrite Hown.
  - rewrite bool_decide_eq_false_2 by done. simpl. by rewrite lookup_insert_eq.
Qed.

Lemma add_wf e routes as_name : wf e → wf (add e routes as_name).1.
Proof.
  intros [Hwf Hh Hown Hroutes].
  pose proof (add_init_inv e Hwf) as Hinit.
  unfold add.
  destruct (add_routes routes (add_init e)) as [a r] eqn:Hloop.
  pose proof (add_routes_inv _ _ _ _ Hinit Hloop) as (Hinv & Hacc & Hlen).
  destruct r as [[]|ex].
  2:{ simpl. split; simpl; [by destruct Hinv|..|done|done].
      intros i s' acc Hs' Ha. destruct (Hacc i s' acc Hs' Ha) as (s & Hs & Ha').
      by eapply Hh. }
  destruct (add_finish a) as [[sts cur] regex] eqn:Hfin.
  pose proof (add_finish_wf _ _ _ _ Hinv Hfin) as (Hwf1 & Hcur & Hacc1 & Hone).
  assert (Hold : ∀ i s' acc, sts !! i = Some s' → accepting s' = Some acc →
            handlers acc < length (arrays e)).
  { intros i s' acc Hs' Ha. destruct (Hacc1 i s' acc Hs' Ha) as (s1 & Hs1 & Ha1).
    destruct (Hacc i s1 acc Hs1 Ha1) as (s & Hs & Ha'). by eapply Hh. }
  destruct (RegExp_new (regex +:+ "$")) as [re|ex]; simpl.
  2:{ by split; simpl. }
  split; simpl.
  - apply set_accepting_wf; [done|lia|]. simpl.
    destruct (loop_val a) as [n|] eqn:Hv; [by apply (inv_val _ Hinv)|].
    apply Hone.
    apply add_routes_batch in Hloop as (ps & Hps & Hval & _ & _ & Hnil).
    destruct routes as [|route routes]; [by rewrite (Hnil eq_refl)|].
    apply Forall2_cons_inv_l in Hps as (p & ps' & _ & _ & ->).
    rewrite Hv in Hval. destruct (last_is_Some (p :: ps')) as [_ [p' Hp']]; [done|].
    by rewrite Hp' in Hval.
  - intros i s' acc. rewrite length_app. simpl.
    destruct (decide (i = cur)) as [->|Hne].
    + rewrite list_lookup_alter_eq. destruct (sts !! cur) as [s|]; [|done].
      intros [= <-] [= <-]. simpl. lia.
    + rewrite list_lookup_alter_ne by done. intros Hs' Ha.
      specialize (Hold i s' acc Hs' Ha). lia.
  - unfold register. destruct as_name as [name|]; [|done].
    destruct (String.eqb name ""); [done|]. by apply names_set_own.
  - intros name' route. rewrite length_app. simpl.
    unfold register. destruct as_name as [name|].
    2:{ intros ?%Hroutes. lia. }
    destruct (String.eqb name "").
    { intros ?%Hroutes. lia. }
    intros [->|?%Hroutes]%names_get_set; [simpl; lia|lia|done].
Qed.

Lemma handlersFor_wf e name : wf e → wf (handlersFor e name).1.
Proof.
  intros [Hwf Hh Hown Hroutes]. unfold handlersFor.
  destruct (names_get (registry e) name) as [route| |]; try done.
  destruct (arrays e !! route_handlers route) as [hs|]; [|done].
  split; simpl; [done| |done|].
  - intros i s acc Hs Ha. rewrite length_app. specialize (Hh i s acc Hs Ha). lia.
  - intros name' r ?%Hroutes. rewrite length_app. lia.
Qed.

Lemma new_wf : wf (RouteRecognizer_new (HV:=HV)).
Proof.
  split; simpl; try done.
  - split.
    + by eexists.
    + done.
    + by intros r [= <-].
    + intros [|i] s c; simpl; [|done]. intros [= <-]. by intros ?%elem_of_nil.
    + intros [|i] s; simpl; [lia|done].
    + intros [|i] s cs; simpl; [|done]. by intros [= <-].
    + intros [|i] s acc; simpl; [|done]. by intros [= <-].
  - intros [|i] s acc; simpl; [|done]. by intros [= <-].
  - intros name route. unfold names_get. simpl. rewrite lookup_empty.
    repeat case_bool_decide; try done.
    all: try by destruct (is_inherited name).
    all: match goal with H : is_Some None ∧ _ |- _ => by destruct H as [[] _] end.
Qed.

(** Every engine that the interface produces is well formed. *)
Lemma built_wf e : built e → wf e.
Proof.
  induction 1; [apply new_wf|by apply add_wf|by apply handlersFor_wf].
Qed.

End add_engine.

(** ** The score that add stores *)

Section stored_score.
Context {HV : Type} {BI : Builtins} {NO : Normalizer}.
Implicit Types (sts : list State) (a : AddLoop (HV:=HV)) (e : Engine (HV:=HV)).

Lemma Forall2_last {A B} (R : A → B → Prop) l k x :
  Forall2 R l k → last l = Some x → ∃ y, last k = Some y ∧ R x y.
Proof.
  intros H. revert x. induction H as [|a b l k Hab Hlk IH]; intros x; [done|].
  rewrite !last_cons. destruct (last l) as [x'|] eqn:Hl.
  - intros [= <-]. destruct (IH x' eq_refl) as (y & -> & Hy). by exists y.
  - intros [= <-]. apply last_None in Hl as ->.
    apply Forall2_nil_inv_l in Hlk as ->. by exists b.
Qed.

(** The accepting state that a returning [add] leaves behind. *)
Lemma add_accepting e routes as_name e' cur :
  built e → add e routes as_name = (e', Ok cur) →
  ∃ a s acc,
    add_routes routes (add_init e) = (a, Ok ())
    ∧ 1 ≤ cur
    ∧ states e' !! cur = Some s
    ∧ accepting s = Some acc
    ∧ specificity acc = loop_val a
    ∧ arrays e' !! handlers acc = Some (loop_handlers a)
    ∧ registry e' =
        register (registry e) as_name
          {| segments := allSegments a; route_handlers := handlers acc |}.
Proof.
  intros [Hwf _ _ _]%built_wf (a & sts & regex & re & Hloop & Hfin & Hre & ->)%add_Ok.
  pose proof (add_routes_inv _ _ _ _ (add_init_inv e Hwf) Hloop) as (Hinv & _ & _).
  pose proof (add_finish_wf _ _ _ _ Hinv Hfin) as (_ & Hcur & _ & _).
  destruct (lookup_lt_is_Some_2 sts cur) as [s Hs]; [lia|].
  eexists a, _, _. simpl. split_and!; [done|lia| | | | |].
  - by rewrite list_lookup_alter_eq, Hs.
  - done.
  - done.
  - simpl. by rewrite lookup_app_r, Nat.sub_diag by done.
  - done.
Qed.

Lemma add_stores_last_score e routes as_name e' cur route :
  built e → add e routes as_name = (e', Ok cur) → last routes = Some route →
  ∃ p s acc,
    parse (path route) = Ok p
    ∧ states e' !! cur = Some s
    ∧ accepting s = Some acc
    ∧ specificity acc = Some (parsed_val p).
Proof.
  intros Hb (a & s & acc & Hloop & _ & Hs & Hacc & Hspec & _)%add_accepting Hlast;
    [|done].
  apply add_routes_batch in Hloop as (ps & Hps & Hval & _).
  destruct (Forall2_last _ _ _ _ Hps Hlast) as (p & Hp & Hparse).
  exists p, s, acc. split_and!; try done.
  by rewrite Hspec, Hval, Hp.
Qed.

(** C8: the score on the accepting state of a batch is the score that
    [parse] computes for the last route of the batch, whatever the other
    routes of the batch are. *)
Theorem C8_batch_score_is_last_route e routes as_name e' cur route :
  built e →
  add e routes as_name = (e', Ok cur) →
  last routes = Some route →
  ∃ p s acc,
    parse (path route) = Ok p
    ∧ states e' !! cur = Some s
    ∧ accepting s = Some acc
    ∧ specificity acc = Some (parsed_val p).
Proof. apply add_stores_last_score. Qed.

End stored_score.

(** In [two_class_batch] the accepting state carries the score of the
    dynamic route. *)
Lemma C8_witness :
  ∃ p s acc,
    parse "/:id" = Ok p
    ∧ states (add RouteRecognizer_new two_class_batch None).1 !! 8 = Some s
    ∧ accepting s = Some acc
    ∧ specificity acc = Some (parsed_val p).
Proof.
  apply (C8_batch_score_is_last_route RouteRecognizer_new two_class_batch None
           (add RouteRecognizer_new two_class_batch None).1 8
           (route "/:id" "post")).
  - apply built_new.
  - vm_compute. reflexivity.
  - reflexivity.
Defined.

(** ** The walk and the choice among accepting states *)

Section choice.
Context {HV : Type} {BI : Builtins} {NO : Normalizer}.
Variable ENCODE_AND_DECODE_PATH_SEGMENTS : bool.
Implicit Types (sts : list State) (e : Engine (HV:=HV)).

Lemma State_match_child sts cur ch x :
  x ∈ State_match sts cur ch →
  ∃ s, sts !! cur = Some s ∧ x ∈ nextStates s ∧ takes sts ch x = true.
Proof.
  unfold State_match. destruct (sts !! cur) as [s|]; [|by intros ?%elem_of_nil].
  intros [? ?]%list_elem_of_filter. by exists s.
Qed.

Lemma recognizeChar_app sts acc states ch :
  foldl (λ nextStates state, nextStates ++ State_match sts state ch) acc states
  = acc ++ recognizeChar sts states ch.
Proof.
  unfold recognizeChar. revert acc.
  induction states as [|y states IH]; intros acc; simpl.
  - by rewrite app_nil_r.
  - rewrite IH, (IH (State_match sts y ch)). by rewrite app_assoc.
Qed.

Lemma recognizeChar_cons sts y states ch :
  recognizeChar sts (y :: states) ch
  = State_match sts y ch ++ recognizeChar sts states ch.
Proof. unfold recognizeChar at 1. simpl. by rewrite recognizeChar_app. Qed.

Lemma recognizeChar_elem sts states ch x :
  x ∈ recognizeChar sts states ch ↔ ∃ y, y ∈ states ∧ x ∈ State_match sts y ch.
Proof.
  induction states as [|y states IH].
  - split; [by intros ?%elem_of_nil|by intros (y & ?%elem_of_nil & _)].
  - rewrite recognizeChar_cons, elem_of_app, IH. split.
    + intros [?|(y' & ? & ?)]; [exists y|exists y']; split; try done;
        [left|by right].
    + intros (y' & [->|?]%elem_of_cons & ?); [by left|right; by exists y'].
Qed.

(** A property of the states of the frontier that one step keeps is
    kept by the walk. *)
Lemma walk_keeps (Q : nat → Prop) sts states path :
  (∀ states ch, Forall Q states → Forall Q (recognizeChar sts states ch)) →
  Forall Q states → Forall Q (walk sts states path).
Proof.
  intros Hstep. revert states. induction path as [|ch r IH]; intros states HQ; simpl.
  - done.
  - specialize (Hstep states ch HQ).
    destruct (recognizeChar sts states ch) as [|x next]; [constructor|].
    by apply IH.
Qed.

Lemma step_from_inner sts states ch :
  wf_states sts → Forall (λ x, 1 ≤ x) states →
  Forall (λ x, 2 ≤ x) (recognizeChar sts states ch).
Proof.
  intros Hwf Hst. apply Forall_forall. intros x (y & Hy & Hx)%recognizeChar_elem.
  apply State_match_child in Hx as (s & Hs & Hin & _).
  rewrite Forall_forall in Hst. specialize (Hst y Hy).
  destruct (wf_children _ Hwf y s x Hs Hin) as [_ Hc].
  destruct (decide (y = 0)); [lia|done].
Qed.

Lemma step_from_root sts ch :
  wf_states sts → Forall (λ x, x = 1) (recognizeChar sts [rootState] ch).
Proof.
  intros Hwf. apply Forall_forall. intros x (y & Hy & Hx)%recognizeChar_elem.
  apply list_elem_of_singleton in Hy as ->.
  apply State_match_child in Hx as (s & Hs & Hin & _).
  by destruct (wf_children _ Hwf 0 s x Hs Hin) as [_ Hc].
Qed.

(** The frontier after a walk from the root: the root alone for the empty
    path, state 1 after one character, states from 2 on after more. *)
Lemma walk_levels sts path :
  wf_states sts →
  (path = "" ∧ walk sts [rootState] path = [rootState])
  ∨ Forall (λ x, x = 1) (walk sts [rootState] path)
  ∨ Forall (λ x, 2 ≤ x) (walk sts [rootState] path).
Proof.
  intros Hwf. destruct path as [|ch r]; [by left|right]. simpl.
  pose proof (step_from_root sts ch Hwf) as H1.
  destruct (recognizeChar sts [rootState] ch) as [|x next] eqn:Hn;
    [left; constructor|].
  destruct r as [|ch' r']; [by left|right]. simpl.
  assert (H2 : Forall (λ x, 2 ≤ x) (recognizeChar sts (x :: next) ch')).
  { apply step_from_inner; [done|]. eapply Forall_impl; [exact H1|]. simpl. lia. }
  destruct (recognizeChar sts (x :: next) ch') as [|x' next']; [constructor|].
  apply walk_keeps; [|done].
  intros states ch0 Hst. apply step_from_inner; [done|].
  eapply Forall_impl; [exact Hst|]. simpl. lia.
Qed.

Lemma num_lt_irrefl x : ¬ num_lt x x.
Proof. destruct x; simpl; lia. Qed.

Lemma val_score sts i s acc n :
  sts !! i = Some s → accepting s = Some acc → specificity acc = Some n →
  val sts i = n.
Proof. intros Hs Ha Hn. unfold val. rewrite Hs. simpl. rewrite Ha. simpl. by rewrite Hn. Qed.

(** The first of the sorted solutions has a score that no accepting state
    of the frontier exceeds. *)
Lemma solutions_head_max e path i :
  wf e → head (solutions e path) = Some i →
  i ∈ walk (states e) [rootState] path
  ∧ is_accepting (states e) i = true
  ∧ ∀ j, j ∈ walk (states e) [rootState] path →
         is_accepting (states e) j = true →
         ¬ num_lt (val (states e) i) (val (states e) j).
Proof.
  intros [Hwf _ _ _] Hhead. unfold solutions, sortSolutions in Hhead.
  set (F := walk (states e) [rootState] path) in *.
  set (sols := filter (λ i, is_accepting (states e) i = true) F) in *.
  assert (Hi : i ∈ sols).
  { eapply js_sort_elem. eapply head_Some_elem_of, Hhead. }
  apply list_elem_of_filter in Hi as [Hacc Hi]. split_and!; [done..|].
  intros j Hj Hjacc.
  assert (Hroot : is_accepting (states e) rootState = false).
  { destruct (wf_root _ Hwf) as (r & Hr & Hracc & _).
    unfold is_accepting, rootState. rewrite Hr. simpl. by rewrite Hracc. }
  destruct (walk_levels (states e) path Hwf) as [[_ HF]|[HF|HF]]; fold F in HF.
  - rewrite HF in Hi. apply list_elem_of_singleton in Hi as ->. congruence.
  - rewrite Forall_forall in HF. rewrite (HF i Hi), (HF j Hj).
    apply num_lt_irrefl.
  - assert (Hscore : ∀ k, k ∈ sols → is_score (val (states e) k)).
    { intros k [Hk Hk']%list_elem_of_filter.
      rewrite Forall_forall in HF. specialize (HF k Hk').
      unfold is_accepting in Hk.
      destruct (states e !! k) as [s|] eqn:Hs; [|done]. simpl in Hk.
      destruct (accepting s) as [acc|] eqn:Ha; [|done].
      pose proof (wf_score _ Hwf k s acc Hs Ha) as Hsc.
      destruct (specificity acc) as [n|] eqn:Hn; [|lia].
      by rewrite (val_score _ _ _ _ _ Hs Ha Hn). }
    refine (js_sort_head
              (λ a b, sort_sign (num_sub (val (states e) b) (val (states e) a)))
              (λ k, is_score (val (states e) k))
              (λ a b, ¬ num_lt (val (states e) a) (val (states e) b))
              _ _ _ sols i _ Hhead j _).
    + intros a b c Ha Hb Hc.
      destruct (val (states e) a), (val (states e) b), (val (states e) c);
        simpl in *; try done; lia.
    + intros a b Ha Hb.
      destruct (val (states e) a), (val (states e) b);
        simpl in *; try done; try lia; auto.
    + intros a b Ha Hb. by apply sort_sign_sub.
    + by apply Forall_forall.
    + by apply list_elem_of_filter.
Qed.

(** [findHandler] makes one entry per handler, in the order of the array. *)
Lemma read_handlers_entries captures hs k es :
  read_handlers ENCODE_AND_DECODE_PATH_SEGMENTS captures hs k = Ok es →
  entry_handler <$> es = handler (HV:=HV) <$> hs.
Proof.
  revert k es. induction hs as [|h hs IH]; intros k es; simpl.
  - by intros [= <-].
  - intros ([params next] & _ & (es' & Hes & ->)%fmap_Ok)%bind_Ok.
    simpl. f_equal. by eapply IH.
Qed.

(** What a call of [recognize] that returns a result has gone through. *)
Lemma recognize_Some e path res :
  recognize ENCODE_AND_DECODE_PATH_SEGMENTS e path = Ok (Some res) →
  ∃ p i s acc hs,
    prepare ENCODE_AND_DECODE_PATH_SEGMENTS path = Ok p
    ∧ head (solutions e (work_path p)) = Some i
    ∧ states e !! i = Some s
    ∧ accepting s = Some acc
    ∧ arrays e !! handlers acc = Some hs
    ∧ read_handlers ENCODE_AND_DECODE_PATH_SEGMENTS
        (regex_match (regex acc) (extraction_path p acc)) hs 1
      = Ok (entries res)
    ∧ result_queryParams res = query p.
Proof.
  unfold recognize. intros (p & Hp & H)%bind_Ok.
  destruct (head (solutions e (work_path p))) as [i|] eqn:Hh; simpl in H; [|done].
  destruct (states e !! i) as [s|] eqn:Hs; simpl in H; [|done].
  destruct (accepting s) as [acc|] eqn:Ha; simpl in H; [|done].
  apply fmap_Ok in H as (res' & Hf & [= <-]).
  unfold findHandler in Hf.
  destruct (arrays e !! handlers acc) as [hs|] eqn:Hhs; [|done].
  apply bind_Ok in Hf as (es & Hes & [= <-]).
  by exists p, i, s, acc, hs.
Qed.

End choice.

Section specificity.
Context {HV : Type} {BI : Builtins} {NO : Normalizer}.
Variable ENCODE_AND_DECODE_PATH_SEGMENTS : bool.
Implicit Types (e : Engine (HV:=HV)).

(** C1, as amended.  (1) The score that [parse] computes is the Number
    nearest to the integer spelled by the digits of the segments (Star 1,
    Epsilon 2, Dynamic 3, Static 4, left to right); for a pattern of at
    most 16 segments it is that integer.  (2) [add] of one route stores
    this score on the accepting state.  (3) When [recognize] returns a
    result, its entries are the handlers of an accepting state of the final
    frontier, and no accepting state of the frontier has a greater
    score. *)
Theorem C1_specificity_and_choice :
  (∀ route p,
     parse route = Ok p →
     parsed_val p = round_binary64 (digits_value (results p))
     ∧ (length (results p) ≤ 16 → parsed_val p = Num (digits_value (results p))))
  ∧ (∀ e route as_name e' cur,
       built e → add e [route] as_name = (e', Ok cur) →
       ∃ p s acc,
         parse (path route) = Ok p
         ∧ states e' !! cur = Some s
         ∧ accepting s = Some acc
         ∧ specificity acc = Some (parsed_val p))
  ∧ (∀ e path res,
       built e →
       recognize ENCODE_AND_DECODE_PATH_SEGMENTS e path = Ok (Some res) →
       ∃ p i s acc hs,
         prepare ENCODE_AND_DECODE_PATH_SEGMENTS path = Ok p
         ∧ i ∈ walk (states e) [rootState] (work_path p)
         ∧ states e !! i = Some s
         ∧ accepting s = Some acc
         ∧ arrays e !! handlers acc = Some hs
         ∧ entry_handler <$> entries res = handler <$> hs
         ∧ ∀ j, j ∈ walk (states e) [rootState] (work_path p) →
                is_accepting (states e) j = true →
                ¬ num_lt (val (states e) i) (val (states e) j)).
Proof.
  split_and!.
  - intros route p Hp. split; [by eapply parse_val|].
    intros Hlen. rewrite (parse_val _ _ Hp).
    apply round_binary64_exact;
      [apply digits_value_nonneg|by apply digits_value_small].
  - intros e route as_name e' cur Hb Hadd.
    by eapply add_stores_last_score.
  - intros e path res Hb
      (p & i & s & acc & hs & Hp & Hh & Hs & Ha & Hhs & Hes & _)%recognize_Some.
    destruct (solutions_head_max e (work_path p) i (built_wf e Hb) Hh)
      as (Hi & _ & Hmax).
    exists p, i, s, acc, hs. split_and!; try done.
    by eapply read_handlers_entries.
Qed.

End specificity.

(** C1, as stated, fails: for the pattern of seventeen Star segments the
    digits spell 11111111111111111, and the score that [parse] computes and
    [add] stores is 11111111111111112. *)
Lemma C1_counterexample :
  ∃ p s acc,
    parse seventeen_stars = Ok p
    ∧ digits_value (results p) = 11111111111111111%Z
    ∧ parsed_val p = Num 11111111111111112
    ∧ states (add RouteRecognizer_new [route seventeen_stars "h"] None).1 !! 34
      = Some s
    ∧ accepting s = Some acc
    ∧ specificity acc = Some (Num 11111111111111112).
Proof. vm_compute. do 3 eexists. split_and!; reflexivity. Qed.

Lemma posts_engine_built : built posts_engine.
Proof. unfold posts_engine. cbv zeta. repeat apply built_add. apply built_new. Qed.

(** [/posts/new] on [posts_engine]: the frontier holds the accepting states
    of [/posts/:id] (score 43) and of [/posts/new] (score 44); the result
    has the handler of the latter. *)
Lemma C1_witness :
  (∃ p, parse "/posts/:id" = Ok p ∧ parsed_val p = Num 43)
  ∧ ∃ res p i s acc hs,
      recognize true posts_engine "/posts/new" = Ok (Some res)
      ∧ prepare true "/posts/new" = Ok p
      ∧ i ∈ walk (states posts_engine) [rootState] (work_path p)
      ∧ states posts_engine !! i = Some s
      ∧ accepting s = Some acc
      ∧ arrays posts_engine !! handlers acc = Some hs
      ∧ entry_handler <$> entries res = handler <$> hs
      ∧ handler <$> hs = ["newPost"]
      ∧ ∀ j, j ∈ walk (states posts_engine) [rootState] (work_path p) →
             is_accepting (states posts_engine) j = true →
             ¬ num_lt (val (states posts_engine) i) (val (states posts_engine) j).
Proof.
  split.
  - destruct (parse "/posts/:id") as [p|] eqn:Hp; [|by vm_compute in Hp].
    exists p. split; [done|].
    destruct (proj1 (C1_specificity_and_choice (HV:=string) true) _ _ Hp) as [_ H16].
    rewrite H16; [|by vm_compute in Hp; injection Hp as <-; vm_compute; lia].
    vm_compute in Hp. injection Hp as <-. reflexivity.
  - destruct (recognize true posts_engine "/posts/new") as [[res|]|] eqn:Hr;
      try by vm_compute in Hr.
    destruct (proj2 (proj2 (C1_specificity_and_choice (HV:=string) true))
                posts_engine "/posts/new" res posts_engine_built Hr)
      as (p & i & s & acc & hs & Hp & Hi & Hs & Ha & Hhs & Hes & Hmax).
    exists res, p, i, s, acc, hs.
    split; [reflexivity|]. split; [exact Hp|]. split; [exact Hi|].
    split; [exact Hs|]. split; [exact Ha|]. split; [exact Hhs|].
    split; [exact Hes|]. split; [|exact Hmax].
    rewrite <- Hes. vm_compute in Hr. injection Hr as <-. reflexivity.
Defined.

(** ** Names that were never registered *)

Section unknown_names.
Context {HV : Type} {BI : Builtins} {NO : Normalizer}.
Variable ENCODE_AND_DECODE_PATH_SEGMENTS : bool.
Implicit Types (e : Engine (HV:=HV)).

(** A name for which [this.names[name]] is [undefined]: both calls throw
    the error that carries the name, [hasRoute] is false, and the engine is
    left as it is. *)
Lemma unknown_name_plain e name params :
  names_get (registry e) name = IsUndefined →
  generate ENCODE_AND_DECODE_PATH_SEGMENTS e name params
    = Throw (Error ("There is no route named " +:+ name))
  ∧ handlersFor e name = (e, Throw (Error ("There is no route named " +:+ name)))
  ∧ hasRoute e name = false.
Proof. intros H. unfold generate, handlersFor, hasRoute. by rewrite H. Qed.

(** C9: the code at the failing input.  On a new engine, where no name
    was ever registered, the name [constructor] is found in
    [Object.prototype]: [hasRoute] answers true, and [handlersFor] and
    [generate] fail with a [TypeError] instead of the error that carries
    the name.  A name that is no member of [Object.prototype], such as
    [nope], behaves as the claim says. *)
Theorem C9_inherited_name_is_found :
  let e := RouteRecognizer_new (HV:=HV) in
  hasRoute e "constructor" = true
  ∧ handlersFor e "constructor" = (e, Throw TypeError)
  ∧ generate ENCODE_AND_DECODE_PATH_SEGMENTS e "constructor" None = Throw TypeError
  ∧ hasRoute e "nope" = false
  ∧ handlersFor e "nope" = (e, Throw (Error "There is no route named nope"))
  ∧ generate ENCODE_AND_DECODE_PATH_SEGMENTS e "nope" None
    = Throw (Error "There is no route named nope").
Proof. by vm_compute. Qed.

End unknown_names.

(** ** Registration *)

Section registration.
Context {HV : Type} {BI : Builtins} {NO : Normalizer}.
Implicit Types (e : Engine (HV:=HV)).

(** A returning [add] with a non-empty [options.as] registers the name
    with one handler entry per route of the batch. *)
Lemma add_registers e routes name e' cur :
  built e → add e routes (Some name) = (e', Ok cur) → name ≠ "" →
  ∃ ps, Forall2 (λ route p, parse (path route) = Ok p) routes ps
        ∧ registered e' name (zip_with handler_of routes ps).
Proof.
  intros Hb Hadd Hne.
  destruct (add_accepting _ _ _ _ _ Hb Hadd)
    as (a & s & acc & Hloop & _ & _ & _ & _ & Harr & Hreg).
  apply add_routes_batch in Hloop as (ps & Hps & _ & Hh & _).
  exists ps. split; [done|]. eexists. split.
  - rewrite Hreg. simpl. apply String.eqb_neq in Hne. rewrite Hne.
    apply names_get_set_eq. by destruct (built_wf e Hb).
  - simpl. by rewrite Harr, Hh.
Qed.

End registration.

(** [post] is registered in [posts_engine]; [handlersFor] returns location
    3, and the entry of [showPost] stays registered whatever is stored
    there. *)
Lemma C10_witness :
  let hs := [ {| handler := "showPost"; names := ["id"]; shouldDecodes := [true] |} ] in
  registered posts_engine "post" hs
  ∧ ∃ e1,
      handlersFor posts_engine "post" = (e1, Ok 3)
      ∧ arrays posts_engine !! 3 = None
      ∧ arrays e1 !! 3 = Some hs
      ∧ states e1 = states posts_engine
      ∧ registry e1 = registry posts_engine
      ∧ ∀ xs,
          registered (store e1 3 xs) "post" hs
          ∧ ∃ e2 l2, handlersFor (store e1 3 xs) "post" = (e2, Ok l2)
                     ∧ arrays e2 !! l2 = Some hs.
Proof.
  intros hs.
  assert (Hreg : registered posts_engine "post" hs).
  { eexists. split; vm_compute; reflexivity. }
  split; [exact Hreg|].
  exact (C10_handlersFor_fresh_array posts_engine "post" hs Hreg).
Defined.

(** ** Query strings: parsing *)

Section query_parsing.
Context {BI : Builtins}.
Implicit Types (q : gmap string qvalue) (p k : string).

Lemma split_nonempty c s : split c s ≠ [].
Proof. destruct s as [|a r]; simpl; [done|]. destruct (Ascii.eqb a c); [done|]. by destruct (split c r). Qed.










End query_parsing.



(** ** The trailing slash *)

Section trailing_slash.
Context {HV : Type} {BI : Builtins} {NO : Normalizer}.
Variable ENCODE_AND_DECODE_PATH_SEGMENTS : bool.
Implicit Types (e : Engine (HV:=HV)).

Lemma substr0_app_drop n s : substr0 n s +:+ drop_str n s = s.
Proof.
  revert s. induction n as [|n IH]; intros [|a r]; simpl; try done.
  unfold String.app in *. simpl. by rewrite IH.
Qed.

(** A string that ends in [c] is its first [length - 1] characters
    followed by [c]. *)
Lemma ends_with_char_split c s :
  ends_with_char c s = true → s = substr0 (String.length s - 1) s +:+ chr c.
Proof.
  induction s as [|a r IH]; simpl; [done|].
  destruct r as [|b r'].
  - by intros ->%Ascii.eqb_eq.
  - intros Hr. specialize (IH Hr). simpl in IH. rewrite Nat.sub_0_r in IH.
    simpl. rewrite ?Nat.sub_0_r. unfold String.app in *. simpl.
    by rewrite <- IH.
Qed.

Lemma drop_slash_dropped w o :
  1 < String.length w → ends_with_char "/" w = true →
  drop_slash w o
  = (substr0 (String.length w - 1) w, substr0 (String.length w - 1) o, true).
Proof.
  intros Hlen Hend. unfold drop_slash. rewrite Hend.
  by destruct (Nat.ltb_spec 1 (String.length w)); [|lia].
Qed.

(** C4: when the working path has more than one character and ends in
    [/], the walk runs on the working path without that [/]; and when the
    source of the chosen state's [regex] ends in the Star group [(.+)$],
    the path matched against the [regex] is [originalPath] with a [/]
    appended. *)
Theorem C4_trailing_slash_dropped_and_restored e path path1 q w o :
  split_off path = Ok (path1, q) →
  decode_paths ENCODE_AND_DECODE_PATH_SEGMENTS path1 = Ok (w, o) →
  1 < String.length w →
  ends_with_char "/" w = true →
  ∃ p,
    prepare ENCODE_AND_DECODE_PATH_SEGMENTS path = Ok p
    ∧ w = work_path p +:+ "/"
    ∧ isSlashDropped p = true
    ∧ ∀ res,
        recognize ENCODE_AND_DECODE_PATH_SEGMENTS e path = Ok (Some res) →
        ∃ i s acc hs,
          head (solutions e (work_path p)) = Some i
          ∧ i ∈ walk (states e) [rootState] (work_path p)
          ∧ states e !! i = Some s
          ∧ accepting s = Some acc
          ∧ arrays e !! handlers acc = Some hs
          ∧ read_handlers ENCODE_AND_DECODE_PATH_SEGMENTS
              (regex_match (regex acc) (extraction_path p acc)) hs 1
            = Ok (entries res)
          ∧ (slice_last 5 (source (regex acc)) = "(.+)$" →
             extraction_path p acc = original_path p +:+ "/").
Proof.
  intros Hsplit Hdec Hlen Hend.
  eexists. split.
  { unfold prepare. rewrite Hsplit. simpl. rewrite Hdec. simpl.
    by rewrite (drop_slash_dropped _ _ Hlen Hend). }
  simpl. split; [by apply ends_with_char_split|]. split; [done|].
  intros res (p & i & s & acc & hs & Hp & Hh & Hs & Ha & Hhs & Hes & _)%recognize_Some.
  unfold prepare in Hp. rewrite Hsplit in Hp. simpl in Hp. rewrite Hdec in Hp.
  simpl in Hp. rewrite (drop_slash_dropped _ _ Hlen Hend) in Hp.
  injection Hp as <-. simpl in *.
  exists i, s, acc, hs. split_and!; try done.
  - apply head_Some_elem_of in Hh. unfold solutions, sortSolutions in Hh.
    apply js_sort_elem in Hh. by apply list_elem_of_filter in Hh as [_ ?].
  - intros Hsrc. unfold extraction_path. simpl.
    by rewrite Hsrc.
Qed.

End trailing_slash.

(** [/files/a/b/] on [files_engine]: the walk runs on [/files/a/b], the
    [regex] is matched against [/files/a/b/], and the parameter [path] is
    [a/b/]. *)
Lemma C4_witness :
  recognize true files_engine "/files/a/b/"
  = Ok (Some {| entries :=
                  [ {| entry_handler := "files";
                       params := {[ "path" := str "a/b/" ]};
                       isDynamic := true |} ];
                result_queryParams := ∅ |})
  ∧ ∃ p,
      prepare true "/files/a/b/" = Ok p
      ∧ "/files/a/b/" = work_path p +:+ "/"
      ∧ isSlashDropped p = true
      ∧ ∀ res,
          recognize true files_engine "/files/a/b/" = Ok (Some res) →
          ∃ i s acc hs,
            head (solutions files_engine (work_path p)) = Some i
            ∧ i ∈ walk (states files_engine) [rootState] (work_path p)
            ∧ states files_engine !! i = Some s
            ∧ accepting s = Some acc
            ∧ arrays files_engine !! handlers acc = Some hs
            ∧ read_handlers true
                (regex_match (regex acc) (extraction_path p acc)) hs 1
              = Ok (entries res)
            ∧ (slice_last 5 (source (regex acc)) = "(.+)$" →
               extraction_path p acc = original_path p +:+ "/").
Proof.
  split; [vm_compute; reflexivity|].
  apply (C4_trailing_slash_dropped_and_restored true files_engine
           "/files/a/b/" "/files/a/b/" ∅ "/files/a/b/" "/files/a/b/").
  - vm_compute. reflexivity.
  - vm_compute. reflexivity.
  - vm_compute. lia.
  - vm_compute. reflexivity.
Defined.

(** ** Results without a match *)

(** C3: the code at two failing inputs.  (1) The [$] of the static
    segment [a$b] is not among the [specials] that [regex] escapes, so the
    source [^/a$b$] holds an end-of-input assertion in its middle and
    matches no string; the walk still reaches the accepting state on
    [/a$b], and since the handler has no parameter name [findHandler]
    returns a result without looking at the failed match.  (2) The Star
    state takes every character but the group [(.+)] takes no line
    terminator: on [newline_path] the walk reaches the accepting state of
    [/*path], the match fails, and the capture lookup runs on [null]: a
    [TypeError]. *)
Theorem C3_result_without_match :
  (∃ s acc,
     states dollar_engine !! 4 = Some s
     ∧ accepting s = Some acc
     ∧ source (regex acc) = "^/a$b$"
     ∧ solutions dollar_engine "/a$b" = [4]
     ∧ regex_match (regex acc) "/a$b" = None
     ∧ recognize true dollar_engine "/a$b"
       = Ok (Some {| entries := [ {| entry_handler := "h"; params := ∅;
                                     isDynamic := false |} ];
                     result_queryParams := ∅ |}))
  ∧ (∃ s acc,
       states star_engine !! 2 = Some s
       ∧ accepting s = Some acc
       ∧ solutions star_engine newline_path = [2]
       ∧ regex_match (regex acc) newline_path = None
       ∧ recognize true star_engine newline_path = Throw TypeError
       ∧ recognize false star_engine newline_path = Throw TypeError).
Proof.
  split; vm_compute; do 2 eexists; split_and!; reflexivity.
Qed.

(** ** Strings *)

Section string_facts.

Lemma app_nil_l_str s : "" +:+ s = s.
Proof. done. Qed.

Lemma app_cons_str a r s : String a r +:+ s = String a (r +:+ s).
Proof. done. Qed.

Lemma app_nil_r_str s : s +:+ "" = s.
Proof. induction s as [|a r IH]; [done|]. by rewrite app_cons_str, IH. Qed.

Lemma app_assoc_str s1 s2 s3 : (s1 +:+ s2) +:+ s3 = s1 +:+ (s2 +:+ s3).
Proof. induction s1 as [|a r IH]; [done|]. by rewrite !app_cons_str, IH. Qed.

Lemma length_app_str s1 s2 :
  String.length (s1 +:+ s2) = String.length s1 + String.length s2.
Proof. induction s1 as [|a r IH]; [done|]. rewrite app_cons_str. simpl. by rewrite IH. Qed.

Lemma app_eq_nil_str s1 s2 : s1 +:+ s2 = "" → s1 = "" ∧ s2 = "".
Proof. destruct s1; [done|]. by rewrite app_cons_str. Qed.

Lemma mem_char_cons c a r :
  mem_char c (String a r) = Ascii.eqb a c || mem_char c r.
Proof.
  unfold mem_char. simpl. destruct (Ascii.eqb a c); [done|].
  by destruct (indexOf c r).
Qed.

Lemma mem_char_app c s1 s2 :
  mem_char c (s1 +:+ s2) = mem_char c s1 || mem_char c s2.
Proof.
  induction s1 as [|a r IH]; [done|].
  by rewrite app_cons_str, !mem_char_cons, IH, orb_assoc.
Qed.

Lemma mem_char_false_indexOf c s : mem_char c s = false → indexOf c s = None.
Proof. unfold mem_char. by destruct (indexOf c s). Qed.

Lemma substr0_length_app s1 s2 : substr0 (String.length s1) (s1 +:+ s2) = s1.
Proof.
  induction s1 as [|a r IH]; simpl.
  - by destruct s2.
  - by rewrite ?app_cons_str, IH.
Qed.

Lemma drop_length_app s1 s2 : drop_str (String.length s1) (s1 +:+ s2) = s2.
Proof.
  induction s1 as [|a r IH]; simpl.
  - by destruct s2.
  - by rewrite ?app_cons_str.
Qed.

Lemma ends_with_char_app c s1 s2 :
  s2 ≠ "" → ends_with_char c (s1 +:+ s2) = ends_with_char c s2.
Proof.
  intros Hne. induction s1 as [|a r IH]; [done|].
  rewrite app_cons_str. simpl. rewrite IH.
  destruct (r +:+ s2) eqn:Hr; [|done].
  by apply app_eq_nil_str in Hr as [_ ?].
Qed.

Lemma ends_with_char_mem c s : ends_with_char c s = true → mem_char c s = true.
Proof.
  induction s as [|a r IH]; [done|]. rewrite mem_char_cons. simpl.
  destruct r as [|b r'].
  - intros ->. done.
  - intros ?%IH. apply orb_true_iff. by right.
Qed.



Lemma join_app sep l1 l2 :
  l1 ≠ [] → l2 ≠ [] →
  join sep (l1 ++ l2) = join sep l1 +:+ sep +:+ join sep l2.
Proof.
  intros H1 H2. induction l1 as [|w l1 IH]; [done|].
  destruct l1 as [|w' l1'].
  - simpl. by destruct l2.
  - change (join sep ((w :: w' :: l1') ++ l2))
      with (w +:+ sep +:+ join sep ((w' :: l1') ++ l2)).
    rewrite IH by done.
    change (join sep (w :: w' :: l1')) with (w +:+ sep +:+ join sep (w' :: l1')).
    by rewrite !app_assoc_str.
Qed.

Lemma result_mapM_app {A B} (f : A → result B) l1 l2 :
  result_mapM f (l1 ++ l2) =
    (x ← result_mapM f l1; y ← result_mapM f l2; Ok (x ++ y)).
Proof.
  induction l1 as [|a l1 IH]; simpl.
  - by destruct (result_mapM f l2).
  - destruct (f a) as [b|]; simpl; [|done]. rewrite IH.
    destruct (result_mapM f l1); simpl; [|done].
    by destruct (result_mapM f l2).
Qed.

Lemma result_mapM_nonempty {A B} (f : A → result B) l k :
  result_mapM f l = Ok k → l ≠ [] → k ≠ [].
Proof.
  destruct l as [|a l]; [done|]. simpl.
  intros (b & _ & (ys & _ & [= <-])%bind_Ok)%bind_Ok. done.
Qed.

End string_facts.

(** ** Runs of the automaton *)

Section runs.
Implicit Types (sts : list State) (spec : CharSpec).

Lemma takes_spec sts ch c s cs :
  sts !! c = Some s → charSpec s = Some cs → takes sts ch c = spec_takes cs ch.
Proof. intros Hs Hcs. unfold takes. rewrite Hs. simpl. by rewrite Hcs. Qed.

Lemma takes_Some sts ch c :
  takes sts ch c = true →
  ∃ s cs, sts !! c = Some s ∧ charSpec s = Some cs ∧ spec_takes cs ch = true.
Proof.
  unfold takes. destruct (sts !! c) as [s|] eqn:Hs; simpl; [|done].
  destruct (charSpec s) as [cs|] eqn:Hcs; [|done].
  intros H. by exists s, cs.
Qed.

Lemma State_match_elem sts cur ch x :
  x ∈ State_match sts cur ch ↔
  ∃ s, sts !! cur = Some s ∧ x ∈ nextStates s ∧ takes sts ch x = true.
Proof.
  unfold State_match. destruct (sts !! cur) as [s|].
  - rewrite list_elem_of_filter. split.
    + intros [? ?]. by exists s.
    + by intros (s' & [= <-] & ? & ?).
  - split; [by intros ?%elem_of_nil|by intros (s' & ? & _)].
Qed.

Lemma extends_refl sts : extends sts sts.
Proof. intros i s Hs. by exists s. Qed.

Lemma extends_trans sts1 sts2 sts3 :
  extends sts1 sts2 → extends sts2 sts3 → extends sts1 sts3.
Proof.
  intros H12 H23 i s1 Hs1.
  destruct (H12 i s1 Hs1) as (s2 & Hs2 & Hc2 & Hn2).
  destruct (H23 i s2 Hs2) as (s3 & Hs3 & Hc3 & Hn3).
  exists s3. split_and!; [done|congruence|set_solver].
Qed.

Lemma State_match_mono sts sts' cur ch x :
  extends sts sts' → x ∈ State_match sts cur ch → x ∈ State_match sts' cur ch.
Proof.
  intros Hext (s & Hs & Hx & Ht)%State_match_elem.
  apply State_match_elem.
  destruct (Hext cur s Hs) as (s' & Hs' & _ & Hn).
  exists s'. split_and!; [done|by apply Hn|].
  apply takes_Some in Ht as (sx & cs & Hsx & Hcs & Ht).
  destruct (Hext x sx Hsx) as (sx' & Hsx' & Hcx' & _).
  rewrite (takes_spec sts' ch x sx' cs); [done..|congruence].
Qed.

Lemma reaches_mono sts sts' i w j :
  extends sts sts' → reaches sts i w j → reaches sts' i w j.
Proof.
  intros Hext. induction 1 as [|i ch x r j Hx _ IH]; [constructor|].
  econstructor; [|done]. by eapply State_match_mono.
Qed.


(** A run from a state of the frontier ends in the frontier that the walk
    returns. *)
Lemma reaches_walk sts i w j states :
  reaches sts i w j → i ∈ states → j ∈ walk sts states w.
Proof.
  intros H. revert states. induction H as [|i ch x r j Hx _ IH]; intros states Hi.
  - done.
  - simpl.
    assert (Hin : x ∈ recognizeChar sts states ch).
    { apply recognizeChar_elem. by exists i. }
    destruct (recognizeChar sts states ch) as [|y next] eqn:Hn;
      [by apply elem_of_nil in Hin|].
    by apply IH.
Qed.

Lemma State_put_extends sts cur spec sts' c :
  cur < length sts → State_put sts cur spec = (sts', c) → extends sts sts'.
Proof.
  intros Hcur. rewrite State_put_unfold.
  destruct (State_get sts cur spec); intros [= <- <-]; [apply extends_refl|].
  intros i s Hs. pose proof (lookup_lt_Some _ _ _ Hs) as Hi.
  destruct (decide (i = cur)) as [->|Hne].
  - exists (push_child (length sts) s).
    split; [by apply put_new_lookup_cur|]. split; [done|].
    simpl. set_solver.
  - exists s. by rewrite put_new_lookup_other.
Qed.




End runs.

(** ** The run that a route leaves in the automaton *)

Section route_runs.
Context {HV : Type} {BI : Builtins} {NO : Normalizer}.
Implicit Types (sts : list State) (a : AddLoop (HV:=HV)) (e : Engine (HV:=HV)).

Lemma mem_char_neq c d s : mem_char c s = true → mem_char d s = false → c ≠ d.
Proof. intros Hc Hd ->. congruence. Qed.

Lemma mem_char_chr ch : mem_char ch (chr ch) = true.
Proof. unfold mem_char, chr. simpl. by rewrite Ascii.eqb_refl. Qed.




Lemma add_segment_eps a seg : is_Epsilon seg = true → add_segment a seg = a.
Proof. intros H. unfold add_segment. by rewrite H. Qed.

Lemma add_segment_unfold a seg :
  is_Epsilon seg = false →
  ∃ sts1 c1 sts2 c2,
    State_put (loop_states a) (currentState a) slash_spec = (sts1, c1)
    ∧ eachChar seg sts1 c1 = (sts2, c2)
    ∧ add_segment a seg =
        {| loop_states := sts2; currentState := c2;
           loop_regex := (loop_regex a +:+ "/") +:+ Segment_regex seg;
           loop_val := loop_val a; loop_handlers := loop_handlers a;
           allSegments := allSegments a; isEmpty := false |}.
Proof.
  intros Heps. unfold add_segment. rewrite Heps.
  destruct (State_put _ _ slash_spec) as [sts1 c1] eqn:Hput.
  destruct (eachChar seg sts1 c1) as [sts2 c2] eqn:Heach.
  by exists sts1, c1, sts2, c2.
Qed.


Lemma solid_cons seg segs :
  solid (seg :: segs) = if is_Epsilon seg then solid segs else seg :: solid segs.
Proof.
  unfold solid. rewrite filter_cons. destruct (is_Epsilon seg).
  - by rewrite decide_False.
  - by rewrite decide_True.
Qed.

Lemma spell_cons u us : spell (u :: us) = "/" +:+ u +:+ spell us.
Proof. unfold spell. simpl. by rewrite app_assoc_str. Qed.


Lemma add_segments_regex segs a :
  loop_regex (foldl add_segment a segs) = loop_regex a +:+ pattern segs
  ∧ isEmpty (foldl add_segment a segs)
    = isEmpty a && bool_decide (solid segs = []).
Proof.
  revert a. induction segs as [|seg segs IH]; intros a; simpl.
  - unfold pattern. simpl. by rewrite app_nil_r_str, andb_true_r.
  - destruct (IH (add_segment a seg)) as [-> ->].
    unfold pattern. rewrite solid_cons.
    destruct (is_Epsilon seg) eqn:Heps.
    + by rewrite (add_segment_eps a seg Heps).
    + destruct (add_segment_unfold a seg Heps) as (? & ? & ? & ? & _ & _ & ->).
      simpl. rewrite andb_false_r. split; [|done].
      by rewrite !app_assoc_str.
Qed.


End route_runs.

(** ** The regular expression of a route *)

Section route_regex.
Implicit Types (segs : list Segment) (ws : list string).

Lemma is_special_cases c :
  is_special c = false →
  Ascii.eqb c "\" = false ∧ Ascii.eqb c "(" = false ∧ Ascii.eqb c "/" = false.
Proof.
  unfold is_special, specials. intros H%bool_decide_eq_false.
  split_and!; apply Ascii.eqb_neq; intros E; apply H; rewrite E;
    repeat first [apply list_elem_of_here | apply list_elem_of_further].
Qed.

Lemma is_special_not_anchor c :
  is_special c = true → Ascii.eqb c "^" = false ∧ Ascii.eqb c "$" = false.
Proof.
  unfold is_special, specials. intros H%bool_decide_eq_true.
  split; apply Ascii.eqb_neq; intros E; rewrite E in H; revert H;
    by apply (bool_decide_eq_false_1 _).
Qed.

(** [RegExp_new] reads an escaped string character by character. *)
Lemma parse_pattern_escape s rest :
  parse_pattern (escape s +:+ rest)
  = (λ items, (char_item <$> list_ascii_of_string s) ++ items)
      <$> parse_pattern rest.
Proof.
  unfold escape. induction s as [|c r IH]; cbn [replace_char list_ascii_of_string fmap list_fmap].
  - rewrite app_nil_l_str. by destruct (parse_pattern rest).
  - unfold char_item at 1.
    rewrite app_assoc_str.
    destruct (is_special c) eqn:Hsp.
    + destruct (is_special_not_anchor c Hsp) as [E1 E2]. rewrite E1, E2.
      change (chr c) with (String c ""). rewrite !app_cons_str, ?app_nil_l_str.
      cbn [parse_pattern]. change (Ascii.eqb "\" "^") with false.
      change (Ascii.eqb "\" "$") with false. change (Ascii.eqb "\" "\") with true.
      cbn iota. rewrite Hsp, IH.
      by destruct (parse_pattern rest).
    + destruct (is_special_cases c Hsp) as (Hb & Hp & Hs).
      change (chr c) with (String c ""). rewrite !app_cons_str, ?app_nil_l_str.
      cbn [parse_pattern].
      rewrite Hb, Hp, Hs, Hsp, IH.
      destruct (Ascii.eqb c "^"), (Ascii.eqb c "$");
        by destruct (parse_pattern rest).
Qed.

Lemma parse_pattern_segment seg rest :
  is_Epsilon seg = false →
  parse_pattern (("/" +:+ Segment_regex seg) +:+ rest)
  = (λ items, seg_items seg ++ items) <$> parse_pattern rest.
Proof.
  intros Heps. rewrite app_assoc_str.
  change ("/" +:+ ?x) with (String "/" x).
  destruct seg as [s|n|n|]; [| | |done].
  - cbn [parse_pattern Segment_regex seg_items].
    change (Ascii.eqb "/" "^") with false. change (Ascii.eqb "/" "$") with false.
    change (Ascii.eqb "/" "\") with false. change (Ascii.eqb "/" "(") with false.
    change (Ascii.eqb "/" "/") with true. cbn iota.
    rewrite parse_pattern_escape. by destruct (parse_pattern rest).
  - cbn [Segment_regex seg_items]. rewrite !app_cons_str, app_nil_l_str.
    simpl. destruct (parse_pattern rest); reflexivity.
  - cbn [Segment_regex seg_items]. rewrite !app_cons_str, app_nil_l_str.
    simpl. destruct (parse_pattern rest); reflexivity.
Qed.

Lemma pattern_cons seg segs :
  pattern (seg :: segs) =
    if is_Epsilon seg then pattern segs
    else ("/" +:+ Segment_regex seg) +:+ pattern segs.
Proof. unfold pattern. rewrite solid_cons. by destruct (is_Epsilon seg). Qed.

Lemma parse_pattern_pattern segs rest :
  parse_pattern (pattern segs +:+ rest)
  = (λ items, concat (seg_items <$> solid segs) ++ items) <$> parse_pattern rest.
Proof.
  induction segs as [|seg segs IH].
  - unfold pattern. simpl. rewrite app_nil_l_str. by destruct (parse_pattern rest).
  - rewrite pattern_cons, solid_cons. destruct (is_Epsilon seg) eqn:Heps; [done|].
    rewrite app_assoc_str, parse_pattern_segment, IH by done.
    destruct (parse_pattern rest); simpl; [|done]. by rewrite app_assoc.
Qed.

(** The [regex] of a batch with the segments [segs]. *)
Lemma RegExp_new_pattern segs :
  RegExp_new (("^" +:+ pattern segs) +:+ "$")
  = Ok {| source := ("^" +:+ pattern segs) +:+ "$";
          program := RStart :: concat (seg_items <$> solid segs) ++ [REnd] |}.
Proof.
  unfold RegExp_new. rewrite app_assoc_str.
  change ("^" +:+ ?x) with (String "^" x).
  cbn [parse_pattern]. change (Ascii.eqb "^" "^") with true. cbn iota.
  by rewrite parse_pattern_pattern.
Qed.

End route_regex.

(** ** What the regular expression of a route captures *)

Section route_match.
Implicit Types (segs : list Segment) (ws : list string).

Lemma match_chars s p b input :
  mem_char "^" s = false → mem_char "$" s = false →
  match_here ((char_item <$> list_ascii_of_string s) ++ p) b (s +:+ input)
  = match_here p (if String.eqb s "" then b else false) input.
Proof.
  revert b. induction s as [|c r IH]; intros b; [done|].
  rewrite !mem_char_cons. intros [Hc Hr]%orb_false_iff [Hd Hr']%orb_false_iff.
  rewrite app_cons_str. cbn [list_ascii_of_string fmap list_fmap app].
  unfold char_item at 1. rewrite Hc, Hd. cbn [match_here].
  rewrite Ascii.eqb_refl, IH by done.
  cbn [String.eqb]. by destruct (String.eqb r "").
Qed.

Lemma spell_head ws : spell ws = "" ∨ ∃ r, spell ws = String "/" r.
Proof.
  destruct ws as [|w ws]; [by left|right].
  rewrite spell_cons. by eexists.
Qed.

(** A group takes a whole piece when the piece is in its class and what
    follows is not. *)
Lemma span_piece cls w rest :
  (∀ c, mem_char c w = true → class_matches cls c = true) →
  (rest = "" ∨ ∃ c r, rest = String c r ∧ class_matches cls c = false) →
  span cls (w +:+ rest) = String.length w.
Proof.
  intros Hw Hrest. induction w as [|a r IH].
  - rewrite app_nil_l_str. destruct Hrest as [->|(c & r & -> & Hc)]; [done|].
    simpl. by rewrite Hc.
  - rewrite app_cons_str. simpl. rewrite (Hw a).
    + f_equal. apply IH. intros c Hc. apply Hw.
      rewrite mem_char_cons, Hc. by rewrite orb_true_r.
    + rewrite mem_char_cons, Ascii.eqb_refl. done.
Qed.

Lemma longest_first_top {A} n (k : nat → option A) r :
  n ≠ 0 → k n = Some r → longest_first n k = Some r.
Proof. destruct n; [done|]. simpl. by intros _ ->. Qed.

Lemma length_nonempty s : s ≠ "" → String.length s ≠ 0.
Proof. by destruct s. Qed.

Lemma class_NotSlash w c :
  mem_char "/" w = false → mem_char c w = true → class_matches NotSlash c = true.
Proof.
  intros Hs Hc. simpl. apply negb_true_iff, Ascii.eqb_neq.
  exact (mem_char_neq _ _ _ Hc Hs).
Qed.

Lemma class_AnyChar w c :
  mem_char "010" w = false → mem_char "013" w = false →
  mem_char c w = true → class_matches AnyChar c = true.
Proof.
  intros Hn Hr Hc. simpl. unfold is_line_terminator.
  apply negb_true_iff, orb_false_iff.
  split; apply Ascii.eqb_neq; eapply mem_char_neq; eauto.
Qed.

(** The pattern of the segments matches the path that spells one matching
    piece per segment, and captures the pieces of the Dynamic and Star
    segments. *)
Lemma match_here_pieces segs ws b :
  Forall2 matches_seg segs ws → stars_last segs →
  match_here (concat (seg_items <$> segs) ++ [REnd]) b (spell ws)
  = Some (captures_of segs ws).
Proof.
  intros HF. revert b. induction HF as [|seg w segs ws Hm HF IH]; intros b Hlast.
  - done.
  - rewrite spell_cons. cbn [fmap list_fmap concat].
    unfold seg_items at 1. rewrite <- !app_assoc.
    rewrite app_cons_str, app_nil_l_str. cbn [app match_here].
    rewrite Ascii.eqb_refl.
    destruct seg as [s|n|n|]; cbn [matches_seg captures_of stars_last] in *.
    + destruct Hm as (-> & Hc & Hd). rewrite match_chars by done.
      rewrite IH by done. done.
    + destruct Hm as (Hne & Hs). cbn [app match_here].
      rewrite span_piece.
      * apply longest_first_top; [by apply length_nonempty|].
        rewrite substr0_length_app, drop_length_app, IH by done. done.
      * intros c. by apply class_NotSlash.
      * destruct (spell_head ws) as [->|(r & ->)]; [by left|right].
        by exists "/"%char, r.
    + destruct Hm as (Hne & Hn & Hr). subst segs.
      apply Forall2_nil_inv_l in HF as ->. cbn [app match_here].
      change (spell []) with "". rewrite span_piece.
      * apply longest_first_top; [by apply length_nonempty|].
        by rewrite substr0_length_app, drop_length_app.
      * intros c. by apply class_AnyChar.
      * by left.
    + done.
Qed.

Lemma regex_match_pieces re segs ws :
  program re = RStart :: concat (seg_items <$> segs) ++ [REnd] →
  Forall2 matches_seg segs ws → stars_last segs →
  regex_match re (spell ws) = Some (captures_of segs ws).
Proof.
  intros Hp HF Hlast. unfold regex_match. rewrite Hp.
  assert (match_here (RStart :: concat (seg_items <$> segs) ++ [REnd]) true (spell ws)
          = Some (captures_of segs ws)) as H.
  { cbn [match_here]. by apply match_here_pieces. }
  revert H. generalize (RStart :: concat (seg_items <$> segs) ++ [REnd]).
  intros items H. destruct (spell ws); unfold search; fold search; by rewrite H.
Qed.

End route_match.

(** ** What [parse] records about the segments *)

Section parse_shape.
Context {NO : Normalizer}.





End parse_shape.

(** ** What [generate] writes *)

Section generate_facts.
Context {HV : Type} {BI : Builtins} {NO : Normalizer}.
Implicit Types (V : gmap string string) (segs : list Segment) (ws : list string).




Lemma starts_with_spell ws : ws ≠ [] → starts_with_char "/" (spell ws) = true.
Proof. destruct ws as [|w ws]; [done|]. by rewrite spell_cons. Qed.



End generate_facts.

(** ** From the generated path back to the values *)

Section read_back.
Context {HV : Type} {BI : Builtins} {NO : Normalizer}.
Implicit Types (V : gmap string string) (segs : list Segment) (ws : list string).
Implicit Types (e : Engine (HV:=HV)).




End read_back.

(** ** [generate] and [recognize], one after the other *)

Section round_trip.
Context {HV : Type} {BI : Builtins} {NO : Normalizer}.
Implicit Types (e : Engine (HV:=HV)) (V : gmap string string).


Lemma set_accepting_extends (sts : list (State)) acc cur :
  extends sts (alter (set_accepting acc) cur sts).
Proof.
  intros i s Hs. destruct (decide (i = cur)) as [->|Hne].
  - exists (set_accepting acc s). rewrite list_lookup_alter_eq, Hs.
    split_and!; [done|done|]. by intros x.
  - exists s. rewrite list_lookup_alter_ne by done.
    split_and!; [done|done|]. by intros x.
Qed.




End round_trip.

Section round_trip_theorem.
Context {HV : Type} {BI : Builtins} {NO : Normalizer}.
Implicit Types (e : Engine (HV:=HV)) (V : gmap string string).


End round_trip_theorem.


(** ** The parts of a path that [recognize] sets aside *)

Section path_parts.
Context {HV : Type} {BI : Builtins} {NO : Normalizer}.
Variable ENCODE_AND_DECODE_PATH_SEGMENTS : bool.
Implicit Types (e : Engine (HV:=HV)).

Lemma indexOf_app_fresh c p r :
  mem_char c p = false → indexOf c (p +:+ String c r) = Some (String.length p).
Proof.
  induction p as [|a p IH]; intros Hp.
  - rewrite app_nil_l_str. simpl. by rewrite Ascii.eqb_refl.
  - rewrite mem_char_cons in Hp. apply orb_false_iff in Hp as [Ha Hp].
    rewrite app_cons_str. simpl. by rewrite Ha, (IH Hp).
Qed.

Lemma indexOf_cons_other c a r :
  Ascii.eqb a c = false → indexOf c (String a r) = S <$> indexOf c r.
Proof. intros H. simpl. by rewrite H. Qed.

Lemma drop_after p c q : drop_str (S (String.length p)) (p +:+ String c q) = q.
Proof. induction p as [|a p IH]; [done|]. by rewrite app_cons_str. Qed.

(** [recognize] depends on the path through [prepare] alone. *)
Lemma recognize_prepare e path path' :
  prepare ENCODE_AND_DECODE_PATH_SEGMENTS path
  = prepare ENCODE_AND_DECODE_PATH_SEGMENTS path' →
  recognize ENCODE_AND_DECODE_PATH_SEGMENTS e path
  = recognize ENCODE_AND_DECODE_PATH_SEGMENTS e path'.
Proof. intros H. unfold recognize. by rewrite H. Qed.

(** What follows a [#] is ignored. *)
Theorem recognize_ignores_fragment e p f :
  mem_char "#" p = false →
  recognize ENCODE_AND_DECODE_PATH_SEGMENTS e (p +:+ String "#" f)
  = recognize ENCODE_AND_DECODE_PATH_SEGMENTS e p.
Proof.
  intros Hp. apply recognize_prepare. unfold prepare, split_off.
  rewrite (indexOf_app_fresh _ _ _ Hp), substr0_length_app.
  by rewrite (mem_char_false_indexOf _ _ Hp).
Qed.

Lemma findHandler_query e acc originalPath q :
  findHandler ENCODE_AND_DECODE_PATH_SEGMENTS e acc originalPath q
  = with_query q
      <$> findHandler ENCODE_AND_DECODE_PATH_SEGMENTS e acc originalPath ∅.
Proof.
  unfold findHandler. destruct (arrays e !! handlers acc) as [hs|]; [|done].
  by destruct (read_handlers _ _ hs 1).
Qed.

Lemma recognize_with_query e p q :
  mem_char "#" p = false → mem_char "?" p = false → mem_char "#" q = false →
  recognize ENCODE_AND_DECODE_PATH_SEGMENTS e (p +:+ String "?" q)
  = mbind (M:=result)
      (λ qp, mbind (M:=result)
               (λ r : option RecognizeResults, Ok (with_query qp <$> r))
               (recognize ENCODE_AND_DECODE_PATH_SEGMENTS e p))
      (parseQueryString q).
Proof.
  intros Hp Hq Hf. unfold recognize, prepare, split_off.
  assert (mem_char "#" (p +:+ String "?" q) = false) as Hh.
  { rewrite mem_char_app, Hp, mem_char_cons, Hf. done. }
  rewrite (mem_char_false_indexOf _ _ Hh), (mem_char_false_indexOf _ _ Hp).
  rewrite (indexOf_app_fresh _ _ _ Hq), (mem_char_false_indexOf _ _ Hq).
  rewrite substr0_length_app.
  rewrite drop_after.
  destruct (parseQueryString q) as [qp|ex]; [|done].
  cbn [mbind result_bind].
  set (path := if starts_with_char "/" p then p else "/" +:+ p).
  destruct (decode_paths ENCODE_AND_DECODE_PATH_SEGMENTS path)
    as [[work original]|ex]; [|done].
  cbn [mbind result_bind].
  destruct (drop_slash work original) as [[work' original'] dropped].
  cbn [mbind result_bind work_path query].
  destruct (head (solutions e work') ≫= λ i, states e !! i ≫= accepting)
    as [acc|]; [|done].
  rewrite findHandler_query.
  unfold extraction_path. cbn [isSlashDropped original_path].
  by destruct (findHandler _ e acc _ ∅).
Qed.

(** A query string changes [queryParams] and nothing else: the route is
    chosen and its parameters are read as for the path without it.  The
    query is parsed first, so its exception comes first. *)
Theorem recognize_query_apart e p q :
  mem_char "#" p = false → mem_char "?" p = false → mem_char "#" q = false →
  recognize ENCODE_AND_DECODE_PATH_SEGMENTS e (p +:+ String "?" q)
  = mbind (M:=result)
      (λ qp, mbind (M:=result)
               (λ r : option RecognizeResults, Ok (with_query qp <$> r))
               (recognize ENCODE_AND_DECODE_PATH_SEGMENTS e p))
      (parseQueryString q).
Proof. apply recognize_with_query. Qed.

(** A recognizer without routes takes no path: [recognize] returns
    [undefined] whenever reading the query and decoding do not throw. *)
Theorem recognize_without_routes path :
  recognize ENCODE_AND_DECODE_PATH_SEGMENTS (RouteRecognizer_new (HV:=HV)) path
  = (prepare ENCODE_AND_DECODE_PATH_SEGMENTS path ≫= λ _, Ok None).
Proof.
  unfold recognize.
  destruct (prepare ENCODE_AND_DECODE_PATH_SEGMENTS path) as [p|ex]; [|done].
  unfold mbind at 1 3. unfold result_bind.
  assert (solutions RouteRecognizer_new (work_path p) = []) as ->; [|done].
  unfold solutions. by destruct (work_path p).
Qed.

End path_parts.

(** [/posts/1#top] on [posts_engine]. *)
Lemma recognize_ignores_fragment_witness :
  recognize true posts_engine "/posts/1#top"
  = recognize true posts_engine "/posts/1".
Proof.
  exact (recognize_ignores_fragment true posts_engine "/posts/1" "top" eq_refl).
Defined.

(** [/posts/1?a=b] on [posts_engine]. *)
Lemma recognize_query_apart_witness :
  recognize true posts_engine "/posts/1?a=b"
  = mbind (M:=result)
      (λ qp, mbind (M:=result)
               (λ r : option RecognizeResults, Ok (with_query qp <$> r))
               (recognize true posts_engine "/posts/1"))
      (parseQueryString "a=b").
Proof.
  exact (recognize_query_apart true posts_engine "/posts/1" "a=b"
           eq_refl eq_refl eq_refl).
Defined.

(** ** The leading slash *)

Section leading_slash.
Context {HV : Type} {BI : Builtins} {NO : Normalizer}.
Variable ENCODE_AND_DECODE_PATH_SEGMENTS : bool.
Implicit Types (e : Engine (HV:=HV)).

Lemma substr0_slash k p : substr0 (S k) ("/" +:+ p) = "/" +:+ substr0 k p.
Proof. done. Qed.

Lemma split_off_slash p :
  starts_with_char "/" p = false →
  split_off ("/" +:+ p) = split_off p.
Proof.
  intros Hp. unfold split_off.
  change ("/" +:+ p) with (String "/" p).
  rewrite (indexOf_cons_other "#" "/" p eq_refl).
  set (p1 := match indexOf "#" p with Some k => substr0 k p | None => p end).
  assert (match S <$> indexOf "#" p with
          | Some hashStart => substr0 hashStart (String "/" p)
          | None => String "/" p
          end = String "/" p1) as ->.
  { unfold p1. by destruct (indexOf "#" p). }
  assert (starts_with_char "/" p1 = false) as Hp1.
  { unfold p1. destruct (indexOf "#" p) as [[|k]|]; [done| |done].
    by destruct p. }
  rewrite (indexOf_cons_other "?" "/" p1 eq_refl).
  destruct (indexOf "?" p1) as [k|] eqn:Hk; cbn [fmap option_fmap option_map].
  - change (drop_str (S (S k)) (String "/" p1)) with (drop_str (S k) p1).
    destruct (parseQueryString (drop_str (S k) p1)); [|done].
    cbn [mbind result_bind]. cbn [substr0 starts_with_char].
    rewrite Ascii.eqb_refl.
    assert (starts_with_char "/" (substr0 k p1) = false) as ->; [|done].
    destruct k; [done|]. by destruct p1.
  - cbn [mbind result_bind starts_with_char]. by rewrite Ascii.eqb_refl, Hp1.
Qed.

(** A leading [/] is optional, in the pattern of a route as in the path
    to recognize. *)
Theorem leading_slash_optional e p h routes as_name :
  starts_with_char "/" p = false →
  add e ({| path := "/" +:+ p; route_handler := h |} :: routes) as_name
  = add e ({| path := p; route_handler := h |} :: routes) as_name
  ∧ recognize ENCODE_AND_DECODE_PATH_SEGMENTS e ("/" +:+ p)
    = recognize ENCODE_AND_DECODE_PATH_SEGMENTS e p.
Proof.
  intros Hp. split.
  - unfold add. cbn [add_routes path route_handler].
    assert (parse ("/" +:+ p) = parse p) as ->; [|done].
    unfold parse. by rewrite Hp.
  - apply recognize_prepare. unfold prepare. by rewrite split_off_slash.
Qed.

End leading_slash.

(** The pattern and the path [posts/1], with and without the [/]. *)
Lemma leading_slash_optional_witness :
  add posts_engine [route "/posts/1" "first"] None
  = add posts_engine [route "posts/1" "first"] None
  ∧ recognize true posts_engine "/posts/1" = recognize true posts_engine "posts/1".
Proof.
  exact (leading_slash_optional true posts_engine "posts/1" "first" [] None eq_refl).
Defined.

(** ** The parameters that [parse] records *)

Section parse_parameters.
Context {NO : Normalizer}.




End parse_parameters.


(** ** What [generate] returns *)

Section generate_results.
Context {HV : Type} {BI : Builtins} {NO : Normalizer}.
Variable ENCODE_AND_DECODE_PATH_SEGMENTS : bool.
Implicit Types (e : Engine (HV:=HV)).



Lemma generate_segments_None output segs :
  generate_segments ENCODE_AND_DECODE_PATH_SEGMENTS output segs None
  = if bool_decide (segment_names segs = [])
    then Ok (output +:+ spell (static_texts segs))
    else Throw TypeError.
Proof.
  revert output. induction segs as [|seg segs IH]; intros output.
  - simpl. by rewrite app_nil_r_str.
  - cbn [generate_segments]. destruct seg as [t|n|n|]; cbn [is_Epsilon].
    + cbn [Segment_generate mbind result_bind]. rewrite IH.
      change (segment_names (StaticSegment t :: segs)) with (segment_names segs).
      change (static_texts (StaticSegment t :: segs))
        with (t :: static_texts segs).
      case_bool_decide; [|done]. by rewrite spell_cons, !app_assoc_str.
    + done.
    + done.
    + by rewrite IH.
Qed.

(** Without [params], [generate] returns the static text of a route that
    has no parameter, and throws a [TypeError] for every other route. *)
Theorem generate_without_params e name r :
  names_get (registry e) name = IsRoute r →
  generate ENCODE_AND_DECODE_PATH_SEGMENTS e name None
  = if bool_decide (segment_names (segments r) = [])
    then Ok (route_path (static_texts (segments r)))
    else Throw TypeError.
Proof.
  intros Hr. unfold generate. rewrite Hr, generate_segments_None.
  case_bool_decide; [|done]. rewrite app_nil_l_str.
  cbn [mbind result_bind option_bind].
  destruct (static_texts (segments r)) as [|t ts]; [done|].
  by rewrite (starts_with_spell (t :: ts)).
Qed.

End generate_results.


Lemma generate_without_params_witness :
  generate true posts_engine "post" None = Throw TypeError.
Proof.
  apply (generate_without_params true posts_engine "post"
           {| segments := [StaticSegment "posts"; DynamicSegment "id"];
              route_handlers := 0 |}).
  vm_compute. reflexivity.
Defined.

(** ** The exceptions of [add] *)

Section add_exceptions.
Context {HV : Type} {BI : Builtins} {NO : Normalizer}.
Implicit Types (a : AddLoop (HV:=HV)) (e : Engine (HV:=HV)).

Lemma concat_str_app l1 l2 :
  concat_str (l1 ++ l2) = concat_str l1 +:+ concat_str l2.
Proof.
  induction l1 as [|w l1 IH]; [done|]. simpl. unfold concat_str in *. simpl.
  by rewrite IH, app_assoc_str.
Qed.

Lemma pattern_app segs1 segs2 :
  pattern (segs1 ++ segs2) = pattern segs1 +:+ pattern segs2.
Proof.
  unfold pattern, solid. by rewrite filter_app, fmap_app, concat_str_app.
Qed.

Lemma add_routes_regex routes a a' r :
  add_routes routes a = (a', r) →
  ∃ segs, loop_regex a' = loop_regex a +:+ pattern segs.
Proof.
  revert a. induction routes as [|route routes IH]; intros a; simpl.
  - intros [= <- <-]. exists []. by rewrite app_nil_r_str.
  - destruct (parse (path route)) as [p|ex] eqn:Hp.
    2:{ intros [= <- <-]. exists []. by rewrite app_nil_r_str. }
    intros (segs & ->)%IH. cbn [loop_regex].
    match goal with
    | |- context [foldl add_segment ?a0 (results p)] =>
        destruct (add_segments_regex (results p) a0) as [-> _]
    end.
    cbn [loop_regex]. exists (results p ++ segs).
    by rewrite pattern_app, app_assoc_str.
Qed.

Lemma add_routes_Throw routes a a' ex :
  add_routes routes a = (a', Throw ex) →
  ∃ route, route ∈ routes ∧ parse (path route) = Throw ex.
Proof.
  revert a. induction routes as [|route routes IH]; intros a; simpl; [done|].
  destruct (parse (path route)) as [p|ex'] eqn:Hp.
  - intros (route' & Hin & Hthrow)%IH. exists route'.
    split; [by apply list_elem_of_further|done].
  - intros [= <- <-]. exists route. split; [apply list_elem_of_here|done].
Qed.

Lemma parse_segments_Throw segments ex :
  parse_segments segments = Throw ex → ∃ s, normalizeSegment s = Throw ex.
Proof.
  induction segments as [|segment rest IH]; [done|]. simpl.
  destruct (capture_after ":" segment) as [name|].
  { unfold DynamicSegment_new.
    destruct (normalizeSegment name) as [n|ex'] eqn:Hn;
      [|intros [= <-]; by exists name].
    cbn [fmap result_fmap mbind result_bind].
    destruct (parse_segments rest) as [[[[rs ns] ds] v]|ex']; [done|].
    intros [= <-]. by apply IH. }
  destruct (capture_after "*" segment) as [name|].
  { destruct (parse_segments rest) as [[[[rs ns] ds] v]|ex']; [done|].
    intros [= <-]. by apply IH. }
  destruct (String.eqb segment "").
  { destruct (parse_segments rest) as [[[[rs ns] ds] v]|ex']; [done|].
    intros [= <-]. by apply IH. }
  unfold StaticSegment_new.
  destruct (normalizeSegment segment) as [n|ex'] eqn:Hn;
    [|intros [= <-]; by exists segment].
  cbn [fmap result_fmap mbind result_bind].
  destruct (parse_segments rest) as [[[[rs ns] ds] v]|ex']; [done|].
  intros [= <-]. by apply IH.
Qed.

Lemma RegExp_new_total segs tail :
  tail = "" ∨ tail = "/" →
  ∃ re, RegExp_new ((("^" +:+ pattern segs) +:+ tail) +:+ "$") = Ok re.
Proof.
  intros Ht. unfold RegExp_new. rewrite !app_assoc_str.
  change ("^" +:+ ?x) with (String "^" x). cbn [parse_pattern].
  change (Ascii.eqb "^" "^") with true. cbn iota.
  rewrite parse_pattern_pattern.
  destruct Ht as [-> | ->]; by eexists.
Qed.

(** [add] throws nothing of its own: an exception that leaves [add] was
    thrown by [normalizeSegment] on a piece of one of the patterns.  The
    names registry and the handler arrays are then as before the call. *)
Theorem add_throws_like_normalizeSegment e routes as_name e' ex :
  add e routes as_name = (e', Throw ex) →
  (∃ route s, route ∈ routes ∧ parse (path route) = Throw ex
              ∧ normalizeSegment s = Throw ex)
  ∧ registry e' = registry e ∧ arrays e' = arrays e.
Proof.
  unfold add.
  destruct (add_routes routes (add_init e)) as [a [[]|ex']] eqn:Hloop.
  - destruct (add_routes_regex _ _ _ _ Hloop) as (segs & Hsrc).
    cbn [add_init loop_regex] in Hsrc.
    unfold add_finish. rewrite Hsrc.
    destruct (isEmpty a).
    + destruct (State_put _ _ slash_spec) as [sts cur].
      destruct (RegExp_new_total segs "/") as [re ->]; [by right|]. done.
    + destruct (RegExp_new_total segs "") as [re Hre]; [by left|].
      rewrite app_nil_r_str in Hre. rewrite Hre. done.
  - intros [= <- <-]. split; [|done].
    destruct (add_routes_Throw _ _ _ _ Hloop) as (route & Hin & Hthrow).
    unfold parse in Hthrow.
    destruct (parse_segments _) as [[[[rs ns] ds] v]|ex''] eqn:Hsegs; [done|].
    injection Hthrow as ->.
    destruct (parse_segments_Throw _ _ Hsegs) as [s Hs].
    exists route, s. split_and!; [done| |done].
    unfold parse. by rewrite Hsegs.
Qed.

End add_exceptions.

(** The pattern [/%zz] under [policy_normalizer]: no escape sequence. *)
Lemma add_throws_like_normalizeSegment_witness :
  (∃ r s, r ∈ [route "/%zz" "h"] ∧ parse (path r) = Throw URIError
          ∧ normalizeSegment s = Throw URIError)
  ∧ registry (add RouteRecognizer_new [route "/%zz" "h"] None).1
    = registry (RouteRecognizer_new (HV:=string))
  ∧ arrays (add RouteRecognizer_new [route "/%zz" "h"] None).1
    = arrays (RouteRecognizer_new (HV:=string)).
Proof.
  apply (add_throws_like_normalizeSegment RouteRecognizer_new
           [route "/%zz" "h"] None).
  rewrite (surjective_pairing (add _ _ _)) at 1. apply f_equal.
  vm_compute. reflexivity.
Defined.

(** ** The names registry *)

Section registry_facts.
Context {HV : Type} {BI : Builtins} {NO : Normalizer}.
Variable ENCODE_AND_DECODE_PATH_SEGMENTS : bool.
Implicit Types (e : Engine (HV:=HV)).

Lemma names_get_set_ne reg name r n :
  name ≠ "__proto__" → n ≠ name →
  names_get (names_set reg name r) n = names_get reg n.
Proof.
  intros Hp Hn. unfold names_set. rewrite bool_decide_eq_false_2 by done.
  unfold names_get. cbn [own proto]. by rewrite lookup_insert_ne.
Qed.

Lemma add_registry e routes as_name :
  registry (add e routes as_name).1 = registry e
  ∨ ∃ r name, as_name = Some name ∧ name ≠ ""
              ∧ (∃ cur, (add e routes as_name).2 = Ok cur)
              ∧ registry (add e routes as_name).1 = names_set (registry e) name r.
Proof.
  unfold add.
  destruct (add_routes routes (add_init e)) as [a [[]|ex]]; [|by left].
  destruct (add_finish a) as [[sts cur] regex].
  destruct (RegExp_new (regex +:+ "$")) as [re|ex]; [|by left].
  cbn [fst snd registry]. unfold register.
  destruct as_name as [name|]; [|by left].
  destruct (String.eqb_spec name "") as [->|Hne]; [by left|].
  right. eexists _, name. split_and!; [done|done|by eexists|done].
Qed.

(** A call of [add] that returns with a non-empty [as] option makes the
    name known to [hasRoute], and leaves every other name as it was
    (unless the name is [__proto__]). *)
Theorem add_then_hasRoute e routes name e' cur :
  built e → add e routes (Some name) = (e', Ok cur) → name ≠ "" →
  hasRoute e' name = true
  ∧ (name ≠ "__proto__" →
     ∀ n, n ≠ name → names_get (registry e') n = names_get (registry e) n).
Proof.
  intros Hb Hadd Hne.
  pose proof (built_wf _ Hb) as Hwf.
  apply add_Ok in Hadd as (a & sts & regex & re & _ & _ & _ & ->).
  cbn [registry]. unfold register, hasRoute. cbn [registry].
  apply String.eqb_neq in Hne. rewrite Hne. split.
  - by rewrite names_get_set_eq by apply (wf_own _ Hwf).
  - intros Hp n Hn. by apply names_get_set_ne.
Qed.

(** A call of [add] without an [as] option, with the empty string for it,
    or that throws, leaves the names registry as it was. *)
Theorem add_registers_nothing e routes as_name :
  as_name = None ∨ as_name = Some "" ∨ (∃ ex, (add e routes as_name).2 = Throw ex) →
  registry (add e routes as_name).1 = registry e.
Proof.
  intros H. destruct (add_registry e routes as_name)
    as [Hreg|(r & name & -> & Hne & [cur Hcur] & _)]; [done|].
  destruct H as [H|[[= H]|[ex H]]]; [done|done|congruence].
Qed.

(** A name that no call of [add] was given, on an engine where no route
    was named [__proto__], and that is no member of [Object.prototype]:
    [hasRoute] answers false, and [generate] and [handlersFor] throw the
    [Error] that carries the name. *)
Theorem never_named_unknown e name params :
  never_named name e → is_inherited name = false →
  hasRoute e name = false
  ∧ generate ENCODE_AND_DECODE_PATH_SEGMENTS e name params
    = Throw (Error ("There is no route named " +:+ name))
  ∧ handlersFor e name
    = (e, Throw (Error ("There is no route named " +:+ name))).
Proof.
  intros Hnever Hinh.
  assert (own (registry e) !! name = None ∧ proto (registry e) = None) as [Hown Hproto].
  { induction Hnever as [|e routes as_name _ [IH1 IH2] Hn Hp|e n _ IH]; [done| |].
    - destruct (add_registry e routes as_name)
        as [->|(r & name' & -> & _ & _ & ->)]; [done|].
      unfold names_set. rewrite bool_decide_eq_false_2 by congruence.
      cbn [own proto]. split; [|done]. rewrite lookup_insert_ne; [done|congruence].
    - unfold handlersFor. destruct (names_get (registry e) n); try done.
      by destruct (arrays e !! route_handlers r). }
  assert (names_get (registry e) name = IsUndefined) as Hget.
  { unfold names_get. rewrite Hown, Hproto, Hinh.
    rewrite bool_decide_eq_false_2.
    2:{ intros ->. done. }
    rewrite bool_decide_eq_false_2; [done|]. by intros [[? ?] _]. }
  unfold hasRoute, generate, handlersFor. by rewrite Hget.
Qed.

End registry_facts.

(** [post] on the engine that holds [/posts/:id] under that name. *)
Lemma add_then_hasRoute_witness :
  hasRoute (add RouteRecognizer_new [route "/posts/:id" "showPost"] (Some "post")).1
    "post" = true
  ∧ ("post" ≠ "__proto__" →
     ∀ n, n ≠ "post" →
       names_get
         (registry (add RouteRecognizer_new [route "/posts/:id" "showPost"]
                      (Some "post")).1) n
       = names_get (registry (RouteRecognizer_new (HV:=string))) n).
Proof.
  apply (add_then_hasRoute RouteRecognizer_new [route "/posts/:id" "showPost"]
           "post" _ 8).
  - apply built_new.
  - rewrite (surjective_pairing (add _ _ _)) at 1. apply f_equal.
    vm_compute. reflexivity.
  - discriminate.
Defined.

(** A route added without a name. *)
Lemma add_registers_nothing_witness :
  registry (add posts_engine [route "/about" "about"] None).1
  = registry posts_engine.
Proof.
  apply (add_registers_nothing posts_engine [route "/about" "about"] None).
  by left.
Defined.

(** The name [about] on [posts_engine]. *)
Lemma never_named_unknown_witness :
  hasRoute posts_engine "about" = false
  ∧ generate true posts_engine "about" None
    = Throw (Error "There is no route named about")
  ∧ handlersFor posts_engine "about"
    = (posts_engine, Throw (Error "There is no route named about")).
Proof.
  apply (never_named_unknown true posts_engine "about" None).
  - unfold posts_engine. cbv zeta.
    repeat (apply never_add; [|discriminate|discriminate]). apply never_new.
  - reflexivity.
Defined.

(** ** [put] and [get] *)

Section put_get.
Implicit Types (sts : list State) (spec : CharSpec).

Lemma find_app_last {A} (f : A → bool) l x :
  (∀ y, y ∈ l → f y = false) → f x = true → List.find f (l ++ [x]) = Some x.
Proof.
  intros Hl Hx. induction l as [|y l IH]; simpl.
  - by rewrite Hx.
  - rewrite (Hl y) by apply list_elem_of_here.
    apply IH. intros z Hz. apply Hl. by apply list_elem_of_further.
Qed.

Lemma isEqualCharSpec_refl spec : isEqualCharSpec spec spec = true.
Proof. unfold isEqualCharSpec. by rewrite !bool_decide_eq_true_2. Qed.

(** After [put], [get] with the same [charSpec] finds the state that [put]
    returned, and a second [put] returns it again and changes nothing. *)
Theorem State_put_then_get sts cur spec sts' c :
  wf_states sts → cur < length sts →
  State_put sts cur spec = (sts', c) →
  State_get sts' cur spec = Some c ∧ State_put sts' cur spec = (sts', c).
Proof.
  intros Hwf Hcur Hput.
  assert (State_get sts' cur spec = Some c) as Hget.
  2:{ split; [done|]. by rewrite State_put_unfold, Hget. }
  rewrite State_put_unfold in Hput.
  destruct (State_get sts cur spec) as [c0|] eqn:Hg0.
  { by injection Hput as <- <-. }
  injection Hput as <- <-.
  destruct (lookup_lt_is_Some_2 sts cur Hcur) as [s Hs].
  unfold State_get. rewrite (put_new_lookup_cur _ _ _ _ Hs).
  cbn [mbind option_bind push_child nextStates].
  apply find_app_last.
  - intros y Hy.
    destruct (wf_children _ Hwf cur s y Hs Hy) as [Hlt _].
    rewrite <- (State_get_None _ _ _ _ _ Hg0 Hs Hy).
    unfold has_spec.
    destruct (lookup_lt_is_Some_2 (put_new sts cur spec) y) as [sy' Hsy'].
    { rewrite put_new_length. lia. }
    destruct (put_new_lookup _ _ _ _ _ Hcur Hsy')
      as [(_ & sy & Hsy & Hc & _)|(-> & _)]; [|lia].
    by rewrite Hsy', Hsy; simpl; rewrite Hc.
  - unfold has_spec. rewrite put_new_lookup_new. simpl.
    apply isEqualCharSpec_refl.
Qed.

End put_get.

(** The first [put] on a new engine: the spec of [/] at the root. *)
Lemma State_put_then_get_witness :
  State_get (State_put [State_new None] 0 slash_spec).1 0 slash_spec = Some 1
  ∧ State_put (State_put [State_new None] 0 slash_spec).1 0 slash_spec
    = ((State_put [State_new None] 0 slash_spec).1, 1).
Proof.
  apply (State_put_then_get [State_new None] 0 slash_spec).
  - exact (wf_arena _ (new_wf (HV:=string))).
  - simpl. lia.
  - reflexivity.
Defined.

(** ** Routes are never lost *)

Section growth.
Context {HV : Type} {BI : Builtins} {NO : Normalizer}.
Variable ENCODE_AND_DECODE_PATH_SEGMENTS : bool.
Implicit Types (sts : list State) (a : AddLoop (HV:=HV)) (e : Engine (HV:=HV)).

Lemma keeps_refl sts : keeps sts sts.
Proof. intros i s Hs. by exists s. Qed.

Lemma keeps_trans sts1 sts2 sts3 : keeps sts1 sts2 → keeps sts2 sts3 → keeps sts1 sts3.
Proof.
  intros H12 H23 i s1 Hs1.
  destruct (H12 i s1 Hs1) as (s2 & Hs2 & Ha2).
  destruct (H23 i s2 Hs2) as (s3 & Hs3 & Ha3).
  exists s3. split; [done|congruence].
Qed.

Lemma State_put_keeps sts cur spec sts' c :
  cur < length sts → State_put sts cur spec = (sts', c) → keeps sts sts'.
Proof.
  intros Hcur. rewrite State_put_unfold.
  destruct (State_get sts cur spec); intros [= <- <-]; [apply keeps_refl|].
  intros i s Hs. pose proof (lookup_lt_Some _ _ _ Hs) as Hi.
  destruct (decide (i = cur)) as [->|Hne].
  - exists (push_child (length sts) s). split; [by apply put_new_lookup_cur|done].
  - exists s. split; [|done]. by rewrite put_new_lookup_other.
Qed.

Lemma put_chars_grows chars sts cur sts' c :
  wf_states sts → 1 ≤ cur < length sts →
  foldl (λ '(sts, cur) ch,
           State_put sts cur
             {| invalidChars := None; repeat := false; validChars := Some (chr ch) |})
    (sts, cur) chars = (sts', c) →
  keeps sts sts' ∧ extends sts sts'.
Proof.
  revert sts cur. induction chars as [|ch chars IH]; intros sts cur Hwf Hcur; simpl.
  - intros [= <- <-]. split; [apply keeps_refl|apply extends_refl].
  - destruct (State_put sts cur _) as [sts1 c1] eqn:Hput.
    pose proof (State_put_keeps _ _ _ _ _ (proj2 Hcur) Hput) as Hk.
    pose proof (State_put_extends _ _ _ _ _ (proj2 Hcur) Hput) as He.
    apply State_put_wf in Hput as (Hwf1 & Hc1 & Hlen);
      [|done|lia|lia|left; split_and!; by eauto].
    intros (Hk' & He')%IH; [|done..].
    split; [by eapply keeps_trans|by eapply extends_trans].
Qed.

Lemma eachChar_grows seg sts cur sts' c :
  wf_states sts → 1 ≤ cur < length sts →
  eachChar seg sts cur = (sts', c) → keeps sts sts' ∧ extends sts sts'.
Proof.
  intros Hwf Hcur. destruct seg as [s|n|n|]; simpl.
  - by apply put_chars_grows.
  - intros Hput. split; [eapply State_put_keeps|eapply State_put_extends];
      try exact Hput; lia.
  - intros Hput. split; [eapply State_put_keeps|eapply State_put_extends];
      try exact Hput; lia.
  - intros [= <- <-]. split; [apply keeps_refl|apply extends_refl].
Qed.

Lemma add_segment_grows a seg :
  loop_inv a →
  keeps (loop_states a) (loop_states (add_segment a seg))
  ∧ extends (loop_states a) (loop_states (add_segment a seg)).
Proof.
  intros [Hwf Hcur _ _ _].
  destruct (is_Epsilon seg) eqn:Heps.
  { rewrite add_segment_eps by done. split; [apply keeps_refl|apply extends_refl]. }
  destruct (add_segment_unfold a seg Heps)
    as (sts1 & c1 & sts2 & c2 & Hput & Heach & ->). simpl.
  pose proof (State_put_keeps _ _ _ _ _ Hcur Hput) as Hk1.
  pose proof (State_put_extends _ _ _ _ _ Hcur Hput) as He1.
  apply State_put_wf in Hput as (Hwf1 & Hc1 & _);
    [|done..|intros _; apply slash_spec_is_slash|apply slash_spec_proper].
  destruct (eachChar_grows _ _ _ _ _ Hwf1 Hc1 Heach) as [Hk2 He2].
  split; [by eapply keeps_trans|by eapply extends_trans].
Qed.

Lemma add_segments_grows segs a :
  loop_inv a →
  keeps (loop_states a) (loop_states (foldl add_segment a segs))
  ∧ extends (loop_states a) (loop_states (foldl add_segment a segs)).
Proof.
  revert a. induction segs as [|seg segs IH]; intros a Hinv; simpl.
  - split; [apply keeps_refl|apply extends_refl].
  - destruct (add_segment_inv a seg Hinv) as (Hinv1 & _ & _).
    destruct (add_segment_grows a seg Hinv) as [Hk1 He1].
    destruct (IH _ Hinv1) as [Hk2 He2].
    split; [by eapply keeps_trans|by eapply extends_trans].
Qed.

Lemma add_routes_grows routes a a' r :
  loop_inv a → add_routes routes a = (a', r) →
  keeps (loop_states a) (loop_states a') ∧ extends (loop_states a) (loop_states a').
Proof.
  revert a. induction routes as [|route routes IH]; intros a Hinv; simpl.
  - intros [= <- <-]. split; [apply keeps_refl|apply extends_refl].
  - destruct (parse (path route)) as [p|ex] eqn:Hp.
    2:{ intros [= <- <-]. split; [apply keeps_refl|apply extends_refl]. }
    set (a1 := {| loop_states := loop_states a; currentState := currentState a;
                  loop_regex := loop_regex a; loop_val := Some (parsed_val p);
                  loop_handlers := loop_handlers a;
                  allSegments := allSegments a ++ results p;
                  isEmpty := isEmpty a |}).
    assert (Hinv1 : loop_inv a1).
    { destruct Hinv. split; simpl; try done.
      intros n [= <-]. by eapply parse_score. }
    destruct (add_segments_inv (results p) a1 Hinv1) as (Hinv2 & _ & _).
    destruct (add_segments_grows (results p) a1 Hinv1) as [Hk2 He2].
    set (a2 := foldl add_segment a1 (results p)) in *.
    intros Hrest. apply IH in Hrest as [Hk3 He3].
    + split; [by eapply keeps_trans|by eapply extends_trans].
    + destruct Hinv2. by split.
Qed.

Lemma add_finish_grows a sts cur regex :
  loop_inv a → add_finish a = (sts, cur, regex) →
  keeps (loop_states a) sts ∧ extends (loop_states a) sts.
Proof.
  intros [Hwf Hcur _ _ _]. unfold add_finish. destruct (isEmpty a).
  - destruct (State_put _ _ slash_spec) as [sts1 c1] eqn:Hput.
    intros [= <- <- <-].
    split; [by eapply State_put_keeps|by eapply State_put_extends].
  - intros [= <- <- <-]. split; [apply keeps_refl|apply extends_refl].
Qed.

(** [add] keeps the states, their edges and their being accepting. *)
Lemma add_grows e routes as_name :
  wf e →
  extends (states e) (states (add e routes as_name).1)
  ∧ ∀ i, is_accepting (states e) i = true →
         is_accepting (states (add e routes as_name).1) i = true.
Proof.
  intros Hwf. pose proof (add_init_inv e (wf_arena _ Hwf)) as Hinit.
  unfold add.
  destruct (add_routes routes (add_init e)) as [a r] eqn:Hloop.
  destruct (add_routes_grows _ _ _ _ Hinit Hloop) as [Hk1 He1].
  destruct (add_routes_inv _ _ _ _ Hinit Hloop) as (Hinv & _ & _).
  cbn [add_init loop_states] in Hk1, He1.
  assert (∀ sts', keeps (states e) sts' →
            ∀ i, is_accepting (states e) i = true → is_accepting sts' i = true)
    as Hacc.
  { intros sts' Hk i. unfold is_accepting.
    destruct (states e !! i) as [s|] eqn:Hs; [|done].
    destruct (Hk i s Hs) as (s' & -> & Ha). simpl. by rewrite Ha. }
  destruct r as [[]|ex]; [|by split; [|apply Hacc]].
  destruct (add_finish a) as [[sts cur] regex] eqn:Hfin.
  destruct (add_finish_grows _ _ _ _ Hinv Hfin) as [Hk2 He2].
  destruct (RegExp_new (regex +:+ "$")) as [re|ex];
    cbn [fst states].
  2:{ split; [by eapply extends_trans|]. apply Hacc. by eapply keeps_trans. }
  split.
  - eapply extends_trans; [|apply set_accepting_extends].
    by eapply extends_trans.
  - intros i Hi. pose proof (Hacc sts (keeps_trans _ _ _ Hk1 Hk2) i Hi) as Hi'.
    unfold is_accepting in *.
    destruct (decide (i = cur)) as [->|Hne].
    + rewrite list_lookup_alter_eq. by destruct (sts !! cur).
    + by rewrite list_lookup_alter_ne.
Qed.

Lemma walk_reaches sts states w j :
  j ∈ walk sts states w → ∃ i, i ∈ states ∧ reaches sts i w j.
Proof.
  revert states. induction w as [|ch r IH]; intros states; simpl.
  - intros Hj. exists j. split; [done|constructor].
  - destruct (recognizeChar sts states ch) as [|x next] eqn:Hstep.
    { by intros ?%elem_of_nil. }
    intros (y & Hy & Hr)%IH. rewrite <- Hstep in Hy.
    apply recognizeChar_elem in Hy as (i & Hi & Hm).
    exists i. split; [done|]. by econstructor.
Qed.

(** A path that [recognize] takes is still taken after any further call
    of [add]: the call returns a result or throws, never [undefined]. *)
Theorem add_keeps_paths e path res routes as_name :
  built e →
  recognize ENCODE_AND_DECODE_PATH_SEGMENTS e path = Ok (Some res) →
  recognize ENCODE_AND_DECODE_PATH_SEGMENTS (add e routes as_name).1 path
  ≠ Ok None.
Proof.
  intros Hb Hrec. pose proof (built_wf _ Hb) as Hwf.
  pose proof (built_wf _ (built_add _ routes as_name Hb)) as Hwf'.
  destruct (add_grows e routes as_name Hwf) as [Hext Hacc].
  apply recognize_Some in Hrec
    as (p & i & s & acc & hs & Hp & Hhead & Hs & Ha & _).
  destruct (solutions_head_max e _ i Hwf Hhead) as (Hi & Hiacc & _).
  apply walk_reaches in Hi as (i0 & ->%list_elem_of_singleton & Hrun).
  set (e' := (add e routes as_name).1) in *.
  assert (i ∈ walk (states e') [rootState] (work_path p)) as Hi'.
  { eapply reaches_walk; [by eapply reaches_mono|apply list_elem_of_here]. }
  unfold recognize. rewrite Hp. cbn [mbind result_bind].
  destruct (head (solutions e' (work_path p))) as [j|] eqn:Hhead'.
  - destruct (solutions_head_max e' _ j Hwf' Hhead') as (_ & Hjacc & _).
    unfold is_accepting in Hjacc. cbn [mbind option_bind].
    destruct (states e' !! j ≫= accepting) as [acc'|]; [|done].
    by destruct (findHandler _ e' acc' _ _).
  - apply head_None in Hhead'. unfold solutions, sortSolutions in Hhead'.
    assert (i ∈ @nil nat) as Hin; [|by apply elem_of_nil in Hin].
    rewrite <- Hhead'. apply js_sort_elem, list_elem_of_filter.
    split; [by apply Hacc|done].
Qed.

End growth.

(** [/posts/1] on [posts_engine], before and after [/posts/:id/edit] is
    added. *)
Lemma add_keeps_paths_witness :
  recognize true (add posts_engine [route "/posts/:id/edit" "edit"] None).1
    "/posts/1" ≠ Ok None.
Proof.
  assert (∃ res, recognize true posts_engine "/posts/1" = Ok (Some res))
    as [res Hr].
  { destruct (recognize true posts_engine "/posts/1") as [[res|]|] eqn:Hr;
      [by exists res|by vm_compute in Hr..]. }
  exact (add_keeps_paths true posts_engine "/posts/1" res
           [route "/posts/:id/edit" "edit"] None posts_engine_built Hr).
Defined.

(** ** The shape that the interface keeps *)

Section interface_invariant.
Context {HV : Type} {BI : Builtins} {NO : Normalizer}.

(** Every engine that the interface produces is well formed: the root has
    no [charSpec] and is not accepting, its only child is the state of the
    first [/], the children of every state are states of the arena, a
    state whose [charSpec] repeats is its own child, every accepting state
    has a [handlers] array in the store and a score that is a number not
    below zero (state 1 alone can lack one, after [add([])]), and every
    registered route has its [handlers] array in the store. *)
Theorem interface_keeps_engine_well_formed (e : Engine (HV:=HV)) :
  built e → wf e.
Proof. apply built_wf. Qed.

End interface_invariant.

Lemma interface_keeps_engine_well_formed_witness : wf posts_engine.
Proof.
  apply interface_keeps_engine_well_formed.
  unfold posts_engine. cbv zeta. repeat apply built_add. apply built_new.
Defined.

(** ** How the score orders patterns *)

Section score_order.
Context {NO : Normalizer}.
Local Open Scope Z_scope.

Lemma digits_fold_lower rs acc :
  0 <= acc →
  (9 * acc + 1) * 10 ^ Z.of_nat (length rs)
  <= 9 * foldl (λ acc s, 10 * acc + kind_digit s) acc rs + 1.
Proof.
  revert acc. induction rs as [|s rs IH]; intros acc Hacc; simpl foldl.
  - simpl. lia.
  - pose proof (kind_digit_range s).
    pose proof (IH (10 * acc + kind_digit s) ltac:(lia)) as H1.
    replace (Z.of_nat (length (s :: rs))) with (Z.succ (Z.of_nat (length rs)))
      by (simpl; lia).
    rewrite Z.pow_succ_r by lia.
    assert (0 < 10 ^ Z.of_nat (length rs)) by (apply Z.pow_pos_nonneg; lia).
    nia.
Qed.

Lemma parsed_val_digits route p :
  parse route = Ok p → (length (results p) ≤ 16)%nat →
  parsed_val p = Num (digits_value (results p)).
Proof.
  intros Hp Hlen. rewrite (parse_val _ _ Hp).
  apply round_binary64_exact; [apply digits_value_nonneg|by apply digits_value_small].
Qed.

(** Of two patterns of at most 16 segments, the one with more segments
    has the greater score, whatever the kinds of the segments. *)
Theorem longer_pattern_outscores route1 route2 p1 p2 :
  parse route1 = Ok p1 → parse route2 = Ok p2 →
  (length (results p1) < length (results p2))%nat →
  (length (results p2) ≤ 16)%nat →
  num_lt (parsed_val p1) (parsed_val p2).
Proof.
  intros Hp1 Hp2 Hlt Hlen.
  rewrite (parsed_val_digits _ _ Hp1) by lia.
  rewrite (parsed_val_digits _ _ Hp2) by lia.
  cbn [num_lt]. unfold digits_value.
  destruct (digits_fold_bound (results p1) 0 ltac:(lia)) as [_ Hup].
  pose proof (digits_fold_lower (results p2) 0 ltac:(lia)) as Hlow.
  assert (10 * 10 ^ Z.of_nat (length (results p1))
          <= 10 ^ Z.of_nat (length (results p2))).
  { rewrite <- Z.pow_succ_r by lia. apply Z.pow_le_mono_r; lia. }
  assert (0 < 10 ^ Z.of_nat (length (results p1))) by (apply Z.pow_pos_nonneg; lia).
  lia.
Qed.

Lemma digits_fold_kinds segs acc :
  foldl (λ acc s, 10 * acc + kind_digit s) acc segs
  = foldl (λ acc k, 10 * acc + k) acc (kind_digit <$> segs).
Proof. revert acc. induction segs as [|s segs IH]; intros acc; simpl; [done|apply IH]. Qed.

(** Of two patterns with the same number of segments, at most 16, the
    first place where the kinds of the segments differ decides: Static
    over Dynamic over Epsilon over Star. *)
Theorem first_difference_decides route1 route2 p1 p2 pre1 pre2 s1 s2 t1 t2 :
  parse route1 = Ok p1 → parse route2 = Ok p2 →
  results p1 = pre1 ++ s1 :: t1 → results p2 = pre2 ++ s2 :: t2 →
  kind_digit <$> pre1 = kind_digit <$> pre2 →
  length t1 = length t2 → (length (results p2) ≤ 16)%nat →
  kind_digit s1 < kind_digit s2 →
  num_lt (parsed_val p1) (parsed_val p2).
Proof.
  intros Hp1 Hp2 Hr1 Hr2 Hpre Ht Hlen Hk.
  assert (length (results p1) = length (results p2)) as Hsame.
  { rewrite Hr1, Hr2, !length_app.
    rewrite <- (length_fmap kind_digit pre1), Hpre, length_fmap. simpl. lia. }
  rewrite (parsed_val_digits _ _ Hp1) by lia.
  rewrite (parsed_val_digits _ _ Hp2) by lia.
  cbn [num_lt]. unfold digits_value. rewrite Hr1, Hr2, !foldl_app.
  cbn [foldl].
  rewrite (digits_fold_kinds pre1), Hpre, <- (digits_fold_kinds pre2).
  set (A := foldl (λ acc s, 10 * acc + kind_digit s) 0 pre2).
  assert (0 <= A) by apply (digits_value_nonneg pre2).
  pose proof (kind_digit_range s1). pose proof (kind_digit_range s2).
  destruct (digits_fold_bound t1 (10 * A + kind_digit s1) ltac:(lia)) as [_ Hup].
  pose proof (digits_fold_lower t2 (10 * A + kind_digit s2) ltac:(lia)) as Hlow.
  rewrite Ht in Hup.
  assert (0 < 10 ^ Z.of_nat (length t2)) by (apply Z.pow_pos_nonneg; lia).
  nia.
Qed.

End score_order.

(** [/a] against [/*x/*y]: 4 against 11. *)
Lemma longer_pattern_outscores_witness : num_lt (Num 4) (Num 11).
Proof.
  apply (longer_pattern_outscores "/a" "/*x/*y"
           {| results := [StaticSegment "a"]; parsed_names := [];
              parsed_shouldDecodes := []; parsed_val := Num 4 |}
           {| results := [StarSegment "x"; StarSegment "y"];
              parsed_names := ["x"; "y"]; parsed_shouldDecodes := [false; false];
              parsed_val := Num 11 |}).
  - vm_compute. reflexivity.
  - vm_compute. reflexivity.
  - simpl. lia.
  - simpl. lia.
Defined.

(** [/posts/:id] against [/users/new]: 43 against 44. *)
Lemma first_difference_decides_witness : num_lt (Num 43) (Num 44).
Proof.
  apply (first_difference_decides "/posts/:id" "/users/new"
           {| results := [StaticSegment "posts"; DynamicSegment "id"];
              parsed_names := ["id"]; parsed_shouldDecodes := [true];
              parsed_val := Num 43 |}
           {| results := [StaticSegment "users"; StaticSegment "new"];
              parsed_names := []; parsed_shouldDecodes := [];
              parsed_val := Num 44 |}
           [StaticSegment "posts"] [StaticSegment "users"]
           (DynamicSegment "id") (StaticSegment "new") [] []).
  - vm_compute. reflexivity.
  - vm_compute. reflexivity.
  - reflexivity.
  - reflexivity.
  - reflexivity.
  - reflexivity.
  - simpl. lia.
  - simpl. lia.
Defined.

(** ** Query strings, written and read *)

Section query_round_trip.
Context {BI : Builtins}.
Implicit Types (q m : gmap string qvalue).









End query_round_trip.


(** ** A generated query string after a path *)

Section query_after_path.
Context {HV : Type} {BI : Builtins} {NO : Normalizer}.
Variable ENCODE_AND_DECODE_PATH_SEGMENTS : bool.
Implicit Types (e : Engine (HV:=HV)).


End query_after_path.


(** * The older [Router] *)

(** ** Sorting with a comparator that throws *)

Section sort_throwing_facts.
Context {A : Type} (cmp : A → A → result Z).

Lemma sort_insert_r_perm x l s : sort_insert_r cmp x l = Ok s → s ≡ₚ x :: l.
Proof.
  revert s. induction l as [|y l IH]; intros s; simpl.
  - by intros [= <-].
  - destruct (cmp x y) as [c|]; [|done]. cbn [mbind result_bind].
    destruct (c <=? 0)%Z; [by intros [= <-]|].
    destruct (sort_insert_r cmp x l) as [s'|]; [|done].
    intros [= <-]. rewrite (IH s' eq_refl). apply perm_swap.
Qed.

Lemma js_sort_r_perm l s : js_sort_r cmp l = Ok s → s ≡ₚ l.
Proof.
  revert s. induction l as [|x l IH]; intros s; simpl.
  - by intros [= <-].
  - destruct (js_sort_r cmp l) as [s'|]; [|done]. cbn [mbind result_bind].
    intros ->%sort_insert_r_perm. by rewrite (IH s' eq_refl).
Qed.

(** Where the comparator does not throw, the sort is the sort above. *)
Lemma sort_insert_r_pure (f : A → A → Z) x l :
  (∀ y, y ∈ l → cmp x y = Ok (f x y)) →
  sort_insert_r cmp x l = Ok (sort_insert f x l).
Proof.
  induction l as [|y l IH]; intros H; simpl; [done|].
  rewrite (H y) by apply list_elem_of_here. cbn [mbind result_bind].
  destruct (f x y <=? 0)%Z; [done|].
  rewrite IH; [done|]. intros z Hz. apply H. by apply list_elem_of_further.
Qed.

Lemma js_sort_r_pure (f : A → A → Z) l :
  (∀ x y, x ∈ l → y ∈ l → cmp x y = Ok (f x y)) →
  js_sort_r cmp l = Ok (js_sort f l).
Proof.
  induction l as [|x l IH]; intros H; simpl; [done|].
  rewrite IH.
  2:{ intros y z Hy Hz. apply H; by apply list_elem_of_further. }
  cbn [mbind result_bind]. apply sort_insert_r_pure.
  intros y Hy%js_sort_elem. apply H; [apply list_elem_of_here|].
  by apply list_elem_of_further.
Qed.

Context (bad : A → Prop).
Hypothesis cmp_bad : ∀ a b, bad a ∨ bad b → cmp a b = Throw TypeError.
Hypothesis cmp_good : ∀ a b, ¬ bad a → ¬ bad b → ∃ z, cmp a b = Ok z.
Hypothesis bad_dec : ∀ a, bad a ∨ ¬ bad a.

Lemma cmp_throws a b ex : cmp a b = Throw ex → ex = TypeError.
Proof.
  destruct (bad_dec a) as [Ha|Ha].
  { rewrite cmp_bad by (by left). by intros [= <-]. }
  destruct (bad_dec b) as [Hb|Hb].
  { rewrite cmp_bad by (by right). by intros [= <-]. }
  destruct (cmp_good a b Ha Hb) as [z ->]. done.
Qed.

Lemma sort_insert_r_throws x l ex :
  sort_insert_r cmp x l = Throw ex → ex = TypeError.
Proof.
  induction l as [|y l IH]; simpl; [done|].
  destruct (cmp x y) as [c|ex'] eqn:Hc; cbn [mbind result_bind].
  - destruct (c <=? 0)%Z; [done|].
    destruct (sort_insert_r cmp x l) as [s|ex']; [done|].
    intros [= <-]. by apply IH.
  - intros [= <-]. by eapply cmp_throws.
Qed.

Lemma js_sort_r_throws l ex : js_sort_r cmp l = Throw ex → ex = TypeError.
Proof.
  induction l as [|x l IH]; simpl; [done|].
  destruct (js_sort_r cmp l) as [s|ex']; cbn [mbind result_bind].
  - apply sort_insert_r_throws.
  - intros [= <-]. by apply IH.
Qed.

(** An array of two or more that holds an element on which the
    comparator throws is not sorted: the sort throws. *)
Lemma js_sort_r_bad l :
  2 ≤ length l → (∃ x, x ∈ l ∧ bad x) → js_sort_r cmp l = Throw TypeError.
Proof.
  induction l as [|x l IH]; intros Hlen (z & Hz & Hbad); [simpl in Hlen; lia|].
  simpl. destruct (js_sort_r cmp l) as [s|ex] eqn:Hs; cbn [mbind result_bind].
  2:{ by rewrite (js_sort_r_throws _ _ Hs). }
  pose proof (js_sort_r_perm _ _ Hs) as Hperm.
  destruct s as [|y s'].
  { apply Permutation_nil_l in Hperm. subst l. simpl in Hlen. lia. }
  simpl. destruct (bad_dec x) as [Hx|Hx].
  { by rewrite cmp_bad by (by left). }
  apply elem_of_cons in Hz as [->|Hz]; [done|].
  destruct (decide (2 ≤ length l)) as [Hl|Hl].
  { by specialize (IH Hl (ex_intro _ z (conj Hz Hbad))). }
  destruct l as [|y' [|? ?]]; [by apply elem_of_nil in Hz| |simpl in Hl; lia].
  apply list_elem_of_singleton in Hz as ->.
  simpl in Hs. injection Hs as <- <-.
  by rewrite cmp_bad by (by right).
Qed.

End sort_throwing_facts.

(** ** What [Router.recognize] chooses *)

Section router_choice.
Context {EP : Type}.
Implicit Types (sts : list (Router.State (EP:=EP))).

Lemma compare_types_le a b : (Router.compare_types a b <= 0)%Z ↔ types_le a b.
Proof.
  unfold Router.compare_types, types_le.
  destruct (Nat.eqb_spec (Router.stars a) (Router.stars b)); simpl; [|lia].
  destruct (Nat.eqb_spec (Router.dynamics a) (Router.dynamics b)); simpl; [|lia].
  destruct (Nat.eqb_spec (Router.statics a) (Router.statics b)); simpl; lia.
Qed.

Lemma types_le_trans a b c : types_le a b → types_le b c → types_le a c.
Proof. unfold types_le. lia. Qed.

Lemma types_le_total a b : types_le a b ∨ types_le b a.
Proof. unfold types_le. lia. Qed.

Lemma types_of_None sts a :
  sts !! a ≫= Router.accepting = None → Router.types_of sts a = Throw TypeError.
Proof. intros H. unfold Router.types_of. by rewrite H. Qed.

Lemma types_of_Some sts a acc :
  sts !! a ≫= Router.accepting = Some acc →
  Router.types_of sts a = Ok (Router.types acc).
Proof. intros H. unfold Router.types_of. by rewrite H. Qed.

Lemma Router_recognize_throws_aux sts l :
  2 ≤ length l →
  (∃ i, i ∈ l ∧ sts !! i ≫= Router.accepting = None) →
  Router.sortSolutions sts l = Throw TypeError.
Proof.
  intros Hlen Hbad. unfold Router.sortSolutions.
  rewrite (js_sort_r_bad _ (λ a, sts !! a ≫= Router.accepting = None)); try done.
  - intros a b [Ha|Hb].
    + by rewrite (types_of_None _ _ Ha).
    + rewrite (types_of_None _ _ Hb).
      destruct (sts !! a ≫= Router.accepting) as [acca|] eqn:Ea.
      * by rewrite (types_of_Some _ _ _ Ea).
      * by rewrite (types_of_None _ _ Ea).
  - intros a b Ha Hb.
    destruct (sts !! a ≫= Router.accepting) as [acca|] eqn:Ea; [|done].
    destruct (sts !! b ≫= Router.accepting) as [accb|] eqn:Eb; [|done].
    rewrite (types_of_Some _ _ _ Ea), (types_of_Some _ _ _ Eb). by eexists.
  - intros a. destruct (sts !! a ≫= Router.accepting); [by right|by left].
Qed.

(** When the walk ends in two or more states and one of them is not
    accepting, the comparator of [sortSolutions] reads [stars] of an
    [undefined] [types]: [recognize] throws a [TypeError]. *)
Theorem Router_recognize_throws sts path :
  2 ≤ length (Router.frontier sts path) →
  (∃ i, i ∈ Router.frontier sts path ∧ sts !! i ≫= Router.accepting = None) →
  Router.recognize sts path = Throw TypeError.
Proof.
  intros Hlen Hbad. unfold Router.recognize.
  fold (Router.frontier sts path).
  by rewrite (Router_recognize_throws_aux _ _ Hlen Hbad).
Qed.

Lemma Router_read_endpoints_entries captures (es : list (Router.Endpoint (EP:=EP)))
    k res :
  Router.read_endpoints captures es k = Ok res →
  Router.entry_endpoint <$> res = Router.endpoint <$> es.
Proof.
  revert k res. induction es as [|e es IH]; intros k res; simpl.
  - by intros [= <-].
  - intros ([params next] & _ & (res' & Hres & ->)%fmap_Ok)%bind_Ok.
    simpl. f_equal. by eapply IH.
Qed.

(** When [recognize] returns a result, every state in which the walk ended
    is accepting, and the result is read from one whose [types] come
    first: fewest stars, then fewest dynamics, then fewest statics.  The
    result has one entry per endpoint of that state, in order. *)
Theorem Router_recognize_prefers sts path res :
  Router.recognize sts path = Ok (Some res) →
  ∃ i acc,
    i ∈ Router.frontier sts path
    ∧ sts !! i ≫= Router.accepting = Some acc
    ∧ Router.endpoint_of acc
        (if starts_with_char "/" path then path else "/" +:+ path) = Ok res
    ∧ Router.entry_endpoint <$> res = Router.endpoint <$> Router.endpoints acc
    ∧ ∀ j, j ∈ Router.frontier sts path →
           ∃ accj, sts !! j ≫= Router.accepting = Some accj
                   ∧ types_le (Router.types acc) (Router.types accj).
Proof.
  unfold Router.recognize. fold (Router.frontier sts path).
  set (l := Router.frontier sts path).
  destruct (Router.sortSolutions sts l) as [states|] eqn:Hsort; [|done].
  cbn [mbind result_bind].
  destruct (head states) as [i|] eqn:Hhead; [|done]. cbn [mbind option_bind].
  destruct (sts !! i ≫= Router.accepting) as [acc|] eqn:Hacc; [|done].
  intros (res' & Hres & [= <-])%fmap_Ok.
  pose proof (js_sort_r_perm _ _ _ Hsort) as Hperm.
  assert (i ∈ l) as Hi.
  { rewrite <- Hperm. by eapply head_Some_elem_of. }
  assert (∀ j, j ∈ l → is_Some (sts !! j ≫= Router.accepting)) as Hall.
  { intros j Hj. destruct (sts !! j ≫= Router.accepting) eqn:Hjacc; [done|].
    destruct (decide (2 ≤ length l)) as [Hlen|Hlen].
    - pose proof (Router_recognize_throws_aux sts l Hlen
                    (ex_intro _ j (conj Hj Hjacc))) as Hthrow.
      congruence.
    - destruct l as [|k [|? ?]]; [by apply elem_of_nil in Hj| |simpl in Hlen; lia].
      apply list_elem_of_singleton in Hi as ->.
      apply list_elem_of_singleton in Hj as ->. congruence. }
  exists i, acc. split_and!; [done|done|done| |].
  { by eapply Router_read_endpoints_entries. }
  set (ty := λ a, match sts !! a ≫= Router.accepting with
                  | Some acc => Router.types acc
                  | None => {| Router.statics := 0; Router.dynamics := 0;
                               Router.stars := 0 |}
                  end).
  unfold Router.sortSolutions in Hsort.
  rewrite (js_sort_r_pure _ (λ a b, Router.compare_types (ty a) (ty b))) in Hsort.
  2:{ intros x y [accx Hx]%Hall [accy Hy]%Hall.
      rewrite (types_of_Some _ _ _ Hx), (types_of_Some _ _ _ Hy).
      unfold ty. by rewrite Hx, Hy. }
  injection Hsort as <-.
  intros j Hj. destruct (Hall j Hj) as [accj Hjacc]. exists accj. split; [done|].
  assert (types_le (ty i) (ty j)) as Hle.
  { refine (js_sort_head (λ a b, Router.compare_types (ty a) (ty b))
              (λ _, True) (λ a b, types_le (ty a) (ty b)) _ _ _ l i _ Hhead j Hj).
    - intros a b c _ _ _ Hab Hbc. exact (types_le_trans _ _ _ Hab Hbc).
    - intros a b _ _. apply types_le_total.
    - intros a b _ _. apply compare_types_le.
    - by apply Forall_forall. }
  unfold ty in Hle. by rewrite Hacc, Hjacc in Hle.
Qed.

End router_choice.

(** [/a] on [ab_router]: the walk ends in the state of [a], which is not
    accepting, and in the state of [:x]. *)
Lemma Router_recognize_throws_witness :
  Router.recognize ab_router "/a" = Throw TypeError.
Proof.
  apply Router_recognize_throws.
  - assert (Router.frontier ab_router "/a" = [2; 4]) as ->
      by (vm_compute; reflexivity).
    simpl. lia.
  - exists 2. split.
    + assert (Router.frontier ab_router "/a" = [2; 4]) as ->
        by (vm_compute; reflexivity).
      apply list_elem_of_here.
    + vm_compute. reflexivity.
Defined.

(** [/posts/new] on [posts_router]: one dynamic segment against none. *)
Lemma Router_recognize_prefers_witness :
  ∃ res i acc,
    Router.recognize posts_router "/posts/new" = Ok (Some res)
    ∧ Router.entry_endpoint <$> res = ["newPost"]
    ∧ i ∈ Router.frontier posts_router "/posts/new"
    ∧ posts_router !! i ≫= Router.accepting = Some acc
    ∧ Router.endpoint_of acc "/posts/new" = Ok res
    ∧ Router.entry_endpoint <$> res = Router.endpoint <$> Router.endpoints acc
    ∧ ∀ j, j ∈ Router.frontier posts_router "/posts/new" →
           ∃ accj, posts_router !! j ≫= Router.accepting = Some accj
                   ∧ types_le (Router.types acc) (Router.types accj).
Proof.
  assert (∃ res, Router.recognize posts_router "/posts/new" = Ok (Some res)
                 ∧ Router.entry_endpoint <$> res = ["newPost"])
    as (res & Hr & Hres).
  { destruct (Router.recognize posts_router "/posts/new") as [[res|]|] eqn:Hr;
      [|by vm_compute in Hr..].
    exists res. split; [done|]. vm_compute in Hr. injection Hr as <-. reflexivity. }
  destruct (Router_recognize_prefers posts_router "/posts/new" res Hr)
    as (i & acc & Hi & Hacc & Hend & Hes & Hmin).
  exists res, i, acc. split; [exact Hr|]. split; [exact Hres|].
  split; [exact Hi|]. split; [exact Hacc|]. split; [exact Hend|].
  split; [exact Hes|exact Hmin].
Defined.

(** ** Star segments in the older [Router] *)

Section router_star.
Context {EP : Type}.
Implicit Types (sts : list (Router.State (EP:=EP))) (a : Router.AddLoop (EP:=EP)).

Lemma Router_takes_not_star sts char c :
  Router.takes sts char c = true → ¬ star_spec sts c.
Proof.
  unfold Router.takes. intros Ht (cs & Hcs & Hv & Hi).
  rewrite Hcs, Hv, Hi in Ht. done.
Qed.

Lemma Router_recognizeChar_app sts acc states char :
  foldl (λ nextStates state, nextStates ++ Router.State_match sts state char)
    acc states
  = acc ++ Router.recognizeChar sts states char.
Proof.
  unfold Router.recognizeChar. revert acc.
  induction states as [|y states IH]; intros acc; simpl.
  - by rewrite app_nil_r.
  - rewrite IH, (IH (Router.State_match sts y char)). by rewrite app_assoc.
Qed.

Lemma Router_recognizeChar_takes sts states char c :
  c ∈ Router.recognizeChar sts states char → Router.takes sts char c = true.
Proof.
  induction states as [|y states IH].
  - by intros ?%elem_of_nil.
  - unfold Router.recognizeChar. simpl. rewrite Router_recognizeChar_app.
    intros [Hc|Hc]%elem_of_app; [|by apply IH].
    unfold Router.State_match in Hc. destruct (sts !! y); [|by apply elem_of_nil in Hc].
    by apply list_elem_of_filter in Hc as [? _].
Qed.

(** A state in which a walk of one character or more ends was pushed by
    [match]. *)
Lemma Router_walk_takes sts states char r c :
  c ∈ Router.walk sts states (String char r) →
  ∃ char', Router.takes sts char' c = true.
Proof.
  revert states char. induction r as [|char2 r IH]; intros states char.
  - simpl. destruct (Router.recognizeChar sts states char) as [|x next] eqn:Hstep.
    { by intros ?%elem_of_nil. }
    rewrite <- Hstep. intros Hc. exists char.
    by eapply Router_recognizeChar_takes.
  - cbn [Router.walk].
    destruct (Router.recognizeChar sts states char) as [|x next].
    { by intros ?%elem_of_nil. }
    apply IH.
Qed.

(** No walk ends in a state with the [charSpec] of a Star segment:
    [invalidChars] is the empty string, which [match] reads as false. *)
Lemma Router_frontier_not_star sts path c :
  c ∈ Router.frontier sts path → ¬ star_spec sts c.
Proof.
  unfold Router.frontier.
  destruct (starts_with_char "/" path) eqn:Hs.
  - destruct path as [|char r]; [done|].
    intros (char' & Ht)%Router_walk_takes. by eapply Router_takes_not_star.
  - change ("/" +:+ path) with (String "/" path).
    intros (char' & Ht)%Router_walk_takes. by eapply Router_takes_not_star.
Qed.

Lemma Router_put_spec sts cur spec sts' c :
  Router.State_put sts cur spec = (sts', c) →
  ∃ cs, sts' !! c ≫= Router.charSpec = Some cs
        ∧ validChars cs = validChars spec ∧ invalidChars cs = invalidChars spec.
Proof.
  unfold Router.State_put.
  destruct (Router.State_get sts cur spec) as [c0|] eqn:Hget.
  - intros [= <- <-]. unfold Router.State_get in Hget.
    destruct (sts !! cur) as [s|]; [|done]. simpl in Hget.
    apply find_some in Hget as [_ Hspec]. unfold Router.has_spec in Hspec.
    destruct (sts !! c0 ≫= Router.charSpec) as [cs|]; [|done].
    exists cs. split; [done|]. unfold isEqualCharSpec in Hspec.
    apply andb_true_iff in Hspec as [H1 H2].
    by apply bool_decide_eq_true in H1, H2.
  - intros [= <- <-]. exists spec. split; [|done].
    assert ((alter (Router.push_child (length sts)) cur sts
             ++ [Router.State_new (Some spec)]) !! length sts
            = Some (Router.State_new (Some spec))) as Hl.
    { rewrite lookup_app_r by (rewrite length_alter; lia).
      by rewrite length_alter, Nat.sub_diag. }
    destruct (repeat spec).
    + by rewrite list_lookup_alter_eq, Hl.
    + by rewrite Hl.
Qed.

Lemma capture_after_star piece name :
  capture_after "*" piece = Some name → capture_after ":" piece = None.
Proof.
  destruct piece as [|a r]; [done|]. simpl.
  destruct (Ascii.eqb_spec a "*") as [->|]; [|done]. done.
Qed.

Lemma Router_parse_segments_last l piece name t :
  capture_after "*" piece = Some name →
  ∃ rs ns t',
    Router.parse_segments (l ++ [piece]) t = (rs ++ [Router.StarSegment name], ns, t').
Proof.
  intros Hstar. pose proof (capture_after_star _ _ Hstar) as Hdyn.
  revert t. induction l as [|segment l IH]; intros t; simpl.
  - rewrite Hdyn, Hstar. by eexists [], [name], _.
  - destruct (capture_after ":" segment) as [n|].
    { destruct (IH {| Router.statics := Router.statics t;
                      Router.dynamics := S (Router.dynamics t);
                      Router.stars := Router.stars t |}) as (rs & ns & t' & ->).
      by exists (Router.DynamicSegment n :: rs), (n :: ns), t'. }
    destruct (capture_after "*" segment) as [n|].
    { destruct (IH {| Router.statics := Router.statics t;
                      Router.dynamics := Router.dynamics t;
                      Router.stars := S (Router.stars t) |}) as (rs & ns & t' & ->).
      by exists (Router.StarSegment n :: rs), (n :: ns), t'. }
    destruct (IH {| Router.statics := S (Router.statics t);
                    Router.dynamics := Router.dynamics t;
                    Router.stars := Router.stars t |}) as (rs & ns & t' & ->).
    by exists (Router.StaticSegment segment :: rs), ns, t'.
Qed.

Lemma Router_add_segment_star a name :
  star_spec (Router.loop_states (Router.add_segment a (Router.StarSegment name)))
    (Router.currentState (Router.add_segment a (Router.StarSegment name))).
Proof.
  unfold Router.add_segment.
  destruct (Router.State_put _ _ _) as [sts1 c1].
  unfold Router.addSegment. cbn [Router.eachChar foldl].
  destruct (Router.State_put sts1 c1 _) as [sts2 c2] eqn:Hput.
  cbn [Router.loop_states Router.currentState].
  destruct (Router_put_spec _ _ _ _ _ Hput) as (cs & Hcs & Hv & Hi).
  by exists cs.
Qed.

Lemma Router_add_route_star a route piece name :
  last (split "/" (if starts_with_char "/" (Router.path route)
                   then substr1 (Router.path route) else Router.path route))
  = Some piece →
  capture_after "*" piece = Some name →
  star_spec (Router.loop_states (Router.add_route a route))
    (Router.currentState (Router.add_route a route)).
Proof.
  intros [l Hl]%last_Some Hstar. unfold Router.add_route, Router.parse.
  rewrite Hl.
  destruct (Router_parse_segments_last l piece name (Router.loop_types a) Hstar)
    as (rs & ns & t' & ->).
  rewrite foldl_app. cbn [foldl Router.loop_states Router.currentState].
  apply Router_add_segment_star.
Qed.

(** The accepting state of a batch whose last pattern ends in a star
    segment is never among the states in which a walk ends: [recognize]
    does not read a result from it, whatever the path. *)
Theorem Router_star_route_never_recognized sts routes route piece name sts' cur :
  Router.add sts (routes ++ [route]) = (sts', Ok cur) →
  last (split "/" (if starts_with_char "/" (Router.path route)
                   then substr1 (Router.path route) else Router.path route))
  = Some piece →
  capture_after "*" piece = Some name →
  ∀ path,
    (cur ∉ Router.frontier sts' path)
    ∧ (∀ states,
         Router.sortSolutions sts' (Router.frontier sts' path) = Ok states →
         head states ≠ Some cur).
Proof.
  intros Hadd Hlast Hstar path.
  assert (star_spec sts' cur) as Hspec.
  { unfold Router.add in Hadd. rewrite foldl_app in Hadd. cbn [foldl] in Hadd.
    set (a0 := foldl Router.add_route _ routes) in Hadd.
    destruct (Router_add_route_star a0 route piece name Hlast Hstar)
      as (cs & Hcs & Hv & Hi).
    set (a1 := Router.add_route a0 route) in *.
    destruct (RegExp_new _) as [re|]; [|done].
    injection Hadd as <- <-.
    exists cs. split; [|done].
    destruct (Router.loop_states a1 !! Router.currentState a1) as [s|] eqn:Hs;
      [|done].
    rewrite list_lookup_alter_eq, Hs. exact Hcs. }
  assert (cur ∉ Router.frontier sts' path) as Hnot.
  { intros Hin. by eapply Router_frontier_not_star. }
  split; [done|].
  intros states Hsort Hhead. apply Hnot.
  unfold Router.sortSolutions in Hsort.
  rewrite <- (js_sort_r_perm _ _ _ Hsort). by eapply head_Some_elem_of.
Qed.

End router_star.

(** [/files/*path] alone, and the path [/files/a]. *)
Lemma Router_star_route_never_recognized_witness :
  (8 ∉ Router.frontier (Router.add Router.new [old_route "/files/*path" "files"]).1
         "/files/a")
  ∧ (∀ states,
       Router.sortSolutions
         (Router.add Router.new [old_route "/files/*path" "files"]).1
         (Router.frontier
            (Router.add Router.new [old_route "/files/*path" "files"]).1
            "/files/a") = Ok states →
       head states ≠ Some 8).
Proof.
  apply (Router_star_route_never_recognized Router.new []
           (old_route "/files/*path" "files") "*path" "path" _ 8).
  - rewrite (surjective_pairing (Router.add _ _)) at 1. apply f_equal.
    vm_compute. reflexivity.
  - vm_compute. reflexivity.
  - reflexivity.
Defined.

(** ** [Router.add] returns *)

Section router_add.
Context {EP : Type}.
Implicit Types (sts : list (Router.State (EP:=EP))) (a : Router.AddLoop (EP:=EP)).

Lemma reads_on_nil : reads_on "".
Proof. intros rest H. by rewrite app_nil_l_str. Qed.

Lemma reads_on_app x y : reads_on x → reads_on y → reads_on (x +:+ y).
Proof. intros Hx Hy rest H. rewrite app_assoc_str. by apply Hx, Hy. Qed.

Lemma reads_on_segment (seg : Router.Segment) :
  reads_on ("/" +:+ Router.Segment_regex seg).
Proof.
  intros rest [items Hrest]. rewrite app_assoc_str.
  change ("/" +:+ ?x) with (String "/" x).
  destruct seg as [s|n|n]; cbn [Router.Segment_regex].
  - cbn [parse_pattern].
    change (Ascii.eqb "/" "^") with false. change (Ascii.eqb "/" "$") with false.
    change (Ascii.eqb "/" "\") with false. change (Ascii.eqb "/" "(") with false.
    change (Ascii.eqb "/" "/") with true. cbn iota.
    rewrite parse_pattern_escape, Hrest. by eexists.
  - rewrite !app_cons_str, app_nil_l_str. simpl. rewrite Hrest. by eexists.
  - rewrite !app_cons_str, app_nil_l_str. simpl. rewrite Hrest. by eexists.
Qed.

Lemma Router_add_segment_regex a seg :
  Router.loop_regex (Router.add_segment a seg)
  = (Router.loop_regex a +:+ "/") +:+ Router.Segment_regex seg.
Proof.
  unfold Router.add_segment. destruct (Router.State_put _ _ _) as [sts1 c1].
  by destruct (Router.addSegment sts1 c1 seg).
Qed.

Lemma Router_add_segments_regex segs a :
  ∃ x, Router.loop_regex (foldl Router.add_segment a segs)
       = Router.loop_regex a +:+ x ∧ reads_on x.
Proof.
  revert a. induction segs as [|seg segs IH]; intros a; cbn [foldl].
  - exists "". split; [by rewrite app_nil_r_str|apply reads_on_nil].
  - destruct (IH (Router.add_segment a seg)) as (x & -> & Hx).
    rewrite Router_add_segment_regex.
    exists (("/" +:+ Router.Segment_regex seg) +:+ x). split.
    + by rewrite !app_assoc_str.
    + apply reads_on_app; [apply reads_on_segment|done].
Qed.

Lemma Router_add_routes_regex routes a :
  ∃ x, Router.loop_regex (foldl Router.add_route a routes)
       = Router.loop_regex a +:+ x ∧ reads_on x.
Proof.
  revert a. induction routes as [|route routes IH]; intros a; cbn [foldl].
  - exists "". split; [by rewrite app_nil_r_str|apply reads_on_nil].
  - destruct (IH (Router.add_route a route)) as (x & -> & Hx).
    unfold Router.add_route at 1.
    destruct (Router.parse _ _) as [[segments names] types].
    match goal with
    | |- context [foldl Router.add_segment ?a0 segments] =>
        destruct (Router_add_segments_regex segments a0) as (y & Hy & Hr)
    end.
    cbn [Router.loop_regex] in *. rewrite Hy.
    exists (y +:+ x). split; [by rewrite app_assoc_str|by apply reads_on_app].
Qed.

(** [add] always returns: [new RegExp] takes every source that [add]
    builds, whatever the patterns hold. *)
Theorem Router_add_returns sts routes :
  ∃ cur, (Router.add sts routes).2 = Ok cur.
Proof.
  unfold Router.add.
  match goal with
  | |- context [foldl Router.add_route ?a0 routes] =>
      destruct (Router_add_routes_regex routes a0) as (x & Hx & Hr)
  end.
  cbn [Router.loop_regex] in Hx. rewrite Hx.
  unfold RegExp_new. rewrite app_assoc_str.
  change ("^" +:+ ?y) with (String "^" y). cbn [parse_pattern].
  change (Ascii.eqb "^" "^") with true. cbn iota.
  destruct (Hr "$") as [items ->]; [by eexists|]. by eexists.
Qed.

End router_add.

(** ** The round trip with [ENCODE_AND_DECODE_PATH_SEGMENTS] off *)

Section round_trip_raw.
Context {HV : Type} {BI : Builtins} {NO : Normalizer}.
Implicit Types (e : Engine (HV:=HV)) (V : gmap string string).






End round_trip_raw.


(** ** The first [add] on a new [Router] *)

Section router_chain.
Context {EP : Type}.
Implicit Types (specs : list CharSpec).

Lemma chain_length specs : length (chain (EP:=EP) specs) = S (length specs).
Proof. unfold chain. by rewrite length_fmap, length_seq. Qed.

Lemma chain_lookup specs i :
  i ≤ length specs → chain (EP:=EP) specs !! i = Some (chain_state specs i).
Proof.
  intros Hi. unfold chain. rewrite list_lookup_fmap.
  rewrite lookup_seq_lt by lia. done.
Qed.

Lemma chain_lookup_ge specs i :
  length specs < i → chain (EP:=EP) specs !! i = None.
Proof. intros Hi. apply lookup_ge_None. rewrite chain_length. lia. Qed.

Lemma chain_nil : chain (EP:=EP) [] = Router.new.
Proof. done. Qed.

(** The state at the end of the chain has no child with the [charSpec]
    when the last [charSpec] does not stutter. *)
Lemma chain_get_None specs spec :
  no_stutter (specs ++ [spec]) →
  Router.State_get (chain (EP:=EP) specs) (length specs) spec = None.
Proof.
  intros Hns. unfold Router.State_get. rewrite chain_lookup by lia.
  cbn [mbind option_bind chain_state Router.nextStates].
  rewrite decide_False by lia. rewrite app_nil_r.
  destruct (length specs) as [|k] eqn:Hlen; [done|].
  destruct (specs !! k) as [last|] eqn:Hlast; [|done]. cbn [fmap option_fmap option_map default].
  destruct (repeat last) eqn:Hrep; [|done].
  unfold id. cbn [List.find]. unfold Router.has_spec.
  rewrite chain_lookup by lia. cbn [mbind option_bind chain_state Router.charSpec].
  rewrite Hlast.
  assert (isEqualCharSpec last spec = false) as ->; [|done].
  clear -Hns Hlen Hlast Hrep.
  revert k Hlen Hlast. induction specs as [|a specs IH]; intros k Hlen Hlast; [done|].
  destruct specs as [|b specs'].
  - destruct k; [|done]. injection Hlast as ->. simpl in Hns. by apply Hns.
  - destruct k as [|k']; [done|]. apply (IH (proj2 Hns) k'); [simpl in *; lia|done].
Qed.

Lemma chain_state_snoc_lt specs spec i :
  i < length specs →
  chain_state (EP:=EP) (specs ++ [spec]) i = chain_state specs i.
Proof.
  intros Hi. unfold chain_state. f_equal.
  - destruct i as [|k]; [done|]. by rewrite lookup_app_l by lia.
  - rewrite length_app. cbn [length].
    rewrite !decide_True by lia. f_equal.
    destruct i as [|k]; [done|]. by rewrite lookup_app_l by lia.
Qed.

(** A [put] at the end of the chain lengthens it. *)
Lemma State_put_chain specs spec :
  no_stutter (specs ++ [spec]) →
  Router.State_put (chain (EP:=EP) specs) (length specs) spec
  = (chain (specs ++ [spec]), S (length specs)).
Proof.
  intros Hns. unfold Router.State_put. rewrite (chain_get_None _ _ Hns).
  rewrite chain_length. f_equal.
  apply list_eq. intros i.
  set (n := length specs).
  assert (length (specs ++ [spec]) = S n) as Hlen'
    by (rewrite length_app; simpl; lia).
  set (base := alter (Router.push_child (S n)) n (chain specs)
               ++ [Router.State_new (Some spec)]).
  assert (∀ j, j < n → base !! j = Some (chain_state specs j)) as Hlt.
  { intros j Hj. unfold base.
    rewrite lookup_app_l by (rewrite length_alter, chain_length; lia).
    rewrite list_lookup_alter_ne by lia. apply chain_lookup. lia. }
  assert (base !! n = Some (Router.push_child (S n) (chain_state specs n))) as Hn.
  { unfold base.
    rewrite lookup_app_l by (rewrite length_alter, chain_length; lia).
    rewrite list_lookup_alter_eq, chain_lookup by lia. done. }
  assert (base !! S n = Some (Router.State_new (Some spec))) as Hnew.
  { unfold base.
    rewrite lookup_app_r by (rewrite length_alter, chain_length; lia).
    rewrite length_alter, chain_length, Nat.sub_diag. done. }
  assert (length base = S (S n)) as Hbase.
  { unfold base. rewrite length_app, length_alter, chain_length. simpl. lia. }
  destruct (decide (i < n)) as [Hi|Hi].
  { rewrite chain_lookup by lia. rewrite chain_state_snoc_lt by done.
    destruct (repeat spec); [rewrite list_lookup_alter_ne by lia|]; by apply Hlt. }
  destruct (decide (i = n)) as [->|Hi'].
  { rewrite chain_lookup by lia.
    assert (chain_state (EP:=EP) (specs ++ [spec]) n
            = Router.push_child (S n) (chain_state specs n)) as ->.
    { unfold chain_state, Router.push_child. cbn [Router.charSpec Router.nextStates
        Router.accepting]. rewrite Hlen'.
      rewrite (decide_True (P:=n < S n)) by lia.
      rewrite (decide_False (P:=n < length specs)) by (fold n; lia).
      rewrite app_nil_r. f_equal.
      - destruct n as [|k] eqn:Hk; [done|]. rewrite lookup_app_l; [done|]. fold n in Hk. lia.
      - f_equal. destruct n as [|k] eqn:Hk; [done|].
        rewrite lookup_app_l; [done|]. fold n in Hk. lia. }
    destruct (repeat spec); [rewrite list_lookup_alter_ne by lia|]; exact Hn. }
  destruct (decide (i = S n)) as [->|Hi''].
  { rewrite chain_lookup by lia.
    assert ((specs ++ [spec]) !! n = Some spec) as Hspec.
    { rewrite lookup_app_r by (fold n; lia). fold n. by rewrite Nat.sub_diag. }
    unfold chain_state. rewrite Hspec, Hlen'.
    rewrite decide_False by lia. rewrite app_nil_r.
    cbn [fmap option_fmap option_map default].
    destruct (repeat spec).
    - rewrite list_lookup_alter_eq, Hnew. done.
    - rewrite Hnew. done. }
  rewrite chain_lookup_ge by lia.
  apply lookup_ge_None.
  destruct (repeat spec); rewrite ?length_alter, Hbase; lia.
Qed.

Lemma no_stutter_app_l l1 l2 : no_stutter (l1 ++ l2) → no_stutter l1.
Proof.
  induction l1 as [|a l1 IH]; [done|]. destruct l1 as [|b l1'].
  - done.
  - simpl. intros [H1 H2]. split; [done|]. by apply IH.
Qed.

Lemma foldl_put_chain specs news :
  no_stutter (specs ++ news) →
  foldl (λ '(sts, cur) char, Router.State_put sts cur char)
    (chain (EP:=EP) specs, length specs) news
  = (chain (specs ++ news), length (specs ++ news)).
Proof.
  revert specs. induction news as [|spec news IH]; intros specs Hns.
  - by rewrite app_nil_r.
  - cbn [foldl]. rewrite State_put_chain.
    2:{ apply (no_stutter_app_l _ news). by rewrite <- app_assoc. }
    replace (S (length specs)) with (length (specs ++ [spec]))
      by (rewrite length_app; simpl; lia).
    rewrite IH by (by rewrite <- app_assoc).
    by rewrite <- app_assoc.
Qed.

End router_chain.

Section router_first_add.
Context {EP : Type}.
Implicit Types (specs : list CharSpec) (segs : list Router.Segment).
Implicit Types (a : Router.AddLoop (EP:=EP)).

Lemma no_stutter_cons_plain spec l :
  repeat spec = false → no_stutter l → no_stutter (spec :: l).
Proof. intros Hr Hl. destruct l as [|b l']; [done|]. split; [congruence|done]. Qed.

Lemma no_stutter_cons_slash spec l :
  isEqualCharSpec spec old_slash = false →
  no_stutter (old_slash :: l) → no_stutter (spec :: old_slash :: l).
Proof. intros He Hl. by split. Qed.

Lemma Router_specs_cons seg segs :
  Router_specs (seg :: segs) = (old_slash :: Router.eachChar seg) ++ Router_specs segs.
Proof. done. Qed.

Lemma Router_specs_head segs :
  Router_specs segs = [] ∨ ∃ l, Router_specs segs = old_slash :: l.
Proof. destruct segs as [|seg segs]; [by left|right]. by eexists. Qed.

Lemma Router_specs_app segs1 segs2 :
  Router_specs (segs1 ++ segs2) = Router_specs segs1 ++ Router_specs segs2.
Proof. unfold Router_specs. apply bind_app. Qed.

Lemma no_stutter_eachChar seg l :
  (l = [] ∨ ∃ l', l = old_slash :: l') → no_stutter l →
  no_stutter (Router.eachChar seg ++ l).
Proof.
  intros Hhead Hl. destruct seg as [s|n|n]; cbn [Router.eachChar].
  - induction (list_ascii_of_string s) as [|c cs IH]; [done|].
    cbn [fmap list_fmap app]. by apply no_stutter_cons_plain.
  - destruct Hhead as [->|[l' ->]]; [done|]. by apply no_stutter_cons_slash.
  - destruct Hhead as [->|[l' ->]]; [done|]. by apply no_stutter_cons_slash.
Qed.

Lemma no_stutter_specs segs : no_stutter (Router_specs segs).
Proof.
  induction segs as [|seg segs IH]; [done|].
  rewrite Router_specs_cons. cbn [app].
  apply no_stutter_cons_plain; [done|].
  apply no_stutter_eachChar; [apply Router_specs_head|done].
Qed.

(** The inner loop of [add], started at the end of a chain. *)
Lemma Router_add_segments_chain segs a specs :
  Router.loop_states a = chain specs → Router.currentState a = length specs →
  no_stutter (specs ++ Router_specs segs) →
  Router.loop_states (foldl Router.add_segment a segs)
  = chain (specs ++ Router_specs segs)
  ∧ Router.currentState (foldl Router.add_segment a segs)
    = length (specs ++ Router_specs segs)
  ∧ Router.loop_regex (foldl Router.add_segment a segs)
    = Router.loop_regex a +:+ pattern (as_segment <$> segs)
  ∧ Router.loop_types (foldl Router.add_segment a segs) = Router.loop_types a
  ∧ Router.loop_endpoints (foldl Router.add_segment a segs)
    = Router.loop_endpoints a.
Proof.
  revert a specs. induction segs as [|seg segs IH]; intros a specs Hsts Hcur Hns.
  - cbn [foldl]. unfold Router_specs. cbn [mbind list_bind]. rewrite app_nil_r.
    unfold pattern. cbn. by rewrite app_nil_r_str.
  - cbn [foldl]. rewrite Router_specs_cons, app_assoc in Hns.
    pose proof (foldl_put_chain (EP:=EP) specs (old_slash :: Router.eachChar seg)
                  (no_stutter_app_l _ _ Hns)) as Hput.
    cbn [foldl] in Hput.
    set (a1 := {| Router.loop_states := chain (specs ++ old_slash :: Router.eachChar seg);
                  Router.currentState := length (specs ++ old_slash :: Router.eachChar seg);
                  Router.loop_regex :=
                    (Router.loop_regex a +:+ "/") +:+ Router.Segment_regex seg;
                  Router.loop_types := Router.loop_types a;
                  Router.loop_endpoints := Router.loop_endpoints a |}).
    assert (Router.add_segment a seg = a1) as ->.
    { unfold Router.add_segment. rewrite Hsts, Hcur.
      fold old_slash.
      destruct (Router.State_put (chain specs) (length specs) old_slash)
        as [sts1 c1].
      unfold Router.addSegment. by rewrite Hput. }
    destruct (IH a1 (specs ++ old_slash :: Router.eachChar seg) eq_refl eq_refl)
      as (-> & -> & -> & -> & ->); [exact Hns|].
    unfold a1.
    cbn [Router.loop_regex Router.loop_types Router.loop_endpoints].
    rewrite Router_specs_cons, <- !app_assoc. split_and!; try done.
    cbn [fmap list_fmap]. rewrite pattern_cons.
    assert (is_Epsilon (as_segment seg) = false) as -> by (by destruct seg).
    assert (Segment_regex (as_segment seg) = Router.Segment_regex seg) as ->
      by (by destruct seg).
    by rewrite !app_assoc_str.
Qed.

End router_first_add.

Section router_walk.
Context {EP : Type}.
Implicit Types (specs pre post : list CharSpec) (segs : list Router.Segment).

Lemma chain_takes specs char i :
  i ≤ length specs →
  Router.takes (chain (EP:=EP) specs) char i
  = match i with
    | 0 => false
    | S k => match specs !! k with
             | Some spec => old_spec_takes spec char
             | None => false
             end
    end.
Proof.
  intros Hi. unfold Router.takes. rewrite chain_lookup by done.
  cbn [mbind option_bind chain_state Router.charSpec].
  destruct i as [|k]; [done|]. by destruct (specs !! k).
Qed.

Lemma chain_recognizeChar specs i char :
  i ≤ length specs →
  Router.recognizeChar (chain (EP:=EP) specs) [i] char
  = filter (λ c, Router.takes (chain (EP:=EP) specs) char c = true)
      (Router.nextStates (chain_state (EP:=EP) specs i)).
Proof.
  intros Hi. unfold Router.recognizeChar. cbn [foldl app].
  unfold Router.State_match. by rewrite chain_lookup.
Qed.

(** A step to the next state of the chain. *)
Lemma chain_step_next specs i spec char :
  specs !! i = Some spec → old_spec_takes spec char = true →
  match i with
  | 0 => True
  | S k => ∀ own, specs !! k = Some own → repeat own = true →
                  old_spec_takes own char = false
  end →
  Router.recognizeChar (chain (EP:=EP) specs) [i] char = [S i].
Proof.
  intros Hspec Ht Hself. pose proof (lookup_lt_Some _ _ _ Hspec) as Hi.
  rewrite chain_recognizeChar by lia. cbn [chain_state Router.nextStates].
  rewrite decide_True by lia. rewrite filter_app.
  assert (filter (λ c, Router.takes (chain (EP:=EP) specs) char c = true) [S i]
          = [S i]) as ->.
  { rewrite filter_cons_True; [done|]. rewrite chain_takes by lia. by rewrite Hspec. }
  destruct i as [|k]; [done|].
  destruct (specs !! k) as [own|] eqn:Hown; [|done].
  cbn [fmap option_fmap option_map default]. unfold id.
  destruct (repeat own) eqn:Hrep; [|done].
  rewrite filter_cons_False; [done|].
  rewrite chain_takes by lia. rewrite Hown, (Hself own eq_refl Hrep). done.
Qed.

(** A step that stays in a state that repeats. *)
Lemma chain_step_self specs k own char :
  specs !! k = Some own → repeat own = true → old_spec_takes own char = true →
  (∀ next, specs !! S k = Some next → old_spec_takes next char = false) →
  Router.recognizeChar (chain (EP:=EP) specs) [S k] char = [S k].
Proof.
  intros Hown Hrep Ht Hnext. pose proof (lookup_lt_Some _ _ _ Hown) as Hk.
  rewrite chain_recognizeChar by lia. cbn [chain_state Router.nextStates].
  rewrite Hown. cbn [fmap option_fmap option_map default]. unfold id.
  rewrite Hrep. rewrite filter_app.
  assert (filter (λ c, Router.takes (chain (EP:=EP) specs) char c = true) [S k]
          = [S k]) as ->.
  { rewrite filter_cons_True; [done|]. rewrite chain_takes by lia. by rewrite Hown. }
  destruct (decide (S k < length specs)) as [Hlt|Hlt]; [|done].
  destruct (lookup_lt_is_Some_2 specs (S k) Hlt) as [next Hn].
  rewrite filter_cons_False; [done|].
  rewrite chain_takes by lia. rewrite Hn, (Hnext next Hn). done.
Qed.

Lemma Router_walk_step (sts : list (Router.State (EP:=EP))) i j char r :
  Router.recognizeChar sts [i] char = [j] →
  Router.walk sts [i] (String char r) = Router.walk sts [j] r.
Proof. intros H. cbn [Router.walk]. by rewrite H. Qed.

Lemma Router_walk_loop specs k own r rest :
  specs !! k = Some own → repeat own = true →
  (∀ x, mem_char x r = true →
        old_spec_takes own x = true
        ∧ ∀ next, specs !! S k = Some next → old_spec_takes next x = false) →
  Router.walk (chain (EP:=EP) specs) [S k] (r +:+ rest)
  = Router.walk (chain (EP:=EP) specs) [S k] rest.
Proof.
  intros Hown Hrep. induction r as [|x r IH]; intros Hr; [done|].
  rewrite app_cons_str.
  destruct (Hr x) as [Hx Hn]; [by rewrite mem_char_cons, Ascii.eqb_refl|].
  rewrite (Router_walk_step _ (S k) (S k)) by (by eapply chain_step_self).
  apply IH. intros y Hy. apply Hr. rewrite mem_char_cons, Hy. apply orb_true_r.
Qed.

Lemma last_snoc_lookup {A} (pre : list A) (k : nat) l x :
  length pre = S k → (pre ++ l) !! k = Some x → last pre = Some x.
Proof.
  intros Hlen. rewrite lookup_app_l by lia. rewrite last_lookup, Hlen. done.
Qed.

(** The walk over the characters of a static segment. *)
Lemma Router_walk_static chars pre post rest :
  (∀ own, last pre = Some own → repeat own = false) →
  Router.walk
    (chain (EP:=EP)
       (pre ++ ((λ char, {| validChars := Some (chr char); invalidChars := None;
                            repeat := false |}) <$> chars) ++ post))
    [length pre] (string_of_list_ascii chars +:+ rest)
  = Router.walk
      (chain (EP:=EP)
         (pre ++ ((λ char, {| validChars := Some (chr char); invalidChars := None;
                              repeat := false |}) <$> chars) ++ post))
      [length pre + length chars] rest.
Proof.
  revert pre. induction chars as [|c chars IH]; intros pre Hpre.
  - cbn. by rewrite Nat.add_0_r.
  - cbn [string_of_list_ascii fmap list_fmap app]. rewrite app_cons_str.
    set (spec := {| validChars := Some (chr c); invalidChars := None;
                    repeat := false |}).
    set (tail := ((λ char, {| validChars := Some (chr char); invalidChars := None;
                              repeat := false |}) <$> chars) ++ post).
    rewrite (Router_walk_step _ (length pre) (S (length pre))).
    2:{ apply (chain_step_next _ _ spec).
        - rewrite lookup_app_r by lia. by rewrite Nat.sub_diag.
        - unfold old_spec_takes, spec. cbn [validChars Router.truthy chr].
          apply mem_char_chr.
        - destruct (length pre) as [|k] eqn:Hlen; [done|].
          intros own Hown Hrep.
          rewrite (Hpre own (last_snoc_lookup _ _ _ _ Hlen Hown)) in Hrep. done. }
    replace (pre ++ spec :: tail) with ((pre ++ [spec]) ++ tail)
      by (by rewrite <- app_assoc).
    replace (S (length pre)) with (length (pre ++ [spec]))
      by (rewrite length_app; simpl; lia).
    unfold tail. rewrite IH.
    + f_equal. rewrite length_app. simpl. f_equal. lia.
    + intros own. rewrite last_snoc. by intros [= <-].
Qed.

End router_walk.

Section router_own_route.
Context {EP : Type}.
Implicit Types (specs pre post : list CharSpec) (segs : list Router.Segment).
Implicit Types (V : gmap string string).

Lemma old_spec_takes_slash_other x :
  Ascii.eqb x "/" = false → old_spec_takes old_slash x = false.
Proof.
  intros Hx. unfold old_spec_takes, old_slash. cbn [validChars Router.truthy].
  change "/" with (chr "/"). unfold chr. rewrite mem_char_cons.
  rewrite Ascii.eqb_sym, Hx. done.
Qed.

Lemma old_spec_takes_dynamic x :
  Ascii.eqb x "/" = false →
  old_spec_takes {| validChars := None; invalidChars := Some "/"; repeat := true |} x
  = true.
Proof.
  intros Hx. unfold old_spec_takes. cbn [validChars invalidChars Router.truthy].
  change "/" with (chr "/"). unfold chr. rewrite mem_char_cons.
  rewrite Ascii.eqb_sym, Hx. done.
Qed.

(** The walk over [/] and the piece of one segment. *)
Lemma Router_walk_segment pre seg post w rest :
  old_matches seg w →
  (∀ own, last pre = Some own → repeat own = true →
          old_spec_takes own "/" = false) →
  (post = [] ∨ ∃ post', post = old_slash :: post') →
  Router.walk (chain (EP:=EP) (pre ++ (old_slash :: Router.eachChar seg) ++ post))
    [length pre] (String "/" (w +:+ rest))
  = Router.walk (chain (EP:=EP) (pre ++ (old_slash :: Router.eachChar seg) ++ post))
      [length pre + S (length (Router.eachChar seg))] rest.
Proof.
  intros Hw Hpre Hpost.
  rewrite (Router_walk_step _ (length pre) (S (length pre))).
  2:{ apply (chain_step_next _ _ old_slash).
      - rewrite lookup_app_r by lia. by rewrite Nat.sub_diag.
      - done.
      - destruct (length pre) as [|k] eqn:Hlen; [done|].
        intros own Hown Hrep.
        exact (Hpre own (last_snoc_lookup _ _ _ _ Hlen Hown) Hrep). }
  destruct seg as [s|n|n]; cbn [old_matches as_segment matches_seg] in Hw; [| |done].
  - destruct Hw as (-> & _ & _). cbn [Router.eachChar].
    replace (pre ++ (old_slash :: _) ++ post)
      with ((pre ++ [old_slash])
            ++ ((λ char, {| validChars := Some (chr char); invalidChars := None;
                            repeat := false |}) <$> list_ascii_of_string s) ++ post)
      by (by rewrite <- app_assoc).
    replace (S (length pre)) with (length (pre ++ [old_slash]))
      by (rewrite length_app; simpl; lia).
    rewrite <- (string_of_list_ascii_of_string s) at 2.
    rewrite Router_walk_static.
    + f_equal. rewrite !length_app, length_fmap. simpl. f_equal. lia.
    + intros own. rewrite last_snoc. by intros [= <-].
  - destruct Hw as [Hne Hfree]. destruct w as [|c r]; [done|].
    rewrite mem_char_cons in Hfree. apply orb_false_iff in Hfree as [Hc Hr].
    cbn [Router.eachChar]. rewrite app_cons_str.
    set (dyn := {| validChars := None; invalidChars := Some "/"; repeat := true |}).
    set (specs := pre ++ (old_slash :: [dyn]) ++ post).
    assert (specs !! length pre = Some old_slash) as Hslash.
    { unfold specs. rewrite lookup_app_r by lia. by rewrite Nat.sub_diag. }
    assert (specs !! S (length pre) = Some dyn) as Hdyn.
    { unfold specs. rewrite lookup_app_r by lia.
      by replace (S (length pre) - length pre) with 1 by lia. }
    rewrite (Router_walk_step _ (S (length pre)) (S (S (length pre)))).
    2:{ apply (chain_step_next _ _ dyn); [done|by apply old_spec_takes_dynamic|].
        intros own. rewrite Hslash. by intros [= <-]. }
    rewrite (Router_walk_loop _ (S (length pre)) dyn); [| done | done |].
    + f_equal. simpl. f_equal. lia.
    + intros x Hx.
      assert (Ascii.eqb x "/" = false) as Hxs.
      { apply Ascii.eqb_neq. eapply mem_char_neq; eauto. }
      split; [by apply old_spec_takes_dynamic|].
      intros next. unfold specs. rewrite lookup_app_r by lia.
      replace (S (S (length pre)) - length pre) with 2 by lia.
      destruct Hpost as [->|[post' ->]]; [done|].
      intros [= <-]. by apply old_spec_takes_slash_other.
Qed.

Lemma quiet_after pre seg w :
  old_matches seg w →
  ∀ own, last (pre ++ old_slash :: Router.eachChar seg) = Some own →
         repeat own = true → old_spec_takes own "/" = false.
Proof.
  intros Hw own Hlast Hrep.
  assert (own ∈ old_slash :: Router.eachChar seg) as Hin.
  { rewrite last_app_cons in Hlast. by apply last_Some_elem_of in Hlast. }
  apply elem_of_cons in Hin as [->|Hin]; [done|].
  destruct seg as [s|n|n]; cbn [Router.eachChar] in Hin; [| |done].
  - apply list_elem_of_fmap in Hin as (c & -> & _). done.
  - apply list_elem_of_singleton in Hin as ->. done.
Qed.

(** The walk along a path whose pieces the segments match ends at the end
    of the chain, and there alone. *)
Lemma Router_walk_segments segs ws pre :
  Forall2 old_matches segs ws →
  (∀ own, last pre = Some own → repeat own = true →
          old_spec_takes own "/" = false) →
  Router.walk (chain (EP:=EP) (pre ++ Router_specs segs)) [length pre] (spell ws)
  = [length (pre ++ Router_specs segs)].
Proof.
  intros HF. revert pre. induction HF as [|seg w segs ws Hw HF IH]; intros pre Hpre.
  - cbn. by rewrite app_nil_r.
  - rewrite Router_specs_cons, spell_cons.
    change ("/" +:+ ?x) with (String "/" x).
    rewrite (Router_walk_segment pre seg (Router_specs segs) w (spell ws) Hw Hpre
               (Router_specs_head segs)).
    replace (length pre + S (length (Router.eachChar seg)))
      with (length (pre ++ old_slash :: Router.eachChar seg))
      by (rewrite length_app; simpl; lia).
    rewrite app_assoc. apply IH. by eapply quiet_after.
Qed.

Lemma Router_takes_accepting (sts : list (Router.State (EP:=EP))) acc c char x :
  Router.takes (alter (Router.set_accepting acc) c sts) char x
  = Router.takes sts char x.
Proof.
  unfold Router.takes. destruct (decide (x = c)) as [->|Hne].
  - rewrite list_lookup_alter_eq. by destruct (sts !! c).
  - by rewrite list_lookup_alter_ne.
Qed.

Lemma Router_match_accepting (sts : list (Router.State (EP:=EP))) acc c char i :
  Router.State_match (alter (Router.set_accepting acc) c sts) i char
  = Router.State_match sts i char.
Proof.
  unfold Router.State_match.
  assert (∀ l : list nat, filter (λ x, Router.takes (alter (Router.set_accepting acc) c sts)
                              char x = true) l
               = filter (λ x, Router.takes sts char x = true) l) as Hf.
  { intros l. induction l as [|x l IHl]; [done|].
    destruct (decide (Router.takes sts char x = true)) as [Hx|Hx].
    - rewrite !filter_cons_True by (by rewrite ?Router_takes_accepting).
      by rewrite IHl.
    - rewrite !filter_cons_False by (by rewrite ?Router_takes_accepting).
      done. }
  destruct (decide (i = c)) as [->|Hne].
  - rewrite list_lookup_alter_eq. destruct (sts !! c); [apply Hf|done].
  - rewrite list_lookup_alter_ne by done. destruct (sts !! i); [apply Hf|done].
Qed.

Lemma Router_walk_accepting (sts : list (Router.State (EP:=EP))) acc c states path :
  Router.walk (alter (Router.set_accepting acc) c sts) states path
  = Router.walk sts states path.
Proof.
  revert states. induction path as [|char r IH]; intros states; [done|].
  cbn [Router.walk].
  assert (Router.recognizeChar (alter (Router.set_accepting acc) c sts) states char
          = Router.recognizeChar sts states char) as ->.
  { unfold Router.recognizeChar. generalize (@nil nat).
    induction states as [|y states IHs]; intros l; [done|]. cbn [foldl].
    by rewrite Router_match_accepting, IHs. }
  destruct (Router.recognizeChar sts states char); [done|apply IH].
Qed.

End router_own_route.

(** ** A new [Router] recognizes the route of its first [add] *)

Section router_own_route_theorem.
Context {EP : Type}.
Implicit Types (segs : list Router.Segment) (V : gmap string string).

Lemma Router_parse_segments_names l t segs ns t' :
  Router.parse_segments l t = (segs, ns, t') →
  ns = segment_names (as_segment <$> segs) ∧ length segs = length l.
Proof.
  revert t segs ns t'. induction l as [|piece l IH]; intros t segs ns t'; simpl.
  - by intros [= <- <- _].
  - destruct (capture_after ":" piece) as [n|].
    { destruct (Router.parse_segments l _) as [[rs ns'] t''] eqn:Hrec.
      intros [= <- <- _]. destruct (IH _ _ _ _ Hrec) as [-> Hlen].
      split; [done|]. simpl. by rewrite Hlen. }
    destruct (capture_after "*" piece) as [n|].
    { destruct (Router.parse_segments l _) as [[rs ns'] t''] eqn:Hrec.
      intros [= <- <- _]. destruct (IH _ _ _ _ Hrec) as [-> Hlen].
      split; [done|]. simpl. by rewrite Hlen. }
    destruct (Router.parse_segments l _) as [[rs ns'] t''] eqn:Hrec.
    intros [= <- <- _]. destruct (IH _ _ _ _ Hrec) as [-> Hlen].
    split; [done|]. simpl. by rewrite Hlen.
Qed.

Lemma solid_as_segment segs : solid (as_segment <$> segs) = as_segment <$> segs.
Proof.
  unfold solid. induction segs as [|seg segs IH]; [done|].
  cbn [fmap list_fmap]. rewrite filter_cons_True by (by destruct seg).
  f_equal. apply IH.
Qed.

Lemma old_matches_matches seg w : old_matches seg w → matches_seg (as_segment seg) w.
Proof. by destruct seg. Qed.

Lemma old_matches_stars_last segs ws :
  Forall2 old_matches segs ws → stars_last (as_segment <$> segs).
Proof.
  induction 1 as [|seg w segs ws Hw HF IH]; [done|]. by destruct seg.
Qed.

Lemma Router_read_names_captures V (segs : list Segment) ws pre m :
  Forall2 (renders_raw V) segs ws →
  "__proto__" ∉ segment_names segs →
  ∃ m',
    Router.read_names (Some (pre ++ captures_of segs ws)) (segment_names segs)
      (S (length pre)) m
    = Ok (m', S (length pre + length (segment_names segs)))
    ∧ ∀ n, m' !! n = if decide (n ∈ segment_names segs)
                     then str <$> V !! n else m !! n.
Proof.
  intros HF. revert pre m.
  induction HF as [|seg w segs ws Hw HF IH]; intros pre m Hproto.
  - exists m. split; [simpl; do 2 f_equal; lia|]. intros n.
    rewrite decide_False; [done|]. apply not_elem_of_nil.
  - assert (∀ n, V !! n = Some w → "__proto__" ∉ n :: segment_names segs →
              ∃ m',
                Router.read_names (Some (pre ++ w :: captures_of segs ws))
                  (n :: segment_names segs) (S (length pre)) m
                = Ok (m', S (length pre + length (n :: segment_names segs)))
                ∧ ∀ n', m' !! n' = if decide (n' ∈ n :: segment_names segs)
                                   then str <$> V !! n' else m !! n') as Hstep.
    { intros n Hn [Hne Hproto']%not_elem_of_cons. cbn [Router.read_names].
      replace (S (length pre) - 1) with (length pre) by lia.
      rewrite lookup_app_r, Nat.sub_diag by lia. cbn [lookup list_lookup].
      destruct (IH (pre ++ [w]) (proto_set m n (str w)) Hproto')
        as (m' & Hm' & Hlook).
      rewrite <- app_assoc in Hm'. cbn [app] in Hm'.
      rewrite length_app in Hm'. cbn [length] in Hm'.
      replace (length pre + 1) with (S (length pre)) in Hm' by lia.
      exists m'. split.
      { rewrite Hm'. do 2 f_equal. cbn [length]. lia. }
      intros n'. rewrite Hlook. unfold proto_set.
      rewrite bool_decide_eq_false_2 by congruence.
      destruct (decide (n' = n)) as [->|Hne'].
      * rewrite (decide_True (P:=n ∈ n :: _)) by apply list_elem_of_here.
        rewrite lookup_insert_eq, Hn. by destruct (decide _).
      * rewrite lookup_insert_ne by done.
        destruct (decide (n' ∈ _)) as [Hin|Hin].
        -- rewrite decide_True; [done|]. by apply list_elem_of_further.
        -- rewrite decide_False; [done|]. by intros [?|?]%elem_of_cons. }
    destruct seg as [s|n|n|]; [by apply IH| | |done].
    + by apply Hstep.
    + by apply Hstep.
Qed.

(** A new [Router] to which one route has been added recognizes the paths
    of that route.  Let [parse] read the segments [segs] and the names
    [names] in the path of the route, none of them [__proto__], and let
    [V] give a value to each name and to nothing else.  Let the path spell
    one piece for every segment: for a Static segment its text, which
    holds no [^] and no [$]; for a Dynamic segment the value of its name,
    which is not empty and holds no [/]; there is no Star segment.  Then
    [recognize] returns one entry, with the endpoint of the route and
    exactly the values [V] as [params]. *)
Theorem Router_recognizes_its_route (route : Router.Route (EP:=EP))
    segs names types V ws :
  Router.parse (Router.path route)
    {| Router.statics := 0; Router.dynamics := 0; Router.stars := 0 |}
  = (segs, names, types) →
  Forall2 (λ seg w, old_matches seg w ∧ renders_raw V (as_segment seg) w) segs ws →
  "__proto__" ∉ names →
  (∀ n, is_Some (V !! n) ↔ n ∈ names) →
  Router.recognize (Router.add Router.new [route]).1 (spell ws)
  = Ok (Some [ {| Router.entry_endpoint := Router.route_endpoint route;
                  Router.params := str <$> V |} ]).
Proof.
  intros Hparse Hback Hproto Hdom.
  assert (Forall2 old_matches segs ws) as Hold.
  { eapply Forall2_impl; [exact Hback|]. by intros seg w [? _]. }
  assert (Forall2 (renders_raw V) (as_segment <$> segs) ws) as Hrend.
  { apply Forall2_fmap_l. eapply Forall2_impl; [exact Hback|]. by intros seg w [_ ?]. }
  assert (Forall2 matches_seg (as_segment <$> segs) ws) as Hmatch.
  { apply Forall2_fmap_l. eapply Forall2_impl; [exact Hold|].
    apply old_matches_matches. }
  assert (names = segment_names (as_segment <$> segs) ∧ ws ≠ []) as [-> Hws].
  { unfold Router.parse in Hparse.
    destruct (Router_parse_segments_names _ _ _ _ _ Hparse) as [-> Hlen].
    split; [done|]. intros ->. apply Forall2_nil_inv_r in Hold as ->.
    simpl in Hlen. symmetry in Hlen. apply length_zero_iff_nil in Hlen.
    by apply split_nonempty in Hlen. }
  unfold Router.add. cbn [foldl]. unfold Router.add_route.
  cbn [Router.loop_types Router.loop_states Router.currentState Router.loop_regex
       Router.loop_endpoints].
  rewrite Hparse.
  match goal with
  | |- context [foldl Router.add_segment ?a0 segs] =>
      destruct (Router_add_segments_chain segs a0 [])
        as (Hsts & Hcur & Hregex & Htypes & Hends);
      [done|done|apply no_stutter_specs|]
  end.
  cbn [app Router.loop_regex Router.loop_types Router.loop_endpoints] in *.
  rewrite Hsts, Hcur, Hregex, Htypes, Hends.
  cbn [app Router.loop_regex Router.loop_types Router.loop_endpoints
       Router.loop_states Router.currentState].
  rewrite RegExp_new_pattern, solid_as_segment. cbn [fst].
  set (re := {| source := _; program := _ |}).
  set (acc := {| Router.endpoints := _; Router.regex := re; Router.types := _ |}).
  unfold Router.recognize. rewrite (starts_with_spell ws Hws).
  rewrite Router_walk_accepting.
  pose proof (Router_walk_segments (EP:=EP) segs ws [] Hold) as Hwalk.
  cbn [app length] in Hwalk. unfold Router.rootState.
  rewrite Hwalk by done.
  assert (Router.sortSolutions
            (alter (Router.set_accepting acc) (length (Router_specs segs))
               (chain (Router_specs segs)))
            [length (Router_specs segs)]
          = Ok [length (Router_specs segs)]) as -> by done.
  unfold mbind at 1. unfold result_bind. cbn [head].
  change (Some ?i ≫= λ i, ?l !! i ≫= Router.accepting)
    with (l !! i ≫= Router.accepting).
  rewrite list_lookup_alter_eq, chain_lookup by done.
  cbn [fmap option_fmap option_map mbind option_bind Router.set_accepting
       Router.accepting].
  unfold Router.endpoint_of. cbn [Router.regex Router.endpoints acc].
  rewrite (regex_match_pieces re (as_segment <$> segs) ws eq_refl Hmatch
             (old_matches_stars_last _ _ Hold)).
  cbn [app Router.read_endpoints Router.names Router.endpoint].
  destruct (Router_read_names_captures V (as_segment <$> segs) ws [] ∅ Hrend Hproto)
    as (m' & Hm' & Hlook).
  assert (m' = str <$> V) as ->.
  { apply map_eq. intros n. rewrite Hlook, lookup_fmap.
    destruct (decide (n ∈ _)) as [Hin|Hin]; [done|].
    rewrite lookup_empty.
    destruct (V !! n) eqn:HVn; [|done].
    destruct Hin. apply Hdom. by rewrite HVn. }
  cbn [app length] in Hm'. rewrite Hm'. reflexivity.
Qed.

End router_own_route_theorem.

(** The route [/posts/:id]: the path [/posts/1] gives its endpoint with
    [id] = [1]. *)
Lemma Router_recognizes_its_route_witness :
  Router.recognize (Router.add Router.new [old_route "/posts/:id" "showPost"]).1
    (spell ["posts"; "1"])
  = Ok (Some [ {| Router.entry_endpoint := "showPost";
                  Router.params := str <$> {["id" := "1"]} |} ]).
Proof.
  apply (Router_recognizes_its_route (old_route "/posts/:id" "showPost")
           [Router.StaticSegment "posts"; Router.DynamicSegment "id"] ["id"]
           {| Router.statics := 1; Router.dynamics := 1; Router.stars := 0 |}
           {["id" := "1"]} ["posts"; "1"]).
  - reflexivity.
  - repeat constructor; try done.
  - by intros [?|?%elem_of_nil]%elem_of_cons.
  - intros n. destruct (decide (n = "id")) as [->|Hne].
    + rewrite lookup_singleton_eq. split; [intros _; apply list_elem_of_here|by eexists].
    + rewrite lookup_singleton_ne by done. split; [by intros [? ?]|].
      by intros [?|?%elem_of_nil]%elem_of_cons.
Defined.
